(** * Playlist tree engine (src/playlist/tree.c): shallow embedding and
    verification of the tree mutation and traversal functions.

    The C code works on a graph of heap-allocated [playlist_item_t]
    structures linked by child arrays and parent back-pointers.  The
    embedding keeps that shape: a playlist carries a finite map from
    addresses to node records (the heap of live nodes), functions thread the
    playlist explicitly, and every pointer dereference is a lookup that can
    fail. *)

From Stdlib Require Import ZArith.
From stdpp Require Import gmap list strings relations.

Local Open Scope Z_scope.

(** ** Outcomes of running a C function *)

Inductive result (A : Type) : Type :=
  | Ok (a : A)     (* the function returned [a] *)
  | Fault          (* undefined behaviour: NULL or dangling dereference,
                      out-of-bounds array access *)
  | Abort          (* a failed assert() or a call to abort() *)
  | OutOfFuel.     (* the recursion budget of the model ran out *)
Arguments Ok {A} a.
Arguments Fault {A}.
Arguments Abort {A}.
Arguments OutOfFuel {A}.

#[global] Instance result_ret : MRet result := fun A a => Ok a.
#[global] Instance result_bind : MBind result := fun A B f m =>
  match m with
  | Ok a => f a
  | Fault => Fault
  | Abort => Abort
  | OutOfFuel => OutOfFuel
  end.
#[global] Instance result_fmap : FMap result := fun A B f m =>
  match m with
  | Ok a => Ok (f a)
  | Fault => Fault
  | Abort => Abort
  | OutOfFuel => OutOfFuel
  end.

(** ** Data model *)

(** Addresses of [playlist_item_t] structures; a C pointer that may be NULL
    is an [option ptr]. *)
Abbreviation ptr := nat.

(** Modelled from the spec: the return codes are declared outside tree.c;
    the functions here return success or the generic error ("not a
    container"). *)
Inductive vlc_ret := VLC_SUCCESS | VLC_EGENERIC.

(** Modelled from the spec: the descriptor types are declared outside
    tree.c; tree.c only names the "container-type" one. *)
Inductive item_type := ITEM_TYPE_UNKNOWN | ITEM_TYPE_NODE.

(** The fields of [input_item_t] that tree.c reads.  In C a node points to
    its descriptor; no function of tree.c writes through that pointer, so the
    node record holds the descriptor by value. *)
Record input_item_t := InputItem {
  psz_name : string;
  i_nb_played : Z;
  i_type : item_type
}.

(** [playlist_item_t].  The C structure stores the child array as the pair
    ([i_children], [pp_children]) where [i_children = -1] marks a leaf; here
    the pair is one field: [None] for a leaf, [Some l] for a container whose
    array holds [l]. *)
Record playlist_item_t := PlaylistItem {
  p_input : input_item_t;
  i_id : Z;
  children : option (list ptr);
  p_parent : option ptr;
  i_flags : Z
}.

Definition i_children (it : playlist_item_t) : Z :=
  match children it with
  | None => -1
  | Some l => Z.of_nat (length l)
  end.

Definition pp_children (it : playlist_item_t) : list ptr :=
  default [] (children it).

(** [playlist_t]: the heap of live nodes, the [all_items] array, the id
    counter, and the two notification channels written by tree.c
    (most recent first). *)
Record playlist_t := Playlist {
  items : gmap ptr playlist_item_t;
  all_items : list ptr;
  i_last_playlist_id : Z;
  item_deleted : list Z;
  add_notify : list (Z * Z * bool)
}.

(** Modelled from the spec: the flag masks are declared in vlc_playlist.h,
    which is not part of the sources; the spec only says that the flags are a
    bitset with a read-only bit, a skip bit and a duplicate/disabled bit.
    The statements below use the masks only through the tests
    [flags & MASK] that tree.c makes. *)
Definition PLAYLIST_SKIP_FLAG : Z := 2.

(** Modelled from the spec: the "duplicate/disabled" bit of the flags. *)
Definition PLAYLIST_DBL_FLAG : Z := 4.

(** Modelled from the spec: the "read-only" bit of the flags. *)
Definition PLAYLIST_RO_FLAG : Z := 8.

(** Modelled from the spec: the bit of the creation flags that turns the
    "rebuild" argument of the add notification off. *)
Definition PLAYLIST_NO_REBUILD : Z := 32.

Definition with_children (it : playlist_item_t) (c : option (list ptr)) :=
  {| p_input := p_input it; i_id := i_id it; children := c;
     p_parent := p_parent it; i_flags := i_flags it |}.

Definition with_parent (it : playlist_item_t) (p : option ptr) :=
  {| p_input := p_input it; i_id := i_id it; children := children it;
     p_parent := p; i_flags := i_flags it |}.

Definition with_items (pl : playlist_t) (h : gmap ptr playlist_item_t) :=
  {| items := h; all_items := all_items pl;
     i_last_playlist_id := i_last_playlist_id pl;
     item_deleted := item_deleted pl; add_notify := add_notify pl |}.

Definition with_all_items (pl : playlist_t) (a : list ptr) :=
  {| items := items pl; all_items := a;
     i_last_playlist_id := i_last_playlist_id pl;
     item_deleted := item_deleted pl; add_notify := add_notify pl |}.

(** [p->field] reads: the node must be live. *)
Definition deref (pl : playlist_t) (p : ptr) : result playlist_item_t :=
  match items pl !! p with
  | Some it => Ok it
  | None => Fault
  end.

(** [*p = it] *)
Definition store (pl : playlist_t) (p : ptr) (it : playlist_item_t) :=
  with_items pl (<[p := it]> (items pl)).

(** [a[i]] *)
Definition array_read (a : list ptr) (i : nat) : result ptr :=
  match a !! i with
  | Some x => Ok x
  | None => Fault
  end.

(** Index found by [for (i = 0; i < n; i++) if (a[i] == x) ...]. *)
Fixpoint index_of (x : ptr) (a : list ptr) : option nat :=
  match a with
  | [] => None
  | y :: r => if decide (y = x) then Some 0%nat else option_map S (index_of x r)
  end.

(** Index found by [for (i = n - 1; i >= 0; i--) if (a[i] == x) ...]. *)
Fixpoint rindex_of (x : ptr) (a : list ptr) : option nat :=
  match a with
  | [] => None
  | y :: r =>
      match rindex_of x r with
      | Some j => Some (S j)
      | None => if decide (y = x) then Some 0%nat else None
      end
  end.

(** Arithmetic on C [int]: two's complement on 32 bits. *)
Definition int_wrap (z : Z) : Z := (z + 2^31) mod 2^32 - 2^31.
Definition int_add (a b : Z) : Z := int_wrap (a + b).

(** ** Collaborators that live outside tree.c *)

(** Modelled from the spec: INSERT_ELEM and REMOVE_ELEM are array macros
    that are not part of the sources.  Insert "inserts item into parent's
    children at position" and grows the array by one; positions outside the
    array are out-of-bounds writes. *)
Definition INSERT_ELEM (a : list ptr) (i_pos : Z) (elem : ptr)
  : result (list ptr) :=
  if (0 <=? i_pos) && (i_pos <=? Z.of_nat (length a))
  then Ok (take (Z.to_nat i_pos) a ++ elem :: drop (Z.to_nat i_pos) a)
  else Fault.

(** Modelled from the spec: REMOVE_ELEM takes the element at a position out
    of the array, which shrinks by one; the elements after it move down. *)
Definition REMOVE_ELEM (a : list ptr) (i_pos : nat) : list ptr :=
  delete i_pos a.

(** Modelled from the spec: ARRAY_BSEARCH is not part of the sources.  The
    item registry is searched by id ("deregister(byId)"): the answer is the
    position of the entry whose [i_id] is the key, [None] for the answer -1.
    Reading the id of a registered node dereferences it. *)
Fixpoint ARRAY_BSEARCH (pl : playlist_t) (entries : list ptr) (key : Z)
  : result (option nat) :=
  match entries with
  | [] => Ok None
  | e :: r =>
      it ← deref pl e;
      if i_id it =? key then Ok (Some 0%nat)
      else o ← ARRAY_BSEARCH pl r key; Ok (option_map S o)
  end.

(** Modelled from the spec: ARRAY_REMOVE on [all_items] is the registry's
    "deregister" once the position is known. *)
Definition ARRAY_REMOVE (pl : playlist_t) (i : nat) : playlist_t :=
  with_all_items pl (delete i (all_items pl)).

(** Modelled from the spec: ARRAY_APPEND on [all_items] is the registry's
    "register(node)". *)
Definition ARRAY_APPEND (pl : playlist_t) (p : ptr) : playlist_t :=
  with_all_items pl (all_items pl ++ [p]).

(** Modelled from the spec: [var_SetInteger( p_playlist, "item-deleted", id )]
    is the change notifier's "notifyDeleted(nodeId)". *)
Definition var_SetInteger_item_deleted (pl : playlist_t) (id : Z) :=
  {| items := items pl; all_items := all_items pl;
     i_last_playlist_id := i_last_playlist_id pl;
     item_deleted := id :: item_deleted pl; add_notify := add_notify pl |}.

(** Modelled from the spec: playlist_SendAddNotify is the change notifier's
    "notifyAdded(nodeId, parentId|none, rebuild)". *)
Definition playlist_SendAddNotify (pl : playlist_t) (id parent : Z)
    (rebuild : bool) :=
  {| items := items pl; all_items := all_items pl;
     i_last_playlist_id := i_last_playlist_id pl;
     item_deleted := item_deleted pl;
     add_notify := (id, parent, rebuild) :: add_notify pl |}.

(** Modelled from the spec: playlist_ItemDelete releases the node ("freed"). *)
Definition playlist_ItemDelete (pl : playlist_t) (p : ptr) : playlist_t :=
  with_items pl (delete p (items pl)).

(** Modelled from the spec: input_ItemNewWithType is the descriptor
    provider's "createContainerDescriptor(name)". *)
Definition input_ItemNewWithType (name : string) (ty : item_type) :=
  {| psz_name := name; i_nb_played := 0; i_type := ty |}.

(** Modelled from the spec: playlist_ItemNewFromInput "allocates a new Node"
    with an id "unique within the owning playlist".  [alloc_ok] tells whether
    the underlying allocation succeeds; the new node sits at an address that
    holds no live node, is a leaf, has no parent and no flags. *)
Definition playlist_ItemNewFromInput (alloc_ok : bool) (pl : playlist_t)
    (input : input_item_t) : playlist_t * option ptr :=
  if alloc_ok then
    let p := fresh (dom (items pl)) in
    let id := i_last_playlist_id pl + 1 in
    ({| items := <[p := {| p_input := input; i_id := id; children := None;
                           p_parent := None; i_flags := 0 |}]> (items pl);
        all_items := all_items pl;
        i_last_playlist_id := id;
        item_deleted := item_deleted pl; add_notify := add_notify pl |},
     Some p)
  else (pl, None).

(** ** Mutation engine *)

(** The loop of playlist_NodeRemoveItem: [i] is the loop counter, [a] the
    current array, [n] bounds the number of iterations still possible. *)
Fixpoint NodeRemoveItem_loop (n : nat) (p_item : ptr) (i : nat)
    (a : list ptr) : list ptr :=
  match n with
  | O => a
  | S n =>
      if decide (i < length a)%nat then
        let a' := if decide (a !! i = Some p_item)
                  then REMOVE_ELEM a i else a in
        NodeRemoveItem_loop n p_item (S i) a'
      else a
  end.

Definition playlist_NodeRemoveItem (pl : playlist_t) (p_item p_parent : ptr)
  : result (playlist_t * vlc_ret) :=
  par ← deref pl p_parent;
  match children par with
  | None => Ok (pl, VLC_SUCCESS)
  | Some a =>
      let a' := NodeRemoveItem_loop (length a) p_item 0 a in
      Ok (store pl p_parent (with_children par (Some a')), VLC_SUCCESS)
  end.

Definition playlist_NodeInsert (pl : playlist_t) (p_item : ptr)
    (p_parent : option ptr) (i_position : Z)
  : result (playlist_t * vlc_ret) :=
  match p_parent with
  | None => Abort
  | Some parent =>
      par ← deref pl parent;
      match children par with
      | None => Abort
      | Some a =>
          let i_position :=
            if i_position =? -1 then i_children par else i_position in
          a' ← INSERT_ELEM a i_position p_item;
          let pl1 := store pl parent (with_children par (Some a')) in
          it ← deref pl1 p_item;
          Ok (store pl1 p_item (with_parent it (Some parent)), VLC_SUCCESS)
      end
  end.

Definition playlist_NodeAppend (pl : playlist_t) (p_item : ptr)
    (p_parent : option ptr) : result (playlist_t * vlc_ret) :=
  playlist_NodeInsert pl p_item p_parent (-1).

Definition playlist_NodeCreate (alloc_ok : bool) (pl : playlist_t)
    (psz_name : option string) (p_parent : option ptr) (flags : Z)
    (p_input : option input_item_t) : result (playlist_t * option ptr) :=
  let psz_name := default "Undefined"%string psz_name in
  let input :=
    match p_input with
    | Some input => input
    | None => input_ItemNewWithType psz_name ITEM_TYPE_NODE
    end in
  match playlist_ItemNewFromInput alloc_ok pl input with
  | (pl, None) => Ok (pl, None)
  | (pl, Some p_item) =>
      it ← deref pl p_item;
      let pl := store pl p_item (with_children it (Some [])) in
      let pl := ARRAY_APPEND pl p_item in
      pl ← match p_parent with
           | Some _ =>
               r ← playlist_NodeAppend pl p_item p_parent; Ok (r.1)
           | None => Ok pl
           end;
      it ← deref pl p_item;
      parent_id ← match p_parent with
                  | Some parent => par ← deref pl parent; Ok (i_id par)
                  | None => Ok (-1)
                  end;
      Ok (playlist_SendAddNotify pl (i_id it) parent_id
            (negb (bool_decide (Z.land flags PLAYLIST_NO_REBUILD ≠ 0))),
          Some p_item)
  end.

(** The block of playlist_NodeDelete that destroys one node: notification,
    deregistration, detaching from the parent, release. *)
Definition destroy_item (pl : playlist_t) (p : ptr) (it : playlist_item_t)
  : result playlist_t :=
  let pl := var_SetInteger_item_deleted pl (i_id it) in
  o ← ARRAY_BSEARCH pl (all_items pl) (i_id it);
  let pl := match o with
            | Some i => ARRAY_REMOVE pl i
            | None => pl
            end in
  pl ← match p_parent it with
       | Some parent => r ← playlist_NodeRemoveItem pl p parent; Ok (r.1)
       | None => Ok pl
       end;
  Ok (playlist_ItemDelete pl p).

(** Modelled from the spec: playlist_DeleteFromItemId is the item registry's
    "deleteItem(byId)", through which leaves are destroyed.  It is an
    idempotent no-op when the id is absent from the registry; otherwise the
    registered node with that id is destroyed: deregistered, detached from
    its parent's children and freed, with a deletion notification. *)
Definition playlist_DeleteFromItemId (pl : playlist_t) (id : Z)
  : result (playlist_t * vlc_ret) :=
  o ← ARRAY_BSEARCH pl (all_items pl) id;
  match o with
  | None => Ok (pl, VLC_EGENERIC)
  | Some i =>
      p ← array_read (all_items pl) i;
      it ← deref pl p;
      pl ← destroy_item pl p it;
      Ok (pl, VLC_SUCCESS)
  end.

(** The "Delete the children" loop shared by playlist_NodeEmpty and
    playlist_NodeDelete: [k] is [i + 1] for the loop counter [i], [node_delete]
    is the recursive call with the caller's flags.  The array is read again
    from the heap at each iteration, as in C. *)
Fixpoint delete_children
    (node_delete : playlist_t → ptr → result (playlist_t * vlc_ret))
    (b_delete_items : bool) (p_root : ptr) (k : nat) (pl : playlist_t)
  : result playlist_t :=
  match k with
  | O => Ok pl
  | S i =>
      root ← deref pl p_root;
      c ← array_read (pp_children root) i;
      child ← deref pl c;
      pl ← (if -1 <? i_children child then
              r ← node_delete pl c; Ok (r.1)
            else if b_delete_items then
              r ← playlist_DeleteFromItemId pl (i_id child); Ok (r.1)
            else Ok pl);
      delete_children node_delete b_delete_items p_root i pl
  end.

Fixpoint playlist_NodeDelete (fuel : nat) (pl : playlist_t) (p_root : ptr)
    (b_delete_items b_force : bool) : result (playlist_t * vlc_ret) :=
  match fuel with
  | O => OutOfFuel
  | S fuel =>
      root ← deref pl p_root;
      if i_children root =? -1 then Ok (pl, VLC_EGENERIC)
      else
        pl ← delete_children
               (fun pl c =>
                  playlist_NodeDelete fuel pl c b_delete_items b_force)
               b_delete_items p_root (Z.to_nat (i_children root)) pl;
        root ← deref pl p_root;
        if bool_decide (Z.land (i_flags root) PLAYLIST_RO_FLAG ≠ 0)
           && negb b_force
        then Ok (pl, VLC_SUCCESS)
        else
          pl ← destroy_item pl p_root root;
          Ok (pl, VLC_SUCCESS)
  end.

Definition playlist_NodeEmpty (fuel : nat) (pl : playlist_t) (p_root : ptr)
    (b_delete_items : bool) : result (playlist_t * vlc_ret) :=
  root ← deref pl p_root;
  if i_children root =? -1 then Ok (pl, VLC_EGENERIC)
  else
    pl ← delete_children
           (fun pl c => playlist_NodeDelete fuel pl c b_delete_items false)
           b_delete_items p_root (Z.to_nat (i_children root)) pl;
    Ok (pl, VLC_SUCCESS).

(** ** Query engine *)

(** The loop of playlist_NodeChildrenCount over the child array; [count] is
    the recursive call. *)
Fixpoint NodeChildrenCount_loop (count : ptr → result Z) (pl : playlist_t)
    (a : list ptr) (i_nb : Z) : result Z :=
  match a with
  | [] => Ok i_nb
  | c :: a =>
      child ← deref pl c;
      if i_children child =? -1 then Ok i_nb
      else
        n ← count c;
        NodeChildrenCount_loop count pl a (int_add i_nb n)
  end.

Fixpoint playlist_NodeChildrenCount (fuel : nat) (pl : playlist_t)
    (p_node : ptr) : result Z :=
  match fuel with
  | O => OutOfFuel
  | S fuel =>
      node ← deref pl p_node;
      if i_children node =? -1 then Ok 0
      else
        NodeChildrenCount_loop (playlist_NodeChildrenCount fuel pl) pl
          (pp_children node) (i_children node)
  end.

(** ** Traversal engine *)

(** The [while] loop of GetNextUncle.  [b_found] is never reset in C, so it
    is part of the loop state; when the inner [for] loop finds nothing, [i]
    is left at the number of iterations it made. *)
Fixpoint GetNextUncle_loop (fuel : nat) (pl : playlist_t) (p_root : ptr)
    (parent : ptr) (grandparent : option ptr) (b_found : bool)
  : result (option ptr) :=
  match fuel with
  | O => OutOfFuel
  | S fuel =>
      match grandparent with
      | None => Ok None
      | Some gp =>
          g ← deref pl gp;
          let '(i, b_found) :=
            match index_of parent (pp_children g) with
            | Some j => (Z.of_nat j, true)
            | None => (Z.of_nat (length (pp_children g)), b_found)
            end in
          if b_found && (i + 1 <? i_children g) then
            Some <$> array_read (pp_children g) (Z.to_nat (i + 1))
          else if decide (gp = p_root) then Ok None
          else GetNextUncle_loop fuel pl p_root gp (p_parent g) b_found
      end
  end.

Definition GetNextUncle (fuel : nat) (pl : playlist_t) (p_item : ptr)
    (p_root : ptr) : result (option ptr) :=
  it ← deref pl p_item;
  match p_parent it with
  | Some parent =>
      par ← deref pl parent;
      GetNextUncle_loop fuel pl p_root parent (p_parent par) false
  | None => Ok None
  end.

(** The [while( 1 )] loop of GetPrevUncle: a NULL grandparent is
    dereferenced.  When the downward [for] loop finds nothing, [i] ends at -1
    (at -2 when the grandparent is a leaf). *)
Fixpoint GetPrevUncle_loop (fuel : nat) (pl : playlist_t) (p_root : ptr)
    (parent : ptr) (grandparent : option ptr) (b_found : bool)
  : result (option ptr) :=
  match fuel with
  | O => OutOfFuel
  | S fuel =>
      match grandparent with
      | None => Fault
      | Some gp =>
          g ← deref pl gp;
          let '(i, b_found) :=
            match rindex_of parent (pp_children g) with
            | Some j => (Z.of_nat j, true)
            | None => (Z.min (i_children g - 1) (-1), b_found)
            end in
          if b_found && (0 <? i - 1) then
            Some <$> array_read (pp_children g) (Z.to_nat (i - 1))
          else if decide (gp = p_root) then Ok None
          else GetPrevUncle_loop fuel pl p_root gp (p_parent g) b_found
      end
  end.

Definition GetPrevUncle (fuel : nat) (pl : playlist_t) (p_item : ptr)
    (p_root : ptr) : result (option ptr) :=
  it ← deref pl p_item;
  match p_parent it with
  | Some parent =>
      par ← deref pl parent;
      GetPrevUncle_loop fuel pl p_root parent (p_parent par) false
  | None => Ok None
  end.

Definition GetNextItem (fuel : nat) (pl : playlist_t) (p_root : ptr)
    (p_item : option ptr) : result (option ptr) :=
  match p_item with
  | Some item =>
      it ← deref pl item;
      if 0 <? i_children it then Some <$> array_read (pp_children it) 0
      else
        match p_parent it with
        | None => Fault
        | Some parent =>
            par ← deref pl parent;
            match index_of item (pp_children par) with
            | Some i =>
                if Z.of_nat i + 1 >=? i_children par then
                  if decide (parent = p_root) then Ok None
                  else GetNextUncle fuel pl item p_root
                else Some <$> array_read (pp_children par) (i + 1)
            | None => Ok None
            end
        end
  | None =>
      (* p_parent = p_root; the first iteration, if any, sets i = -1 *)
      root ← deref pl p_root;
      if 0 <? i_children root then
        if -1 + 1 >=? i_children root then Ok None
        else Some <$> array_read (pp_children root) 0
      else Ok None
  end.

Definition GetPrevItem (fuel : nat) (pl : playlist_t) (p_root : ptr)
    (p_item : option ptr) : result (option ptr) :=
  match p_item with
  | Some item =>
      it ← deref pl item;
      if 0 <? i_children it then
        Some <$> array_read (pp_children it) (Z.to_nat (i_children it - 1))
      else
        match p_parent it with
        | None => Fault
        | Some parent =>
            par ← deref pl parent;
            match rindex_of item (pp_children par) with
            | Some i =>
                if Z.of_nat i - 1 <? 0 then
                  if decide (parent = p_root) then Ok None
                  else GetPrevUncle fuel pl item p_root
                else Some <$> array_read (pp_children par) (i - 1)
            | None => Ok None
            end
        end
  | None => Abort   (* msg_Err( "Get the last one" ); abort(); *)
  end.

(** Is the leaf [it] acceptable under the two filters? *)
Definition leaf_ok (it : playlist_item_t) (b_ena b_unplayed : bool) : bool :=
  let b_ena_ok :=
    if b_ena && bool_decide (Z.land (i_flags it) PLAYLIST_DBL_FLAG ≠ 0)
    then false else true in
  let b_unplayed_ok :=
    if b_unplayed && bool_decide (i_nb_played (p_input it) ≠ 0)
    then false else true in
  b_ena_ok && b_unplayed_ok.

(** The [while( 1 )] loop of playlist_GetNextLeaf. *)
Fixpoint GetNextLeaf_loop (fuel : nat) (pl : playlist_t) (p_root : ptr)
    (p_next : option ptr) (b_ena b_unplayed : bool) : result (option ptr) :=
  match fuel with
  | O => OutOfFuel
  | S fuel' =>
      p_next ← GetNextItem fuel pl p_root p_next;
      match p_next with
      | None => Ok None
      | Some next =>
          if decide (next = p_root) then Ok p_next
          else
            it ← deref pl next;
            if (i_children it =? -1) && leaf_ok it b_ena b_unplayed
            then Ok p_next
            else GetNextLeaf_loop fuel' pl p_root p_next b_ena b_unplayed
      end
  end.

Definition playlist_GetNextLeaf (fuel : nat) (pl : playlist_t)
    (p_root : ptr) (p_item : option ptr) (b_ena b_unplayed : bool)
  : result (option ptr) :=
  root ← deref pl p_root;
  if i_children root =? -1 then Abort
  else GetNextLeaf_loop fuel pl p_root p_item b_ena b_unplayed.

(** The [while( 1 )] loop of playlist_GetPrevLeaf. *)
Fixpoint GetPrevLeaf_loop (fuel : nat) (pl : playlist_t) (p_root : ptr)
    (p_prev : option ptr) (b_ena b_unplayed : bool) : result (option ptr) :=
  match fuel with
  | O => OutOfFuel
  | S fuel' =>
      p_prev ← GetPrevItem fuel pl p_root p_prev;
      match p_prev with
      | None => Ok None
      | Some prev =>
          if decide (prev = p_root) then Ok p_prev
          else
            it ← deref pl prev;
            if (i_children it =? -1) && leaf_ok it b_ena b_unplayed
            then Ok p_prev
            else GetPrevLeaf_loop fuel' pl p_root p_prev b_ena b_unplayed
      end
  end.

Definition playlist_GetPrevLeaf (fuel : nat) (pl : playlist_t)
    (p_root : ptr) (p_item : option ptr) (b_ena b_unplayed : bool)
  : result (option ptr) :=
  root ← deref pl p_root;
  if i_children root =? -1 then Abort
  else GetPrevLeaf_loop fuel pl p_root p_item b_ena b_unplayed.

(** ** Further functions of tree.c *)

(** The loop of playlist_ChildSearchName over the child array; [strcmp]
    returning 0 is equality of the two names. *)
Fixpoint ChildSearchName_loop (pl : playlist_t) (a : list ptr)
    (psz_search : string) : result (option ptr) :=
  match a with
  | [] => Ok None
  | c :: a =>
      child ← deref pl c;
      if decide (psz_name (p_input child) = psz_search) then Ok (Some c)
      else ChildSearchName_loop pl a psz_search
  end.

Definition playlist_ChildSearchName (pl : playlist_t) (p_node : ptr)
    (psz_search : string) : result (option ptr) :=
  node ← deref pl p_node;
  if i_children node <? 0 then Ok None
  else ChildSearchName_loop pl (pp_children node) psz_search.

(** The two tree roots, fields of [playlist_t] in C.  No mutation of tree.c
    writes them, so they travel beside the playlist record. *)
Record playlist_roots := PlaylistRoots {
  p_root_category : option ptr;
  p_root_onelevel : option ptr
}.

Definition with_flags (it : playlist_item_t) (f : Z) :=
  {| p_input := p_input it; i_id := i_id it; children := children it;
     p_parent := p_parent it; i_flags := f |}.

(** [p->i_flags |= mask] *)
Definition or_flags (pl : playlist_t) (p : option ptr) (mask : Z)
  : result playlist_t :=
  match p with
  | None => Fault
  | Some p =>
      it ← deref pl p;
      Ok (store pl p (with_flags it (Z.lor (i_flags it) mask)))
  end.

(** Descriptors by address.  A node record keeps its descriptor by value
    ([p_input]), which is all the walks and the deletions read.  Where the
    code hands a descriptor on as a pointer, the identity of the descriptor
    matters: this table, beside the playlist, tells which descriptors are
    allocated ([inputs], by address) and which address each node holds in its
    [p_input] field ([held]). *)
Record input_table := InputTable {
  inputs : gmap nat input_item_t;
  held : gmap ptr nat
}.

(** playlist_NodeCreate with its last argument as the pointer it is in C:
    [None] is NULL, and then input_ItemNewWithType allocates the descriptor,
    at an address that holds none; otherwise the descriptor at the given
    address is used, and no descriptor is allocated.  The node created holds
    that address in [p_input]. *)
Definition playlist_NodeCreate_at (alloc_ok : bool) (tbl : input_table)
    (pl : playlist_t) (psz_name : option string) (p_parent : option ptr)
    (flags : Z) (p_input : option nat)
  : result (input_table * playlist_t * option ptr) :=
  let name := default "Undefined"%string psz_name in
  let tbl_a :=
    match p_input with
    | Some a => (tbl, a)
    | None =>
        let a := fresh (dom (inputs tbl)) in
        ({| inputs := <[a := input_ItemNewWithType name ITEM_TYPE_NODE]>
                        (inputs tbl);
            held := held tbl |}, a)
    end in
  let tbl := tbl_a.1 in
  let a := tbl_a.2 in
  input ← match inputs tbl !! a with
          | Some input => Ok input
          | None => Fault
          end;
  r ← playlist_NodeCreate alloc_ok pl psz_name p_parent flags (Some input);
  match r.2 with
  | Some p_item =>
      Ok ({| inputs := inputs tbl; held := <[p_item := a]> (held tbl) |},
          r.1, Some p_item)
  | None => Ok (tbl, r.1, None)
  end.

(** [alloc_cat] and [alloc_one] tell whether the allocation of each of the
    two nodes succeeds.  The results are the two out-parameters.  The second
    node is created from the [p_input] pointer read in the first node. *)
Definition playlist_NodesPairCreate (alloc_cat alloc_one : bool)
    (roots : playlist_roots) (tbl : input_table) (pl : playlist_t)
    (psz_name : option string) (b_for_sd : bool)
  : result (input_table * playlist_t * option ptr * option ptr) :=
  r ← playlist_NodeCreate_at alloc_cat tbl pl psz_name
        (p_root_category roots) 0 None;
  let tbl := r.1.1 in
  let pl := r.1.2 in
  let p_node_cat := r.2 in
  a ← match p_node_cat with
      | Some c =>
          _ ← deref pl c;
          match held tbl !! c with
          | Some a => Ok a
          | None => Fault
          end
      | None => Fault
      end;
  r ← playlist_NodeCreate_at alloc_one tbl pl psz_name
        (p_root_onelevel roots) 0 (Some a);
  let tbl := r.1.1 in
  let pl := r.1.2 in
  let p_node_one := r.2 in
  if b_for_sd then
    pl ← or_flags pl p_node_cat PLAYLIST_RO_FLAG;
    pl ← or_flags pl p_node_cat PLAYLIST_SKIP_FLAG;
    pl ← or_flags pl p_node_one PLAYLIST_RO_FLAG;
    pl ← or_flags pl p_node_one PLAYLIST_SKIP_FLAG;
    Ok (tbl, pl, p_node_cat, p_node_one)
  else Ok (tbl, pl, p_node_cat, p_node_one).

(** The loop of playlist_GetLastLeaf: [k] is [i + 1] for the loop counter
    [i], [a] the child array of the root, [last_leaf] the recursive call. *)
Fixpoint GetLastLeaf_loop (last_leaf : ptr → result (option ptr))
    (pl : playlist_t) (a : list ptr) (k : nat) : result (option ptr) :=
  match k with
  | O => Ok None
  | S i =>
      c ← array_read a i;
      child ← deref pl c;
      if i_children child =? -1 then Ok (Some c)
      else if 0 <? i_children child then
        p_item ← last_leaf c;
        match p_item with
        | Some _ => Ok p_item
        | None => GetLastLeaf_loop last_leaf pl a i
        end
      else if decide (i = 0%nat) then Ok None
      else GetLastLeaf_loop last_leaf pl a i
  end.

Fixpoint playlist_GetLastLeaf (fuel : nat) (pl : playlist_t) (p_root : ptr)
  : result (option ptr) :=
  match fuel with
  | O => OutOfFuel
  | S fuel =>
      root ← deref pl p_root;
      GetLastLeaf_loop (playlist_GetLastLeaf fuel pl) pl (pp_children root)
        (Z.to_nat (i_children root))
  end.

(** The [while( 1 )] loop of playlist_GetAllEnabledChildren: [items] is the
    array built so far and [i_count] its C length. *)
Fixpoint GetAllEnabledChildren_loop (fuel : nat) (pl : playlist_t)
    (p_node : ptr) (p_next : option ptr) (items : list ptr) (i_count : Z)
  : result (list ptr * Z) :=
  match fuel with
  | O => OutOfFuel
  | S fuel' =>
      p_next ← playlist_GetNextLeaf fuel pl p_node p_next true false;
      match p_next with
      | Some next =>
          items ← INSERT_ELEM items i_count next;
          GetAllEnabledChildren_loop fuel' pl p_node p_next items
            (int_add i_count 1)
      | None => Ok (items, i_count)
      end
  end.

(** The array handed back through [ppp_items] and the returned count; the
    macro starts from the count 0, whatever the caller's array held. *)
Definition playlist_GetAllEnabledChildren (fuel : nat) (pl : playlist_t)
    (p_node : ptr) : result (list ptr * Z) :=
  GetAllEnabledChildren_loop fuel pl p_node None [] 0.

(** ** Specification-side notions *)

(** *** Child arrays *)

(** Number of occurrences of [x] in a child array. *)
Definition occurrences (x : ptr) (a : list ptr) : nat :=
  length (filter (λ y, y = x) a).

(** "Removes the first occurrence of item from the children sequence." *)
Fixpoint remove_first (x : ptr) (a : list ptr) : list ptr :=
  match a with
  | [] => []
  | y :: r => if decide (y = x) then r else y :: remove_first x r
  end.

(** *** Counting *)

(** The shape of the tree below a node, as an inductive value read off the
    heap down to a given depth. *)
#[warnings="-register-all"]
Inductive tree := Leaf | Container (kids : list tree).

Fixpoint reify (depth : nat) (pl : playlist_t) (p : ptr) : option tree :=
  match depth with
  | O => None
  | S depth =>
      it ← items pl !! p;
      match children it with
      | None => Some Leaf
      | Some a => Container <$> mapM (reify depth pl) a
      end
  end.

(** The documented count: the number of immediate children plus the count of
    each immediate container child, the scan over the children stopping at
    the first leaf. *)
Fixpoint spec_count (t : tree) : Z :=
  match t with
  | Leaf => 0
  | Container kids =>
      Z.of_nat (length kids) +
      (fix scan (ks : list tree) : Z :=
         match ks with
         | [] => 0
         | Leaf :: _ => 0
         | (Container _ as k) :: ks => spec_count k + scan ks
         end) kids
  end.

Definition spec_scan : list tree → Z :=
  fix scan (ks : list tree) : Z :=
    match ks with
    | [] => 0
    | Leaf :: _ => 0
    | (Container _ as k) :: ks => spec_count k + scan ks
    end.

(** *** Pre-order traversal *)

(** The first child of a node (none for a leaf or an empty container). *)
Definition first_child (pl : playlist_t) (x : ptr) : option ptr :=
  it ← items pl !! x; pp_children it !! 0%nat.

(** The sibling that follows [x] among the children of its parent. *)
Definition next_sibling (pl : playlist_t) (x : ptr) : option ptr :=
  it ← items pl !! x;
  parent ← p_parent it;
  par ← items pl !! parent;
  i ← index_of x (pp_children par);
  pp_children par !! S i.

(** [x] followed by its ancestors strictly below [root], nearest first
    (at most [n] nodes). *)
Fixpoint ancestors_below (n : nat) (pl : playlist_t) (root x : ptr)
  : list ptr :=
  match n with
  | O => []
  | S n =>
      x :: match items pl !! x ≫= p_parent with
           | Some parent =>
               if decide (parent = root) then []
               else ancestors_below n pl root parent
           | None => []
           end
  end.

(** Pre-order successor as the spec words it: the first child of a non-empty
    container, else the next sibling, else the next sibling of the nearest
    ancestor strictly below [root] that has one, else none. *)
Definition spec_NextItem (n : nat) (pl : playlist_t) (root cur : ptr)
  : option ptr :=
  match first_child pl cur with
  | Some c => Some c
  | None => head (omap (next_sibling pl) (ancestors_below n pl root cur))
  end.

(** [below pl root d x]: [x] lies [d] levels below [root] and every link on
    the way up is recorded on both sides (the node names its parent, the
    parent lists the node). *)
Inductive below (pl : playlist_t) (root : ptr) : nat → ptr → Prop :=
  | below_child x it par :
      items pl !! x = Some it → p_parent it = Some root →
      items pl !! root = Some par → x ∈ pp_children par →
      below pl root 1 x
  | below_deeper d x it parent par :
      items pl !! x = Some it → p_parent it = Some parent → parent ≠ root →
      items pl !! parent = Some par → x ∈ pp_children par →
      below pl root d parent →
      below pl root (S d) x.

(** *** Consistency of the tree and of the registry *)

(** [lists pl c x]: the live node [c] has [x] in its child array. *)
Definition lists (pl : playlist_t) (c x : ptr) : Prop :=
  ∃ it, items pl !! c = Some it ∧ x ∈ pp_children it.

(** The nodes of the subtree rooted at [root], [root] included. *)
Definition subtree (pl : playlist_t) (root x : ptr) : Prop :=
  rtc (lists pl) root x.

(** Downward half of the parent/children consistency: every node listed by
    a live container is live, names that container as its parent, and is
    listed there once. *)
Definition children_consistent (pl : playlist_t) : Prop :=
  ∀ c it, items pl !! c = Some it →
    NoDup (pp_children it) ∧
    ∀ x, x ∈ pp_children it →
      ∃ itx, items pl !! x = Some itx ∧ p_parent itx = Some c.

(** Upward half: the parent named by a live node lists that node. *)
Definition parent_consistent (pl : playlist_t) : Prop :=
  ∀ x it c, items pl !! x = Some it → p_parent it = Some c → lists pl c x.

(** A playlist whose nodes form a forest ([rank] decreases from a container
    to its children) and whose registry holds exactly the live nodes, under
    distinct ids. *)
Record well_formed (rank : ptr → nat) (pl : playlist_t) : Prop := {
  wf_children : children_consistent pl;
  wf_rank : ∀ c x, lists pl c x → (rank x < rank c)%nat;
  wf_registered : ∀ x, x ∈ all_items pl ↔ is_Some (items pl !! x);
  wf_nodup : NoDup (all_items pl);
  wf_ids : ∀ x y itx ity,
    items pl !! x = Some itx → items pl !! y = Some ity →
    i_id itx = i_id ity → x = y
}.

(** *** Effects of destroying nodes *)

(** [it'] is [it] except that its child array may have lost elements. *)
Definition shrunk (it it' : playlist_item_t) : Prop :=
  p_input it' = p_input it ∧ i_id it' = i_id it ∧
  p_parent it' = p_parent it ∧ i_flags it' = i_flags it ∧
  sublist (pp_children it') (pp_children it).

(** [pl'] comes from [pl] by destroying nodes: survivors are shrunk,
    registry entries only disappear, each new deletion notification carries
    the id of a node that was destroyed, and a surviving container has lost
    only children that were destroyed. *)
Definition shrinks (pl pl' : playlist_t) : Prop :=
  (∀ x it', items pl' !! x = Some it' →
     ∃ it, items pl !! x = Some it ∧ shrunk it it') ∧
  sublist (all_items pl') (all_items pl) ∧
  (∃ new, item_deleted pl' = new ++ item_deleted pl ∧
     ∀ id, id ∈ new →
       ∃ x it, items pl !! x = Some it ∧ i_id it = id ∧
               items pl' !! x = None) ∧
  (∀ y ity ity' x, items pl !! y = Some ity → items pl' !! y = Some ity' →
     x ∈ pp_children ity → is_Some (items pl' !! x) → x ∈ pp_children ity').

(** [pl'] comes from [pl] by destroying whole subtrees: the container that
    listed a survivor survives too. *)
Definition clears (pl pl' : playlist_t) : Prop :=
  ∀ x y, is_Some (items pl' !! x) → lists pl y x → is_Some (items pl' !! y).

(** The parent record once [p] has been taken out of its child array. *)
Definition detach (p : ptr) (it : playlist_item_t) : playlist_item_t :=
  with_children it (option_map (remove_first p) (children it)).

(** The ids held by the item registry. *)
Definition registry_ids (pl : playlist_t) : list Z :=
  omap (λ e, i_id <$> items pl !! e) (all_items pl).

Definition is_readonly (it : playlist_item_t) : bool :=
  bool_decide (Z.land (i_flags it) PLAYLIST_RO_FLAG ≠ 0).

(** The playlist left by destroying node [p] (record [it]) when the registry
    search answered [o] and the heap after detaching is [h]. *)
Definition destroyed (pl : playlist_t) (p : ptr) (it : playlist_item_t)
    (o : option nat) (h : gmap ptr playlist_item_t) : playlist_t :=
  {| items := delete p h;
     all_items := match o with
                  | Some i => delete i (all_items pl)
                  | None => all_items pl
                  end;
     i_last_playlist_id := i_last_playlist_id pl;
     item_deleted := i_id it :: item_deleted pl;
     add_notify := add_notify pl |}.

(** What a call that processes the subtree of [c] (record [itc]) leaves
    behind: a well-formed playlist obtained by destroying nodes, in which
    every node ranked above [c] other than the parent of [c] is untouched,
    the parent has lost [c] exactly when [c] was destroyed, and, for a forced
    deletion with items, whole subtrees were destroyed, [c] included. *)
Definition delete_post (rank : ptr → nat) (di force : bool)
    (pl : playlist_t) (c : ptr) (itc : playlist_item_t) (pl' : playlist_t)
  : Prop :=
  well_formed rank pl' ∧ shrinks pl pl' ∧
  (∀ x, (rank c < rank x)%nat → p_parent itc ≠ Some x →
        items pl' !! x = items pl !! x) ∧
  (∀ parent par, p_parent itc = Some parent → items pl !! parent = Some par →
     (items pl' !! c = None ∧ items pl' !! parent = Some (detach c par)) ∨
     (is_Some (items pl' !! c) ∧ items pl' !! parent = Some par)) ∧
  (force = true → di = true → clears pl pl' ∧ items pl' !! c = None).

(** [pl'] holds no node that [pl] did not hold, and a surviving node is a
    leaf after exactly when it was one before. *)
Definition kind_kept (pl pl' : playlist_t) : Prop :=
  ∀ x it', items pl' !! x = Some it' →
    ∃ it, items pl !! x = Some it ∧ (children it' = None ↔ children it = None).

(** Which children the "Delete the children" loop leaves in place: a leaf
    when items are not deleted, a container when it is read-only and the
    deletion is not forced. *)
Definition spared (di force : bool) (it : playlist_item_t) : Prop :=
  match children it with
  | None => di = false
  | Some _ => is_readonly it = true ∧ force = false
  end.

(** [descent di force pl c pl']: of the subtree of [c] in [pl], only spared
    nodes are still live in [pl']: every container that is not read-only (or
    every container, when forced) and, when items are deleted, every leaf
    has been destroyed. *)
Definition descent (di force : bool) (pl : playlist_t) (c : ptr)
    (pl' : playlist_t) : Prop :=
  ∀ x itx, subtree pl c x → items pl !! x = Some itx →
    is_Some (items pl' !! x) → spared di force itx.

(** [outside_kept pl c itc pl']: the nodes outside the subtree of [c], the
    parent of [c] apart, are the same in [pl'] as in [pl]. *)
Definition outside_kept (pl : playlist_t) (c : ptr) (itc : playlist_item_t)
    (pl' : playlist_t) : Prop :=
  ∀ x, ¬ subtree pl c x → p_parent itc ≠ Some x →
    items pl' !! x = items pl !! x.

(** *** Document order *)

(** A tree of node addresses: a leaf has no child list. *)
#[warnings="-register-all"]
Inductive ptree := PNode (p : ptr) (kids : option (list ptree)).

Definition root_of (t : ptree) : ptr :=
  match t with PNode p _ => p end.

(** The nodes of a tree in document (pre-order) order. *)
Fixpoint preorder (t : ptree) : list ptr :=
  match t with
  | PNode p kids =>
      p :: match kids with
           | None => []
           | Some ks =>
               (fix go (ks : list ptree) : list ptr :=
                  match ks with
                  | [] => []
                  | k :: ks => preorder k ++ go ks
                  end) ks
           end
  end.

Definition preorder_list : list ptree → list ptr :=
  fix go (ks : list ptree) : list ptr :=
    match ks with
    | [] => []
    | k :: ks => preorder k ++ go ks
    end.

(** The leaves of a tree in document order. *)
Fixpoint tleaves (t : ptree) : list ptr :=
  match t with
  | PNode p None => [p]
  | PNode p (Some ks) =>
      (fix go (ks : list ptree) : list ptr :=
         match ks with
         | [] => []
         | k :: ks => tleaves k ++ go ks
         end) ks
  end.

Definition tleaves_list : list ptree → list ptr :=
  fix go (ks : list ptree) : list ptr :=
    match ks with
    | [] => []
    | k :: ks => tleaves k ++ go ks
    end.

(** Number of levels of a tree. *)
Fixpoint height (t : ptree) : nat :=
  match t with
  | PNode _ None => 1
  | PNode _ (Some ks) =>
      S ((fix go (ks : list ptree) : nat :=
            match ks with
            | [] => 0
            | k :: ks => Nat.max (height k) (go ks)
            end) ks)
  end%nat.

Definition height_list : list ptree → nat :=
  fix go (ks : list ptree) : nat :=
    match ks with
    | [] => 0
    | k :: ks => Nat.max (height k) (go ks)
    end%nat.

(** [hangs pl parent t]: the heap holds the tree [t] below a node whose
    parent reference is [parent]: every node of [t] is live, its child array
    lists the roots of its subtrees in order (a leaf of [t] is a leaf of the
    heap), and every child names its container as parent. *)
Fixpoint hangs (pl : playlist_t) (parent : option ptr) (t : ptree) : bool :=
  match t with
  | PNode p kids =>
      match items pl !! p with
      | None => false
      | Some it =>
          bool_decide (p_parent it = parent) &&
          match kids with
          | None => bool_decide (children it = None)
          | Some ks =>
              bool_decide (children it = Some (map root_of ks)) &&
              forallb (hangs pl (Some p)) ks
          end
      end
  end.

(** What follows the first occurrence of [x] in a list. *)
Fixpoint after (l : list ptr) (x : ptr) : list ptr :=
  match l with
  | [] => []
  | y :: l => if decide (y = x) then l else after l x
  end.

(** The nodes that follow the cursor of a walk below the root of [t]: with
    no cursor, every node below the root. *)
Definition ahead (t : ptree) (cursor : option ptr) : list ptr :=
  match cursor with
  | Some x => after (preorder t) x
  | None => tail (preorder t)
  end.

(** A live leaf that passes the two filters of the leaf walk. *)
Definition accepted (pl : playlist_t) (b_ena b_unplayed : bool) (p : ptr)
  : bool :=
  match items pl !! p with
  | Some it => (i_children it =? -1) && leaf_ok it b_ena b_unplayed
  | None => false
  end.

(** Children lists in which no container follows a leaf, at every level. *)
Definition is_leaf (t : ptree) : bool :=
  match t with PNode _ None => true | PNode _ (Some _) => false end.

Fixpoint leaves_last (ks : list ptree) : bool :=
  match ks with
  | [] => true
  | k :: ks => if is_leaf k then forallb is_leaf ks else leaves_last ks
  end.

Fixpoint containers_first (t : ptree) : bool :=
  match t with
  | PNode _ None => true
  | PNode _ (Some ks) => leaves_last ks && forallb containers_first ks
  end.

(** *** Flat playlists *)

(** [flat pl r a]: the container [r] holds the distinct leaves [a] and
    nothing else, each naming [r] as its parent. *)
Definition flat (pl : playlist_t) (r : ptr) (a : list ptr) : Prop :=
  NoDup a ∧
  (∃ itr, items pl !! r = Some itr ∧ children itr = Some a) ∧
  ∀ c, c ∈ a →
    ∃ itc, items pl !! c = Some itc ∧ children itc = None ∧
           p_parent itc = Some r.

(** The leaves of [a] strictly between the indices [i] and [j] are all
    refused by the filters. *)
Definition refused_between (pl : playlist_t) (b_ena b_unplayed : bool)
    (a : list ptr) (i j : nat) : Prop :=
  ∀ k z, (i < k < j)%nat → a !! k = Some z →
         accepted pl b_ena b_unplayed z = false.

(** ** Concrete playlists used in examples *)

Definition an_input : input_item_t :=
  {| psz_name := "x"; i_nb_played := 0; i_type := ITEM_TYPE_UNKNOWN |}.

Definition mk_node (id : Z) (c : option (list ptr)) (parent : option ptr)
    (flags : Z) : playlist_item_t :=
  {| p_input := an_input; i_id := id; children := c; p_parent := parent;
     i_flags := flags |}.

Definition mk_playlist (nodes : list (ptr * playlist_item_t)) : playlist_t :=
  {| items := list_to_map nodes; all_items := nodes.*1;
     i_last_playlist_id := Z.of_nat (length nodes);
     item_deleted := []; add_notify := [] |}.

(** root(0) with children [A(1) = container [A1(2), A2(3)], B(4) = leaf];
    [flags] are the flags of root *)
Definition pl_tree (flags : Z) : playlist_t :=
  mk_playlist [ (0, mk_node 1 (Some [1; 4]) None flags);
                (1, mk_node 2 (Some [2; 3]) (Some 0) 0);
                (2, mk_node 3 None (Some 1) 0);
                (3, mk_node 4 None (Some 1) 0);
                (4, mk_node 5 None (Some 0) 0) ]%nat.

Definition pl_example : playlist_t := pl_tree 0.

Definition rank_tree (p : ptr) : nat :=
  match p with
  | 0 => 2
  | 1 => 1
  | _ => 0
  end%nat.

(** root(0) with children [X(1) = leaf, C(2) = container [Y(3) = leaf]] *)
Definition pl_deeper : playlist_t :=
  mk_playlist [ (0, mk_node 1 (Some [1; 2]) None 0);
                (1, mk_node 2 None (Some 0) 0);
                (2, mk_node 3 (Some [3]) (Some 0) 0);
                (3, mk_node 4 None (Some 2) 0) ]%nat.

(** parent(0) = container [n(1)] with the given flags, n(1) = empty
    container *)
Definition pl_pair (flags : Z) : playlist_t :=
  mk_playlist [ (0, mk_node 1 (Some [1]) None flags);
                (1, mk_node 2 (Some []) (Some 0) 0) ]%nat.

Definition pl_single : playlist_t := pl_pair 0.

Definition pl_readonly : playlist_t := pl_pair PLAYLIST_RO_FLAG.

(** parent(0) = container [a(1), b(2), a(1)] *)
Definition pl_twice : playlist_t :=
  mk_playlist [ (0, mk_node 1 (Some [1; 2; 1]) None 0);
                (1, mk_node 2 None (Some 0) 0);
                (2, mk_node 3 None (Some 0) 0) ]%nat.

(** node(0) = container [leaf(1), container(2) [leaf(3), leaf(4)]] *)
Definition pl_quirk : playlist_t :=
  mk_playlist [ (0, mk_node 1 (Some [1; 2]) None 0);
                (1, mk_node 2 None (Some 0) 0);
                (2, mk_node 3 (Some [3; 4]) (Some 0) 0);
                (3, mk_node 4 None (Some 2) 0);
                (4, mk_node 5 None (Some 2) 0) ]%nat.

(** root(0) = container [1, 2, 3] of leaves, the middle one disabled *)
Definition pl_flat : playlist_t :=
  mk_playlist [ (0, mk_node 1 (Some [1; 2; 3]) None 0);
                (1, mk_node 2 None (Some 0) 0);
                (2, mk_node 3 None (Some 0) PLAYLIST_DBL_FLAG);
                (3, mk_node 4 None (Some 0) 0) ]%nat.

(** top(0) = [P(1)], P = [R(2)], R = read-only container [C(3), leaf 5],
    C = [leaf 4] *)
Definition pl_ro_inner : playlist_t :=
  mk_playlist [ (0, mk_node 1 (Some [1]) None 0);
                (1, mk_node 2 (Some [2]) (Some 0) 0);
                (2, mk_node 3 (Some [3; 5]) (Some 1) PLAYLIST_RO_FLAG);
                (3, mk_node 4 (Some [4]) (Some 2) 0);
                (4, mk_node 5 None (Some 3) 0);
                (5, mk_node 6 None (Some 2) 0) ]%nat.

Definition rank_ro_inner (p : ptr) : nat :=
  match p with
  | 0 => 4
  | 1 => 3
  | 2 => 2
  | 3 => 1
  | _ => 0
  end%nat.

(** * Theorems *)

(** ** Basic facts about the outcome monad and the heap *)

Lemma bind_Ok {A B} (m : result A) (f : A → result B) (b : B) :
  m ≫= f = Ok b → ∃ a, m = Ok a ∧ f a = Ok b.
Proof. destruct m; simpl; intros; try discriminate; eauto. Qed.

Lemma bind_ret {A B} (a : A) (f : A → result B) : Ok a ≫= f = f a.
Proof. reflexivity. Qed.

Lemma fmap_Ok {A B} (m : result A) (f : A → B) (b : B) :
  f <$> m = Ok b → ∃ a, m = Ok a ∧ b = f a.
Proof. destruct m; simpl; intros; try discriminate. eexists; split; [done|congruence]. Qed.

Lemma deref_Ok pl p it : deref pl p = Ok it ↔ items pl !! p = Some it.
Proof. unfold deref. destruct (items pl !! p); split; congruence. Qed.

Lemma deref_lookup pl p it : items pl !! p = Some it → deref pl p = Ok it.
Proof. apply deref_Ok. Qed.

Lemma array_read_Ok a i x : array_read a i = Ok x ↔ a !! i = Some x.
Proof. unfold array_read. destruct (a !! i); split; congruence. Qed.

(** ** Insertion *)

Lemma INSERT_ELEM_end a x :
  INSERT_ELEM a (Z.of_nat (length a)) x = Ok (a ++ [x]).
Proof.
  unfold INSERT_ELEM.
  assert (H : (0 <=? Z.of_nat (length a)) && (Z.of_nat (length a) <=? Z.of_nat (length a)) = true)
    by (rewrite andb_true_iff, !Z.leb_le; lia).
  rewrite H, Nat2Z.id, firstn_all, drop_all. reflexivity.
Qed.

Lemma NodeAppend_result pl n parent par a :
  items pl !! parent = Some par → children par = Some a →
  is_Some (items pl !! n) →
  ∃ it,
    <[parent := with_children par (Some (a ++ [n]))]> (items pl) !! n = Some it ∧
    playlist_NodeAppend pl n (Some parent) =
      Ok (store (store pl parent (with_children par (Some (a ++ [n]))))
                n (with_parent it (Some parent)), VLC_SUCCESS).
Proof.
  intros Hpar Ha [it0 Hn].
  unfold playlist_NodeAppend, playlist_NodeInsert.
  rewrite (deref_lookup _ _ _ Hpar). simpl. rewrite Ha.
  unfold i_children. rewrite Ha. simpl.
  rewrite INSERT_ELEM_end. simpl.
  destruct (decide (parent = n)) as [->|Hne].
  - eexists. split; [apply lookup_insert_eq|].
    unfold deref, store at 2. simpl. rewrite lookup_insert_eq. reflexivity.
  - exists it0. split; [by rewrite lookup_insert_ne|].
    unfold deref, store at 2. simpl. rewrite lookup_insert_ne by done.
    rewrite Hn. reflexivity.
Qed.

Lemma occurrences_app x a b :
  occurrences x (a ++ b) = (occurrences x a + occurrences x b)%nat.
Proof. unfold occurrences. rewrite filter_app, length_app. reflexivity. Qed.

Lemma occurrences_notin x a : x ∉ a → occurrences x a = 0%nat.
Proof.
  unfold occurrences. induction a as [|y a IH]; [done|].
  intros Hn. apply not_elem_of_cons in Hn as [Hne Hn].
  rewrite filter_cons. destruct (decide (y = x)); [congruence|auto].
Qed.

Lemma occurrences_in x a : x ∈ a → (0 < occurrences x a)%nat.
Proof.
  unfold occurrences. induction a as [|y a IH]; [by intros ?%elem_of_nil|].
  intros Hin. rewrite filter_cons. destruct (decide (y = x)); simpl; [lia|].
  apply elem_of_cons in Hin as [?|?]; [congruence|auto].
Qed.

(** C4 (as amended): for a live container [parent] with children [a] and a
    live node [n], Append(n, parent) succeeds; afterwards [n]'s parent
    reference is [parent] and the children of [parent] are [a] followed by
    [n], so the previous children are unchanged, in order, and [n] is last.
    [n] then occurs exactly once provided it was not already a child. *)
Theorem NodeAppend_last pl n parent par a :
  items pl !! parent = Some par → children par = Some a →
  is_Some (items pl !! n) →
  ∃ pl' it' par',
    playlist_NodeAppend pl n (Some parent) = Ok (pl', VLC_SUCCESS) ∧
    items pl' !! n = Some it' ∧ p_parent it' = Some parent ∧
    items pl' !! parent = Some par' ∧ children par' = Some (a ++ [n]) ∧
    last (a ++ [n]) = Some n ∧
    (n ∉ a → occurrences n (a ++ [n]) = 1%nat).
Proof.
  intros Hpar Ha Hn.
  destruct (NodeAppend_result pl n parent par a Hpar Ha Hn) as (it & Hit & Hrun).
  assert (Hocc : n ∉ a → occurrences n (a ++ [n]) = 1%nat).
  { intros Hni. rewrite occurrences_app, occurrences_notin by done.
    unfold occurrences. rewrite filter_cons, decide_True by done. reflexivity. }
  destruct (decide (n = parent)) as [->|Hne].
  - rewrite lookup_insert_eq in Hit. injection Hit as <-.
    eexists _, _, _. split; [exact Hrun|]. simpl.
    rewrite lookup_insert_eq.
    repeat split; try reflexivity; [apply last_snoc|exact Hocc].
  - eexists _, _, _. split; [exact Hrun|]. simpl.
    rewrite lookup_insert_eq, lookup_insert_ne, lookup_insert_eq by done.
    repeat split; try reflexivity; [apply last_snoc|exact Hocc].
Qed.

Lemma NodeAppend_last_witness :
  ∃ pl' it' par',
    playlist_NodeAppend pl_example 4%nat (Some 1%nat) = Ok (pl', VLC_SUCCESS) ∧
    items pl' !! 4%nat = Some it' ∧ p_parent it' = Some 1%nat ∧
    items pl' !! 1%nat = Some par' ∧ children par' = Some ([2; 3] ++ [4])%nat ∧
    last ([2; 3] ++ [4])%nat = Some 4%nat ∧
    (4%nat ∉ [2; 3]%nat → occurrences 4 ([2; 3] ++ [4])%nat = 1%nat).
Proof.
  apply (NodeAppend_last pl_example 4%nat 1%nat (mk_node 2 (Some [2; 3]%nat) (Some 0%nat) 0)).
  - vm_compute. reflexivity.
  - reflexivity.
  - eexists. vm_compute. reflexivity.
Defined.

(** C4 as stated fails when [n] is already a child of [parent]: appending
    node 1 to its own parent 0 leaves two occurrences of it. *)
Lemma NodeAppend_twice_counterexample :
  ∃ pl' par',
    playlist_NodeAppend pl_single 1%nat (Some 0%nat) = Ok (pl', VLC_SUCCESS) ∧
    items pl' !! 0%nat = Some par' ∧
    children par' = Some [1; 1]%nat ∧
    occurrences 1 [1; 1]%nat = 2%nat.
Proof.
  eexists _, _. split; [vm_compute; reflexivity|].
  split; [vm_compute; reflexivity|]. split; reflexivity.
Qed.

(** ** Removal from the parent's array *)

Lemma NodeRemoveItem_loop_absent x n : ∀ i a,
  x ∉ drop i a → NodeRemoveItem_loop n x i a = a.
Proof.
  induction n as [|n IH]; intros i a Hx; simpl; [done|].
  case_decide as Hi; [|done].
  destruct (lookup_lt_is_Some_2 a i Hi) as [y Hy].
  rewrite (drop_S _ _ _ Hy) in Hx. apply not_elem_of_cons in Hx as [Hne Hx].
  rewrite decide_False by congruence. by apply IH.
Qed.

Lemma NodeRemoveItem_loop_once x n : ∀ i a,
  (length a - i ≤ n)%nat → (occurrences x (drop i a) ≤ 1)%nat →
  NodeRemoveItem_loop n x i a = take i a ++ remove_first x (drop i a).
Proof.
  induction n as [|n IH]; intros i a Hn Hocc; simpl.
  - rewrite drop_ge, take_ge, app_nil_r by lia. done.
  - case_decide as Hi.
    + destruct (lookup_lt_is_Some_2 a i Hi) as [y Hy].
      rewrite (drop_S _ _ _ Hy) in Hocc |- *. simpl.
      destruct (decide (y = x)) as [->|Hne].
      * rewrite decide_True by done. unfold REMOVE_ELEM.
        rewrite NodeRemoveItem_loop_absent; [apply delete_take_drop|].
        intros Hin. assert (Hin' : x ∈ drop (S i) a).
        { rewrite delete_take_drop, drop_app_ge in Hin by (rewrite length_take; lia).
          eapply subseteq_drop, Hin. }
        apply occurrences_in in Hin'.
        unfold occurrences in Hocc, Hin'. rewrite filter_cons, decide_True in Hocc by done.
        simpl in Hocc. lia.
      * rewrite decide_False by congruence.
        rewrite IH; [|lia|].
        -- rewrite (take_S_r _ _ _ Hy), <- app_assoc. done.
        -- unfold occurrences in *. rewrite filter_cons, decide_False in Hocc by done. done.
    + rewrite drop_ge, take_ge, app_nil_r by lia. done.
Qed.

Lemma remove_first_absent x a : x ∉ a → remove_first x a = a.
Proof.
  induction a as [|y a IH]; [done|]. intros [Hne Hx]%not_elem_of_cons.
  simpl. rewrite decide_False by done. by rewrite IH.
Qed.

Lemma remove_first_others x a :
  filter (λ y, y ≠ x) (remove_first x a) = filter (λ y, y ≠ x) a.
Proof.
  induction a as [|y a IH]; [done|]. simpl.
  destruct (decide (y = x)) as [->|Hne].
  - rewrite filter_cons, decide_False by auto. done.
  - rewrite !filter_cons, !decide_True by done. by rewrite IH.
Qed.

Lemma with_children_id it : with_children it (children it) = it.
Proof. by destruct it. Qed.

Lemma store_id pl p it : items pl !! p = Some it → store pl p it = pl.
Proof.
  intros H. unfold store, with_items. rewrite insert_id by done. by destruct pl.
Qed.

(** C6 (as amended): when [item] occurs at most once among the children of
    [parent] (as the tree invariant guarantees), RemoveFromParent succeeds and
    changes nothing but the children of [parent], from which that occurrence
    is removed while the other children keep their order; [item] itself is
    not altered, and when [item] is absent the call is a successful no-op. *)
Theorem NodeRemoveItem_first pl item parent par a :
  items pl !! parent = Some par → children par = Some a →
  (occurrences item a ≤ 1)%nat →
  ∃ pl',
    playlist_NodeRemoveItem pl item parent = Ok (pl', VLC_SUCCESS) ∧
    pl' = store pl parent (with_children par (Some (remove_first item a))) ∧
    filter (λ y, y ≠ item) (remove_first item a) = filter (λ y, y ≠ item) a ∧
    (item ≠ parent → items pl' !! item = items pl !! item) ∧
    (item ∉ a → pl' = pl).
Proof.
  intros Hpar Ha Hocc.
  exists (store pl parent (with_children par (Some (remove_first item a)))).
  split.
  - unfold playlist_NodeRemoveItem. rewrite (deref_lookup _ _ _ Hpar). simpl.
    rewrite Ha. rewrite NodeRemoveItem_loop_once by (rewrite ?drop_0; auto; lia).
    rewrite drop_0. reflexivity.
  - split; [reflexivity|]. split; [apply remove_first_others|]. split.
    + intros Hne. simpl. by rewrite lookup_insert_ne.
    + intros Hx. rewrite remove_first_absent, <- Ha, with_children_id by done.
      by apply store_id.
Qed.

Lemma NodeRemoveItem_first_witness :
  ∃ pl',
    playlist_NodeRemoveItem pl_example 4%nat 0%nat = Ok (pl', VLC_SUCCESS) ∧
    pl' = store pl_example 0%nat
            (with_children (mk_node 1 (Some [1; 4]%nat) None 0)
               (Some (remove_first 4 [1; 4]%nat))) ∧
    filter (λ y, y ≠ 4%nat) (remove_first 4 [1; 4]%nat)
      = filter (λ y, y ≠ 4%nat) [1; 4]%nat ∧
    (4%nat ≠ 0%nat → items pl' !! 4%nat = items pl_example !! 4%nat) ∧
    (4%nat ∉ [1; 4]%nat → pl' = pl_example).
Proof.
  apply (NodeRemoveItem_first pl_example 4%nat 0%nat
           (mk_node 1 (Some [1; 4]%nat) None 0) [1; 4]%nat).
  - vm_compute. reflexivity.
  - reflexivity.
  - vm_compute. lia.
Defined.

(** C6 as stated fails when [item] occurs more than once: the scan goes on
    after a removal, so removing node 1 from the children [1; 2; 1] leaves
    [2], not [2; 1]. *)
Lemma NodeRemoveItem_counterexample :
  ∃ pl' par',
    playlist_NodeRemoveItem pl_twice 1%nat 0%nat = Ok (pl', VLC_SUCCESS) ∧
    items pl' !! 0%nat = Some par' ∧
    children par' = Some [2%nat] ∧
    remove_first 1 [1; 2; 1]%nat = [2; 1]%nat.
Proof.
  eexists _, _. split; [vm_compute; reflexivity|].
  split; [vm_compute; reflexivity|]. split; reflexivity.
Qed.

(** ** Creation *)




(** ** Counting *)

Lemma spec_count_Container kids :
  spec_count (Container kids) = Z.of_nat (length kids) + spec_scan kids.
Proof. reflexivity. Qed.

Lemma spec_count_nonneg : ∀ t, 0 <= spec_count t.
Proof.
  fix IH 1. intros [|kids]; [done|].
  rewrite spec_count_Container.
  assert (0 <= spec_scan kids); [|lia].
  induction kids as [|k kids IHk]; simpl; [lia|].
  pose proof (IH k) as Hk. destruct k; simpl in *; lia.
Qed.

Lemma spec_scan_nonneg kids : 0 <= spec_scan kids.
Proof.
  induction kids as [|[|ks] kids IHk]; simpl; try lia.
  pose proof (spec_count_nonneg (Container ks)) as H. simpl in H. lia.
Qed.

Lemma int_add_exact a b :
  - 2^31 <= a + b < 2^31 → int_add a b = a + b.
Proof.
  intros H. unfold int_add, int_wrap. rewrite Z.mod_small; lia.
Qed.

Lemma i_children_leaf it : i_children it = -1 ↔ children it = None.
Proof. unfold i_children. destruct (children it); split; (done || lia). Qed.

Lemma reify_leaf d pl p it :
  items pl !! p = Some it → children it = None → reify (S d) pl p = Some Leaf.
Proof. intros H Hc. simpl. rewrite H. simpl. by rewrite Hc. Qed.

Lemma NodeChildrenCount_loop_spec (count : ptr → result Z) pl d :
  (∀ c t, reify d pl c = Some t → spec_count t < 2^31 →
          count c = Ok (spec_count t)) →
  ∀ a ts i_nb,
    Forall2 (λ c t, reify d pl c = Some t) a ts →
    0 <= i_nb → i_nb + spec_scan ts < 2^31 →
    NodeChildrenCount_loop count pl a i_nb = Ok (i_nb + spec_scan ts).
Proof.
  intros Hcount a ts i_nb Hall. revert i_nb.
  induction Hall as [|c t a ts Hc Hall IH]; intros i_nb Hpos Hlt; simpl.
  - f_equal. lia.
  - destruct d as [|d]; [discriminate|]. simpl in Hc.
    destruct (items pl !! c) as [it|] eqn:Hit; [|discriminate]. simpl in Hc.
    rewrite (deref_lookup _ _ _ Hit). simpl.
    destruct (children it) as [l|] eqn:Hl.
    + destruct (mapM (reify d pl) l) as [ks|] eqn:Hks; [|discriminate].
      injection Hc as <-.
      assert (Hr : reify (S d) pl c = Some (Container ks)).
      { simpl. rewrite Hit. simpl. rewrite Hl, Hks. reflexivity. }
      destruct (Z.eqb_spec (i_children it) (-1)) as [Heq|_].
      { apply i_children_leaf in Heq. congruence. }
      pose proof (spec_scan_nonneg ts). pose proof (spec_count_nonneg (Container ks)).
      change (spec_scan (Container ks :: ts))
        with (spec_count (Container ks) + spec_scan ts) in Hlt |- *.
      rewrite (Hcount _ _ Hr), bind_ret by lia.
      rewrite int_add_exact by lia. rewrite IH by lia. f_equal. lia.
    + injection Hc as <-.
      rewrite (proj2 (i_children_leaf it) Hl). simpl. f_equal. lia.
Qed.

(** C3: on a container whose subtree has the shape [t], ChildrenCount
    returns the documented count of [t] (immediate children, plus the count
    of each container child met before the first leaf child), as long as that
    number fits a C [int]; on a leaf it returns 0; and on the container with
    children [leaf, container-with-2-leaves] it returns 2. *)
Theorem NodeChildrenCount_quirk :
  (∀ depth fuel pl p t,
     reify depth pl p = Some t → (depth ≤ fuel)%nat → spec_count t < 2^31 →
     playlist_NodeChildrenCount fuel pl p = Ok (spec_count t)) ∧
  (∀ fuel pl p it,
     items pl !! p = Some it → children it = None →
     playlist_NodeChildrenCount (S fuel) pl p = Ok 0) ∧
  (reify 3 pl_quirk 0%nat = Some (Container [Leaf; Container [Leaf; Leaf]]) ∧
   playlist_NodeChildrenCount 3 pl_quirk 0%nat = Ok 2).
Proof.
  split; [|split].
  - induction depth as [|d IH]; intros fuel pl p t Hr Hf Hlt; [discriminate|].
    destruct fuel as [|fuel]; [lia|]. simpl in Hr |- *.
    destruct (items pl !! p) as [it|] eqn:Hit; [|discriminate]. simpl in Hr.
    rewrite (deref_lookup _ _ _ Hit). simpl.
    destruct (children it) as [l|] eqn:Hl.
    + destruct (mapM (reify d pl) l) as [ks|] eqn:Hks; [|discriminate].
      injection Hr as <-.
      destruct (Z.eqb_spec (i_children it) (-1)) as [Heq|_].
      { apply i_children_leaf in Heq. congruence. }
      rewrite spec_count_Container in Hlt |- *.
      apply mapM_Some in Hks.
      unfold pp_children, i_children. rewrite Hl. simpl.
      rewrite (NodeChildrenCount_loop_spec _ pl d) with (ts := ks); auto; try lia.
      * by rewrite (Forall2_length _ _ _ Hks).
      * intros c t Hc Hct. apply IH with (fuel := fuel) in Hc; auto. lia.
      * rewrite (Forall2_length _ _ _ Hks). lia.
    + injection Hr as <-. by rewrite (proj2 (i_children_leaf it) Hl).
  - intros fuel pl p it Hit Hc. simpl. rewrite (deref_lookup _ _ _ Hit). simpl.
    by rewrite (proj2 (i_children_leaf it) Hc).
  - split; vm_compute; reflexivity.
Qed.

Lemma NodeChildrenCount_quirk_witness :
  playlist_NodeChildrenCount 3 pl_quirk 0%nat
    = Ok (spec_count (Container [Leaf; Container [Leaf; Leaf]])).
Proof.
  apply (proj1 NodeChildrenCount_quirk 3%nat 3%nat pl_quirk 0%nat).
  - vm_compute. reflexivity.
  - lia.
  - vm_compute. reflexivity.
Defined.

(** ** Forward traversal *)

Lemma index_of_Some x a i :
  index_of x a = Some i → a !! i = Some x ∧ (i < length a)%nat.
Proof.
  revert i. induction a as [|y a IH]; intros i; simpl; [done|].
  destruct (decide (y = x)) as [->|Hne].
  - intros [= <-]. split; [done|lia].
  - destruct (index_of x a) as [j|]; simpl; [|done].
    intros [= <-]. destruct (IH j eq_refl). split; [done|lia].
Qed.

Lemma index_of_elem x a : x ∈ a → is_Some (index_of x a).
Proof.
  induction a as [|y a IH]; [by intros ?%elem_of_nil|].
  intros Hin. simpl. destruct (decide (y = x)); [eauto|].
  apply elem_of_cons in Hin as [?|Hin]; [congruence|].
  destruct (IH Hin) as [j ->]. simpl. eauto.
Qed.

Lemma i_children_length it : i_children it = Z.of_nat (length (pp_children it)) ∨
  (i_children it = -1 ∧ pp_children it = []).
Proof. unfold i_children, pp_children. destruct (children it); simpl; auto. Qed.

Lemma i_children_pos it : 0 < i_children it ↔ (0 < length (pp_children it))%nat.
Proof. destruct (i_children_length it) as [->|[-> ->]]; simpl; lia. Qed.

(** What one round of the sibling test yields: the next sibling if there is
    one. *)
Lemma next_sibling_eq pl x it parent par i :
  items pl !! x = Some it → p_parent it = Some parent →
  items pl !! parent = Some par → index_of x (pp_children par) = Some i →
  next_sibling pl x = pp_children par !! S i.
Proof.
  intros Hx Hp Hpar Hi. unfold next_sibling.
  rewrite Hx. simpl. rewrite Hp. simpl. rewrite Hpar. simpl. by rewrite Hi.
Qed.

Lemma sibling_test it (i : nat) :
  (Z.of_nat i < Z.of_nat (length (pp_children it))) →
  (Z.of_nat i + 1 <? i_children it) = true ↔ is_Some (pp_children it !! S i).
Proof.
  intros Hi. rewrite Z.ltb_lt, lookup_lt_is_Some.
  destruct (i_children_length it) as [->|[-> Hnil]]; [lia|].
  rewrite Hnil in *. simpl in *. lia.
Qed.

Lemma GetNextUncle_loop_spec pl root : ∀ d parent, below pl root d parent →
  ∀ fuel par b, (d ≤ fuel)%nat → items pl !! parent = Some par →
  GetNextUncle_loop fuel pl root parent (p_parent par) b =
    Ok (head (omap (next_sibling pl) (ancestors_below d pl root parent))).
Proof.
  induction 1 as [x it g Hx Hp Hg Hin|d x it gp g Hx Hp Hne Hg Hin Hb IH];
    intros fuel par b Hf Hpar; rewrite Hx in Hpar; injection Hpar as <-;
    (destruct fuel as [|fuel]; [lia|]); simpl; rewrite Hp, Hx; simpl; rewrite Hp;
    rewrite (deref_lookup _ _ _ Hg); simpl;
    destruct (index_of_elem _ _ Hin) as [i Hi]; rewrite Hi;
    destruct (index_of_Some _ _ _ Hi) as [_ Hlt];
    rewrite (next_sibling_eq _ _ _ _ _ _ Hx Hp Hg Hi);
    pose proof (sibling_test g i ltac:(lia)) as Htest; simpl.
  - destruct (decide (root = root)) as [_|?]; [|done].
    destruct (Z.of_nat i + 1 <? i_children g).
    + destruct (proj1 Htest eq_refl) as [s Hs].
      rewrite Z2Nat.inj_add, Nat2Z.id by lia. change (Z.to_nat 1) with 1%nat.
      rewrite Nat.add_1_r. unfold array_read. rewrite Hs. reflexivity.
    + destruct (pp_children g !! S i) eqn:Hs; [|reflexivity].
      destruct Htest as [_ Htest]. discriminate Htest. eauto.
  - destruct (decide (gp = root)) as [?|_]; [done|].
    destruct (Z.of_nat i + 1 <? i_children g).
    + destruct (proj1 Htest eq_refl) as [s Hs].
      rewrite Z2Nat.inj_add, Nat2Z.id by lia. change (Z.to_nat 1) with 1%nat.
      rewrite Nat.add_1_r. unfold array_read. rewrite Hs. reflexivity.
    + destruct (pp_children g !! S i) eqn:Hs.
      { destruct Htest as [_ Htest]. discriminate Htest. eauto. }
      simpl. apply IH; [lia|done].
Qed.

(** C1: on the tree root[A[A1, A2], B] NextItem maps A1 to A2, A2 to B
    (through the uncle lookup) and B to none; a non-empty container is
    followed by its first child; and for every node [x] lying [d] levels
    below [root], NextItem(root, x) is the pre-order successor: the first
    child of a non-empty container, else the next sibling, else the next
    sibling of the nearest ancestor strictly below [root], else none. *)
Theorem GetNextItem_preorder :
  (GetNextItem 2 pl_example 0%nat (Some 2%nat) = Ok (Some 3%nat) ∧
   GetNextItem 2 pl_example 0%nat (Some 3%nat) = Ok (Some 4%nat) ∧
   GetNextItem 2 pl_example 0%nat (Some 4%nat) = Ok None) ∧
  (∀ fuel pl root x c,
     first_child pl x = Some c →
     GetNextItem fuel pl root (Some x) = Ok (Some c)) ∧
  (∀ fuel pl root d x,
     below pl root d x → (d ≤ fuel)%nat →
     GetNextItem fuel pl root (Some x) = Ok (spec_NextItem d pl root x)).
Proof.
  split; [repeat split; vm_compute; reflexivity|].
  assert (Hfirst : ∀ fuel pl root x c,
     first_child pl x = Some c →
     GetNextItem fuel pl root (Some x) = Ok (Some c)).
  { intros fuel pl root x c. unfold first_child, GetNextItem.
    destruct (items pl !! x) as [it|] eqn:Hx; [|done]. simpl. intros Hc.
    rewrite (deref_lookup _ _ _ Hx). simpl.
    assert (Hpos : (0 <? i_children it) = true).
    { apply Z.ltb_lt, i_children_pos. apply lookup_lt_Some in Hc. lia. }
    rewrite Hpos. unfold array_read. rewrite Hc. reflexivity. }
  split; [exact Hfirst|].
  intros fuel pl root d x Hb Hf. unfold spec_NextItem.
  destruct (first_child pl x) as [c|] eqn:Hc; [by apply Hfirst|].
  assert (Hx0 : ∃ it, items pl !! x = Some it) by (inversion Hb; eauto).
  destruct Hx0 as [it0 Hx0].
  assert (Hnpos : (0 <? i_children it0) = false).
  { apply Z.ltb_ge. unfold first_child in Hc. rewrite Hx0 in Hc. simpl in Hc.
    apply lookup_ge_None in Hc. pose proof (i_children_pos it0). lia. }
  unfold GetNextItem. rewrite (deref_lookup _ _ _ Hx0). simpl. rewrite Hnpos.
  inversion Hb as [x' it g Hx Hp Hg Hin|d' x' it gp g Hx Hp Hne Hg Hin Hb']; subst;
    rewrite Hx in Hx0; injection Hx0 as <-; rewrite Hp;
    rewrite (deref_lookup _ _ _ Hg); simpl;
    destruct (index_of_elem _ _ Hin) as [i Hi]; rewrite Hi;
    destruct (index_of_Some _ _ _ Hi) as [_ Hlt];
    rewrite Hx; simpl; rewrite Hp;
    rewrite (next_sibling_eq _ _ _ _ _ _ Hx Hp Hg Hi);
    pose proof (sibling_test g i ltac:(lia)) as Htest;
    rewrite Z.geb_leb, Z.leb_antisym.
  - destruct (decide (root = root)) as [_|?]; [|done]. simpl.
    destruct (Z.of_nat i + 1 <? i_children g); simpl.
    + destruct (proj1 Htest eq_refl) as [s Hs].
      rewrite Nat.add_1_r. unfold array_read. rewrite Hs. reflexivity.
    + destruct (pp_children g !! S i) eqn:Hs; [|reflexivity].
      destruct Htest as [_ Htest]. discriminate Htest. eauto.
  - destruct (decide (gp = root)) as [?|_]; [done|]. simpl.
    destruct (Z.of_nat i + 1 <? i_children g); simpl.
    + destruct (proj1 Htest eq_refl) as [s Hs].
      rewrite Nat.add_1_r. unfold array_read. rewrite Hs. reflexivity.
    + destruct (pp_children g !! S i) eqn:Hs.
      { destruct Htest as [_ Htest]. discriminate Htest. eauto. }
      unfold GetNextUncle. rewrite (deref_lookup _ _ _ Hx). simpl. rewrite Hp.
      rewrite (deref_lookup _ _ _ Hg). simpl.
      apply (GetNextUncle_loop_spec pl root d' gp Hb'); [lia|done].
Qed.

Lemma GetNextItem_preorder_witness :
  below pl_example 0%nat 2 3%nat ∧
  GetNextItem 2 pl_example 0%nat (Some 3%nat)
    = Ok (spec_NextItem 2 pl_example 0%nat 3%nat) ∧
  spec_NextItem 2 pl_example 0%nat 3%nat = Some 4%nat.
Proof.
  assert (Hb : below pl_example 0%nat 2 3%nat).
  { eapply (below_deeper _ _ 1 3%nat _ 1%nat).
    - vm_compute. reflexivity.
    - reflexivity.
    - lia.
    - vm_compute. reflexivity.
    - vm_compute. apply list_elem_of_In. simpl. auto.
    - eapply (below_child _ _ 1%nat).
      + vm_compute. reflexivity.
      + reflexivity.
      + vm_compute. reflexivity.
      + vm_compute. apply list_elem_of_In. simpl. auto. }
  split; [exact Hb|]. split; [|vm_compute; reflexivity].
  apply (proj2 (proj2 GetNextItem_preorder) 2%nat pl_example 0%nat 2%nat 3%nat Hb).
  lia.
Defined.

(** ** Backward traversal *)

(** C2: the round trip breaks on root[X, C[Y]]: NextLeaf(root, X) is the
    leaf Y, the first leaf of the deeper subtree C, but PrevLeaf(root, Y) is
    none instead of X.  GetPrevUncle finds C at index 1 of root and tests
    [i - 1 > 0], so the sibling at index 0 is never returned. *)
Theorem PrevLeaf_after_NextLeaf_deeper fuel :
  playlist_GetNextLeaf (S (S fuel)) pl_deeper 0%nat (Some 1%nat) false false
    = Ok (Some 3%nat) ∧
  playlist_GetPrevLeaf (S (S fuel)) pl_deeper 0%nat (Some 3%nat) false false
    = Ok None.
Proof. split; vm_compute; reflexivity. Qed.

(** C9: PrevLeaf from the cursor none does not return: for every live
    container [root] and both filters, GetPrevItem reaches its abort() call. *)
Theorem GetPrevLeaf_none_aborts fuel pl root it b_ena b_unplayed :
  items pl !! root = Some it → children it ≠ None →
  playlist_GetPrevLeaf (S fuel) pl root None b_ena b_unplayed = Abort.
Proof.
  intros Hroot Hc. unfold playlist_GetPrevLeaf.
  rewrite (deref_lookup _ _ _ Hroot). simpl.
  destruct (Z.eqb_spec (i_children it) (-1)) as [Heq|_]; [|reflexivity].
  by apply i_children_leaf in Heq.
Qed.

Lemma GetPrevLeaf_none_aborts_witness :
  playlist_GetPrevLeaf 1 pl_example 0%nat None true true = Abort.
Proof.
  apply (GetPrevLeaf_none_aborts 0 pl_example 0%nat
           (mk_node 1 (Some [1; 4]%nat) None 0)).
  - vm_compute. reflexivity.
  - discriminate.
Defined.

(** ** Lists: removing a child *)

Lemma remove_first_sublist x a : sublist (remove_first x a) a.
Proof.
  induction a as [|y a IH]; simpl; [constructor|].
  destruct (decide (y = x)); by constructor.
Qed.

Lemma remove_first_NoDup x a : NoDup a → x ∉ remove_first x a.
Proof.
  induction 1 as [|y a Hy Ha IH]; simpl; [apply not_elem_of_nil|].
  destruct (decide (y = x)) as [->|Hne]; [done|].
  apply not_elem_of_cons. auto.
Qed.

Lemma remove_first_keeps x y a : y ∈ a → y ≠ x → y ∈ remove_first x a.
Proof.
  induction a as [|z a IH]; simpl; [done|]. intros Hin Hne.
  destruct (decide (z = x)) as [->|Hzx].
  - apply elem_of_cons in Hin as [?|?]; [congruence|done].
  - apply elem_of_cons in Hin as [->|Hin]; [left|right; auto].
Qed.

Lemma NoDup_occurrences x a : NoDup a → (occurrences x a ≤ 1)%nat.
Proof.
  induction 1 as [|y a Hy Ha IH]; [unfold occurrences; simpl; lia|].
  unfold occurrences in *.
  rewrite filter_cons. destruct (decide (y = x)) as [->|Hne]; [|done].
  simpl. fold (occurrences x a). rewrite occurrences_notin; [lia|done].
Qed.

Lemma remove_first_take x a i :
  NoDup a → a !! i = Some x → take i (remove_first x a) = take i a.
Proof.
  intros Hnd. revert i. induction Hnd as [|y a Hy Ha IH]; intros i; [done|].
  destruct i as [|i]; simpl; [done|]. intros Hi.
  destruct (decide (y = x)) as [->|Hne].
  - destruct Hy. apply list_elem_of_lookup. eauto.
  - simpl. f_equal. auto.
Qed.

Lemma remove_first_length x a :
  x ∈ a → S (length (remove_first x a)) = length a.
Proof.
  induction a as [|y a IH]; simpl; [by intros ?%elem_of_nil|].
  intros Hin. destruct (decide (y = x)) as [->|Hne]; [done|].
  apply elem_of_cons in Hin as [?|Hin]; [congruence|]. simpl. auto.
Qed.

Lemma delete_NoDup_elem (l : list ptr) i p x :
  NoDup l → l !! i = Some p → x ∈ delete i l ↔ x ∈ l ∧ x ≠ p.
Proof.
  intros Hnd Hi. rewrite delete_take_drop.
  pose proof (take_drop_middle _ _ _ Hi) as Hl.
  remember (take i l) as pre eqn:Hpre. remember (drop (S i) l) as suf eqn:Hsuf.
  clear Hpre Hsuf Hi. subst l.
  apply NoDup_app in Hnd as (_ & Hd & Hnd). apply NoDup_cons in Hnd as [Hp _].
  rewrite !elem_of_app, elem_of_cons. split.
  - intros [H|H]; (split; [auto|]); intros ->; [|done].
    apply (Hd p); [done|left].
  - intros [[H|[->|H]] Hne]; auto. done.
Qed.

(** ** Heap steps of the destruction block *)

Lemma detach_leaf p it : children it = None → detach p it = it.
Proof. unfold detach. intros H. rewrite H. simpl. rewrite <- H. apply with_children_id. Qed.

Lemma detach_shrunk p it : shrunk it (detach p it).
Proof.
  unfold shrunk, detach, pp_children. simpl. repeat split; try done.
  destruct (children it); simpl; [apply remove_first_sublist|constructor].
Qed.

Lemma pp_children_detach p it :
  pp_children (detach p it) = remove_first p (pp_children it).
Proof. unfold detach, pp_children. simpl. by destruct (children it). Qed.

Lemma NodeRemoveItem_run pl p parent par :
  items pl !! parent = Some par → NoDup (pp_children par) →
  playlist_NodeRemoveItem pl p parent
    = Ok (store pl parent (detach p par), VLC_SUCCESS).
Proof.
  intros Hpar Hnd. unfold playlist_NodeRemoveItem.
  rewrite (deref_lookup _ _ _ Hpar). simpl.
  destruct (children par) as [a|] eqn:Ha.
  - unfold pp_children in Hnd. rewrite Ha in Hnd. simpl in Hnd.
    rewrite NodeRemoveItem_loop_once; rewrite ?drop_0; try lia.
    + unfold detach. rewrite Ha. reflexivity.
    + by apply NoDup_occurrences.
  - rewrite detach_leaf, store_id by done. reflexivity.
Qed.

Lemma ARRAY_BSEARCH_items pl pl' l key :
  items pl' = items pl → ARRAY_BSEARCH pl' l key = ARRAY_BSEARCH pl l key.
Proof.
  intros H. induction l as [|e l IH]; simpl; [done|].
  unfold deref. rewrite H. destruct (items pl !! e); simpl; [|done].
  by rewrite IH.
Qed.

(** The destruction block as one equation. *)
Lemma destroy_item_shape pl p it :
  children_consistent pl →
  destroy_item pl p it =
    o ← ARRAY_BSEARCH pl (all_items pl) (i_id it);
    match p_parent it with
    | Some parent =>
        par ← deref pl parent;
        Ok (destroyed pl p it o (<[parent := detach p par]> (items pl)))
    | None => Ok (destroyed pl p it o (items pl))
    end.
Proof.
  intros Hc. unfold destroy_item.
  rewrite (ARRAY_BSEARCH_items pl) by done. simpl.
  destruct (ARRAY_BSEARCH pl (all_items pl) (i_id it)) as [o| | |]; simpl; try done.
  destruct (p_parent it) as [parent|]; simpl.
  - destruct (items pl !! parent) as [par|] eqn:Hpar.
    + rewrite (deref_lookup _ _ _ Hpar). simpl.
      erewrite NodeRemoveItem_run; [|destruct o; exact Hpar|by apply (Hc parent)].
      destruct o; reflexivity.
    + unfold playlist_NodeRemoveItem, deref.
      replace (items _ !! parent) with (@None playlist_item_t) by (destruct o; done).
      rewrite Hpar. reflexivity.
  - destruct o; reflexivity.
Qed.

(** ** The downward consistency is kept by every mutation *)

Lemma children_consistent_items pl pl' :
  items pl' = items pl → children_consistent pl → children_consistent pl'.
Proof. unfold children_consistent. intros ->. auto. Qed.

Lemma shrunk_refl it : shrunk it it.
Proof. unfold shrunk. repeat split; done. Qed.

Lemma shrunk_trans it1 it2 it3 : shrunk it1 it2 → shrunk it2 it3 → shrunk it1 it3.
Proof.
  unfold shrunk. intros (?&?&?&?&?) (?&?&?&?&?).
  repeat split; try congruence. by etrans.
Qed.

(** Replacing a record by a shrunk one. *)
Lemma consistent_store_shrunk pl p it it' :
  children_consistent pl → items pl !! p = Some it → shrunk it it' →
  children_consistent (store pl p it').
Proof.
  intros Hc Hp (_ & _ & Hpar & _ & Hsub) c itc. simpl.
  assert (Hlive : ∀ x itx, items pl !! x = Some itx →
            ∃ itx', <[p := it']> (items pl) !! x = Some itx' ∧
                    p_parent itx' = p_parent itx).
  { intros x itx Hx. destruct (decide (p = x)) as [->|Hne].
    - rewrite lookup_insert_eq. eexists. split; [done|]. congruence.
    - rewrite lookup_insert_ne by done. eauto. }
  destruct (decide (p = c)) as [->|Hne].
  - rewrite lookup_insert_eq. intros [= <-].
    destruct (Hc c it Hp) as [Hnd Hin]. split; [by eapply sublist_NoDup|].
    intros x Hx. destruct (Hin x) as (itx & Hitx & Hpx); [by eapply elem_of_sublist|].
    destruct (Hlive x itx Hitx) as (itx' & ? & ?). exists itx'. split; congruence.
  - rewrite lookup_insert_ne by done. intros Hitc.
    destruct (Hc c itc Hitc) as [Hnd Hin]. split; [done|].
    intros x Hx. destruct (Hin x Hx) as (itx & Hitx & Hpx).
    destruct (Hlive x itx Hitx) as (itx' & ? & ?). exists itx'. split; congruence.
Qed.

(** Releasing a node that nobody lists. *)
Lemma consistent_delete pl p :
  children_consistent pl → (∀ c, ¬ lists pl c p) →
  children_consistent (playlist_ItemDelete pl p).
Proof.
  intros Hc Hno c itc. simpl. intros [Hne Hitc]%lookup_delete_Some.
  destruct (Hc c itc Hitc) as [Hnd Hin]. split; [done|].
  intros x Hx. destruct (Hin x Hx) as (itx & Hitx & Hpx).
  exists itx. split; [|done]. rewrite lookup_delete_ne; [done|].
  intros <-. apply (Hno c). by exists itc.
Qed.

Lemma lists_only_parent pl c p it :
  children_consistent pl → items pl !! p = Some it → lists pl c p →
  p_parent it = Some c.
Proof.
  intros Hc Hp (itc & Hitc & Hin).
  destruct (Hc c itc Hitc) as [_ H]. destruct (H p Hin) as (it' & ? & ?).
  congruence.
Qed.

Lemma consistent_destroyed pl p it o :
  children_consistent pl → items pl !! p = Some it →
  (∀ parent par, p_parent it = Some parent → items pl !! parent = Some par →
     children_consistent
       (destroyed pl p it o (<[parent := detach p par]> (items pl)))) ∧
  (p_parent it = None → children_consistent (destroyed pl p it o (items pl))).
Proof.
  intros Hc Hp. split.
  - intros parent par Hpar Hparent.
    apply (children_consistent_items
             (playlist_ItemDelete (store pl parent (detach p par)) p)); [done|].
    apply consistent_delete.
    + eapply consistent_store_shrunk; eauto using detach_shrunk.
    + intros c (itc & Hitc & Hin). simpl in Hitc.
      destruct (decide (parent = c)) as [->|Hne].
      * rewrite lookup_insert_eq in Hitc. injection Hitc as <-.
        rewrite pp_children_detach in Hin.
        by apply (remove_first_NoDup p (pp_children par)); [apply (Hc c)|].
      * rewrite lookup_insert_ne in Hitc by done.
        assert (p_parent it = Some c); [|congruence].
        eapply lists_only_parent; eauto. by exists itc.
  - intros Hpar.
    apply (children_consistent_items (playlist_ItemDelete pl p)); [done|].
    apply consistent_delete; [done|]. intros c Hl.
    pose proof (lists_only_parent _ _ _ _ Hc Hp Hl). congruence.
Qed.

Lemma destroy_item_consistent pl p it pl' :
  children_consistent pl → items pl !! p = Some it →
  destroy_item pl p it = Ok pl' → children_consistent pl'.
Proof.
  intros Hc Hp. rewrite destroy_item_shape by done.
  intros (o & _ & H)%bind_Ok.
  destruct (consistent_destroyed pl p it o Hc Hp) as [HS HN].
  destruct (p_parent it) as [parent|] eqn:Hpar.
  - apply bind_Ok in H as (par & Hparent%deref_Ok & [= <-]). eauto.
  - injection H as <-. auto.
Qed.

Lemma DeleteFromItemId_consistent pl id r :
  children_consistent pl → playlist_DeleteFromItemId pl id = Ok r →
  children_consistent r.1.
Proof.
  intros Hc. unfold playlist_DeleteFromItemId.
  intros ([i|] & _ & H)%bind_Ok; [|by injection H as <-].
  apply bind_Ok in H as (p & _ & H).
  apply bind_Ok in H as (it & Hit%deref_Ok & H).
  apply bind_Ok in H as (pl' & Hd & [= <-]). simpl.
  eauto using destroy_item_consistent.
Qed.

Lemma delete_children_consistent node_delete di root :
  (∀ pl c r, children_consistent pl → node_delete pl c = Ok r →
             children_consistent r.1) →
  ∀ k pl pl', children_consistent pl →
    delete_children node_delete di root k pl = Ok pl' →
    children_consistent pl'.
Proof.
  intros Hrec. induction k as [|k IH]; intros pl pl' Hc; simpl.
  - by intros [= <-].
  - intros (r & _ & H)%bind_Ok. apply bind_Ok in H as (c & _ & H).
    apply bind_Ok in H as (child & _ & H).
    apply bind_Ok in H as (pl1 & Hstep & H).
    apply (IH pl1); [|done].
    destruct (-1 <? i_children child).
    + apply bind_Ok in Hstep as (r1 & Hr1 & [= <-]). eauto.
    + destruct di; [|by injection Hstep as <-].
      apply bind_Ok in Hstep as (r1 & Hr1 & [= <-]).
      eauto using DeleteFromItemId_consistent.
Qed.

Lemma NodeDelete_consistent fuel : ∀ pl root di force r,
  children_consistent pl →
  playlist_NodeDelete fuel pl root di force = Ok r → children_consistent r.1.
Proof.
  induction fuel as [|fuel IH]; intros pl root di force r Hc; simpl; [done|].
  intros (it & _ & H)%bind_Ok.
  destruct (i_children it =? -1); [by injection H as <-|].
  apply bind_Ok in H as (pl1 & Hloop & H).
  apply delete_children_consistent in Hloop; [|eauto|done].
  apply bind_Ok in H as (it1 & Hit1%deref_Ok & H).
  destruct (_ && _); [by injection H as <-|].
  apply bind_Ok in H as (pl2 & Hd & [= <-]). simpl.
  eauto using destroy_item_consistent.
Qed.

Lemma NodeEmpty_consistent fuel pl root di r :
  children_consistent pl →
  playlist_NodeEmpty fuel pl root di = Ok r → children_consistent r.1.
Proof.
  intros Hc. unfold playlist_NodeEmpty. intros (it & _ & H)%bind_Ok.
  destruct (i_children it =? -1); [by injection H as <-|].
  apply bind_Ok in H as (pl1 & Hloop & [= <-]). simpl.
  eapply delete_children_consistent; [|exact Hc|exact Hloop].
  intros ? ? ?. apply NodeDelete_consistent.
Qed.

Lemma NodeRemoveItem_consistent pl item parent r :
  children_consistent pl →
  playlist_NodeRemoveItem pl item parent = Ok r → children_consistent r.1.
Proof.
  intros Hc H.
  assert (∃ par, items pl !! parent = Some par) as [par Hpar].
  { unfold playlist_NodeRemoveItem in H.
    apply bind_Ok in H as (par & ?%deref_Ok & _). eauto. }
  rewrite (NodeRemoveItem_run _ _ _ par) in H; [|done|by apply (Hc parent)].
  injection H as <-. simpl.
  eapply consistent_store_shrunk; eauto using detach_shrunk.
Qed.

Lemma INSERT_ELEM_Ok a pos x a' :
  INSERT_ELEM a pos x = Ok a' →
  ∃ n, a' = take n a ++ x :: drop n a.
Proof.
  unfold INSERT_ELEM. destruct (_ && _); [|done]. intros [= <-]. eauto.
Qed.

Lemma NodeInsert_consistent pl item parent pos r :
  children_consistent pl → (∀ c, ¬ lists pl c item) →
  playlist_NodeInsert pl item parent pos = Ok r → children_consistent r.1.
Proof.
  intros Hc Hno. unfold playlist_NodeInsert.
  destruct parent as [P|]; [|done].
  intros (par & Hpar%deref_Ok & H)%bind_Ok.
  destruct (children par) as [a|] eqn:Ha; [|done].
  apply bind_Ok in H as (a' & [n ->]%INSERT_ELEM_Ok & H).
  apply bind_Ok in H as (it1 & Hit1%deref_Ok & [= <-]). simpl in *.
  set (a' := take n a ++ item :: drop n a) in *.
  assert (Ha' : pp_children par = a) by (unfold pp_children; by rewrite Ha).
  assert (Hitem : item ∉ a).
  { intros Hin. apply (Hno P). exists par. by rewrite Ha'. }
  assert (Hnd : NoDup a').
  { destruct (Hc P par Hpar) as [Hnda _]. rewrite Ha' in Hnda.
    rewrite <- (take_drop n a) in Hnda, Hitem.
    apply NoDup_app in Hnda as (? & Hd & ?).
    apply not_elem_of_app in Hitem as [? ?].
    apply NoDup_app. split; [done|]. split; [|by apply NoDup_cons].
    intros x Hx [->|?]%elem_of_cons; [done|]. by apply (Hd x). }
  assert (Hel : ∀ x, x ∈ a' → x = item ∨ x ∈ a).
  { intros x [?|[->|?]%elem_of_cons]%elem_of_app; auto; right.
    - by eapply subseteq_take. - by eapply subseteq_drop. }
  (* every node of the old heap is still there, with the new parent for
     [item] and the new children for [P] *)
  set (h2 := <[item := with_parent it1 (Some P)]>
               (<[P := with_children par (Some a')]> (items pl))).
  assert (Hlook : ∀ x itx, items pl !! x = Some itx →
            ∃ itx', h2 !! x = Some itx' ∧
              p_parent itx' = (if decide (x = item) then Some P else p_parent itx) ∧
              pp_children itx' = (if decide (x = P) then a' else pp_children itx)).
  { intros x itx Hx. unfold h2. destruct (decide (x = item)) as [->|Hxi].
    - rewrite lookup_insert_eq. eexists. split; [done|]. split; [done|].
      destruct (decide (item = P)) as [->|HiP].
      + rewrite lookup_insert_eq in Hit1. by injection Hit1 as <-.
      + rewrite lookup_insert_ne in Hit1 by done.
        rewrite Hx in Hit1. by injection Hit1 as <-.
    - rewrite lookup_insert_ne by done. destruct (decide (x = P)) as [->|HxP].
      + rewrite lookup_insert_eq. eexists. split; [done|]. split; [|done].
        simpl. congruence.
      + rewrite lookup_insert_ne by done. eauto. }
  assert (Hback : ∀ x itx', h2 !! x = Some itx' → is_Some (items pl !! x)).
  { intros x itx'. unfold h2. destruct (decide (x = item)) as [->|Hxi].
    - intros _. destruct (decide (item = P)) as [->|HiP]; [eauto|].
      rewrite lookup_insert_ne in Hit1 by done. eauto.
    - rewrite lookup_insert_ne by done. destruct (decide (x = P)) as [->|HxP]; [eauto|].
      rewrite lookup_insert_ne by done. eauto. }
  assert (Hone : ∃ it0, items pl !! item = Some it0).
  { destruct (decide (item = P)) as [->|HiP]; [eauto|].
    rewrite lookup_insert_ne in Hit1 by done. eauto. }
  destruct Hone as [it0 Hit0].
  intros c itc' Hitc'. change (h2 !! c = Some itc') in Hitc'.
  destruct (Hback c itc' Hitc') as [itc Hitc].
  destruct (Hlook c itc Hitc) as (itc'' & Heq & _ & Hch).
  rewrite Hitc' in Heq. injection Heq as <-. rewrite Hch.
  destruct (Hc c itc Hitc) as [Hndc Hinc].
  destruct (decide (c = P)) as [->|HcP].
  - split; [done|]. intros x Hx. destruct (Hel x Hx) as [->|Hxa].
    + destruct (Hlook item it0 Hit0) as (itx' & ? & Hp' & _).
      rewrite decide_True in Hp' by done. exists itx'. split; [exact H|done].
    + assert (itc = par) as -> by congruence.
      destruct (Hinc x) as (itx & Hitx & Hpx); [by rewrite Ha'|].
      destruct (Hlook x itx Hitx) as (itx' & ? & Hp' & _).
      rewrite decide_False in Hp' by (intros ->; done).
      exists itx'. split; [exact H|congruence].
  - split; [done|]. intros x Hx. destruct (Hinc x Hx) as (itx & Hitx & Hpx).
    destruct (Hlook x itx Hitx) as (itx' & ? & Hp' & _).
    rewrite decide_False in Hp'.
    + exists itx'. split; [exact H|congruence].
    + intros ->. apply (Hno c). by exists itc.
Qed.

Lemma NodeCreate_consistent alloc_ok pl name parent flags input r :
  children_consistent pl →
  playlist_NodeCreate alloc_ok pl name parent flags input = Ok r →
  children_consistent r.1.
Proof.
  intros Hc. unfold playlist_NodeCreate, playlist_ItemNewFromInput.
  destruct alloc_ok; [|by intros [= <-]].
  set (p0 := fresh (dom (items pl))).
  assert (Hfresh : items pl !! p0 = None).
  { apply not_elem_of_dom. apply is_fresh. }
  erewrite deref_lookup by (simpl; apply lookup_insert_eq). simpl.
  set (new := with_children _ (Some [])).
  set (pl3 := ARRAY_APPEND _ _).
  assert (H3 : items pl3 = <[p0 := new]> (items pl)).
  { simpl. apply insert_insert_eq. }
  assert (Hno : ∀ c, ¬ lists pl3 c p0).
  { intros c (itc & Hitc & Hin). rewrite H3 in Hitc.
    destruct (decide (p0 = c)) as [<-|Hne].
    - rewrite lookup_insert_eq in Hitc. injection Hitc as <-. by apply elem_of_nil in Hin.
    - rewrite lookup_insert_ne in Hitc by done.
      destruct (Hc c itc Hitc) as [_ Hl]. destruct (Hl p0 Hin) as (? & ? & _).
      congruence. }
  assert (Hc3 : children_consistent pl3).
  { intros c itc. rewrite H3. destruct (decide (p0 = c)) as [<-|Hne].
    - rewrite lookup_insert_eq. intros [= <-]. split; [constructor|].
      intros x Hx. by apply elem_of_nil in Hx.
    - rewrite lookup_insert_ne by done. intros Hitc.
      destruct (Hc c itc Hitc) as [Hnd Hl]. split; [done|].
      intros x Hx. destruct (Hl x Hx) as (itx & Hitx & ?).
      exists itx. split; [|done]. rewrite lookup_insert_ne; [done|congruence]. }
  intros (pl4 & H4 & H)%bind_Ok.
  assert (Hc4 : children_consistent pl4).
  { destruct parent as [q|]; [|by injection H4 as <-].
    apply bind_Ok in H4 as (r4 & Happ & [= <-]).
    eapply NodeInsert_consistent; [exact Hc3|exact Hno|exact Happ]. }
  apply bind_Ok in H as (it & _ & H).
  apply bind_Ok in H as (pid & _ & [= <-]). exact Hc4.
Qed.

Lemma children_consistent_pair flags : children_consistent (pl_pair flags).
Proof.
  intros c it Hc. unfold pl_pair, mk_playlist in Hc. simpl in Hc.
  apply lookup_insert_Some in Hc as [[<- <-]|[_ Hc]].
  - split; [apply NoDup_singleton|]. intros x ->%list_elem_of_singleton.
    eexists. split; [vm_compute; reflexivity|reflexivity].
  - apply lookup_insert_Some in Hc as [[<- <-]|[_ Hc]]; [|done].
    split; [constructor|]. intros x Hx. by apply elem_of_nil in Hx.
Qed.

Lemma children_consistent_single : children_consistent pl_single.
Proof. apply children_consistent_pair. Qed.

Lemma parent_consistent_pair flags : parent_consistent (pl_pair flags).
Proof.
  intros x it c Hx. unfold pl_pair, mk_playlist in Hx. simpl in Hx.
  apply lookup_insert_Some in Hx as [[<- <-]|[_ Hx]]; [done|].
  apply lookup_insert_Some in Hx as [[<- <-]|[_ Hx]]; [|done].
  intros [= <-]. eexists. split; [reflexivity|].
  apply list_elem_of_singleton. reflexivity.
Qed.

(** C5 as stated fails for RemoveFromParent: on parent(0) = [n(1)], a
    playlist consistent in both directions, RemoveFromParent(1, 0) leaves
    node 1 with its parent reference still at 0 although 0 no longer lists
    it. *)
Lemma NodeRemoveItem_keeps_parent_counterexample :
  children_consistent pl_single ∧ parent_consistent pl_single ∧
  ∃ pl' it par,
    playlist_NodeRemoveItem pl_single 1%nat 0%nat = Ok (pl', VLC_SUCCESS) ∧
    items pl' !! 1%nat = Some it ∧ p_parent it = Some 0%nat ∧
    items pl' !! 0%nat = Some par ∧ children par = Some [] ∧
    ¬ parent_consistent pl'.
Proof.
  split; [apply children_consistent_single|]. split.
  - apply parent_consistent_pair.
  - eexists _, _, _. split; [vm_compute; reflexivity|].
    split; [vm_compute; reflexivity|]. split; [reflexivity|].
    split; [vm_compute; reflexivity|]. split; [reflexivity|].
    intros Hp.
    destruct (Hp 1%nat (mk_node 2 (Some []) (Some 0%nat) 0) 0%nat)
      as (par & Hpar & Hin); [vm_compute; reflexivity|reflexivity|].
    vm_compute in Hpar. injection Hpar as <-.
    by apply elem_of_nil in Hin.
Qed.

(** ** Destruction on a well-formed playlist *)

Lemma shrinks_refl pl : shrinks pl pl.
Proof.
  split; [|split; [|split]].
  - intros x it' H. exists it'. split; [done|apply shrunk_refl].
  - done.
  - exists []. split; [done|]. intros id Hin. by apply elem_of_nil in Hin.
  - intros y ity ity' x Hy Hy'. congruence.
Qed.

Lemma shrinks_dead pl pl' x :
  shrinks pl pl' → items pl !! x = None → items pl' !! x = None.
Proof.
  intros [Hh _] Hx. destruct (items pl' !! x) as [it'|] eqn:Hx'; [|done].
  destruct (Hh x it' Hx') as (it & ? & _). congruence.
Qed.

Lemma shrinks_trans pl1 pl2 pl3 :
  shrinks pl1 pl2 → shrinks pl2 pl3 → shrinks pl1 pl3.
Proof.
  intros H12 H23.
  pose proof (λ x, shrinks_dead _ _ x H23) as Hdead.
  destruct H12 as (Hh12 & Hr12 & (new12 & Hl12 & Hn12) & Hk12).
  destruct H23 as (Hh23 & Hr23 & (new23 & Hl23 & Hn23) & Hk23).
  split; [|split; [|split]].
  - intros x it3 H3. destruct (Hh23 x it3 H3) as (it2 & H2 & ?).
    destruct (Hh12 x it2 H2) as (it1 & H1 & ?).
    exists it1. split; [done|]. by eapply shrunk_trans.
  - by etrans.
  - exists (new23 ++ new12). split; [by rewrite Hl23, Hl12, app_assoc|].
    intros id [Hin|Hin]%elem_of_app.
    + destruct (Hn23 id Hin) as (x & it2 & H2 & Hid & H3).
      destruct (Hh12 x it2 H2) as (it1 & H1 & (_ & Hid1 & _)).
      exists x, it1. split; [done|]. split; [congruence|done].
    + destruct (Hn12 id Hin) as (x & it1 & H1 & Hid & H2).
      exists x, it1. auto.
  - intros y it1 it3 x H1 H3 Hin Hx.
    destruct (Hh23 y it3 H3) as (it2 & H2 & _).
    apply (Hk23 y it2 it3 x H2 H3); [|done].
    apply (Hk12 y it1 it2 x H1 H2 Hin).
    destruct Hx as [itx3 Hx3]. destruct (Hh23 x itx3 Hx3) as (? & ? & _). eauto.
Qed.

Lemma shrinks_lists pl pl' c x : shrinks pl pl' → lists pl' c x → lists pl c x.
Proof.
  intros [Hh _] (it' & Hc & Hin). destruct (Hh c it' Hc) as (it & ? & Hs).
  exists it. split; [done|]. destruct Hs as (_ & _ & _ & _ & Hsub).
  by eapply elem_of_sublist.
Qed.

Lemma well_formed_shrinks rank pl pl' :
  well_formed rank pl → shrinks pl pl' → children_consistent pl' →
  (∀ x, x ∈ all_items pl' ↔ is_Some (items pl' !! x)) →
  well_formed rank pl'.
Proof.
  intros Hwf Hs Hc Hreg. split; [done| |done| |].
  - intros c x Hl. eapply wf_rank; eauto using shrinks_lists.
  - destruct Hs as (_ & Hsub & _). eapply sublist_NoDup; [|exact Hsub].
    by eapply wf_nodup.
  - destruct Hs as (Hh & _). intros x y itx ity Hx Hy Hid.
    destruct (Hh x itx Hx) as (itx0 & Hx0 & (_ & Hidx & _)).
    destruct (Hh y ity Hy) as (ity0 & Hy0 & (_ & Hidy & _)).
    eapply (wf_ids rank pl Hwf); eauto. congruence.
Qed.

Lemma clears_refl pl : clears pl pl.
Proof. intros x y _ (ity & Hy & _). eauto. Qed.

Lemma clears_trans pl1 pl2 pl3 :
  shrinks pl1 pl2 → shrinks pl2 pl3 → clears pl1 pl2 → clears pl2 pl3 →
  clears pl1 pl3.
Proof.
  intros (Hh12 & _ & _ & Hk12) [Hh23 _] Ho12 Ho23.
  assert (Hlive : ∀ x, is_Some (items pl3 !! x) → is_Some (items pl2 !! x)).
  { intros x [it3 H3]. destruct (Hh23 x it3 H3) as (? & ? & _). eauto. }
  intros x y Hx (it1 & H1 & Hin).
  destruct (Ho12 x y (Hlive x Hx)) as [it2 H2]; [by exists it1|].
  apply (Ho23 x y Hx). exists it2. split; [done|]. eauto.
Qed.

Lemma ARRAY_BSEARCH_found pl p it :
  (∀ x y itx ity, items pl !! x = Some itx → items pl !! y = Some ity →
                  i_id itx = i_id ity → x = y) →
  items pl !! p = Some it →
  ∀ l, (∀ e, e ∈ l → is_Some (items pl !! e)) → p ∈ l →
  ∃ i, ARRAY_BSEARCH pl l (i_id it) = Ok (Some i) ∧ l !! i = Some p.
Proof.
  intros Hids Hp. induction l as [|e l IH]; intros Hlive Hin.
  - by apply elem_of_nil in Hin.
  - simpl. destruct (Hlive e) as [ite He]; [left|].
    rewrite (deref_lookup _ _ _ He). simpl.
    destruct (Z.eqb_spec (i_id ite) (i_id it)) as [Heq|Hne].
    + exists 0%nat. split; [done|]. simpl. f_equal. eauto.
    + apply elem_of_cons in Hin as [->|Hin]; [congruence|].
      destruct IH as (i & -> & Hi); [|done|].
      * intros e' He'. apply Hlive. by right.
      * exists (S i). done.
Qed.

Lemma destroy_item_post rank pl p it :
  well_formed rank pl → items pl !! p = Some it →
  (∀ parent, p_parent it = Some parent → lists pl parent p) →
  ∃ pl', destroy_item pl p it = Ok pl' ∧
    well_formed rank pl' ∧ shrinks pl pl' ∧
    items pl' !! p = None ∧
    (∀ x, x ≠ p → p_parent it ≠ Some x → items pl' !! x = items pl !! x) ∧
    (∀ parent par, p_parent it = Some parent → items pl !! parent = Some par →
       items pl' !! parent = Some (detach p par)) ∧
    (pp_children it = [] → clears pl pl').
Proof.
  intros Hwf Hp Hpar.
  pose proof (wf_children _ _ Hwf) as Hc.
  destruct (ARRAY_BSEARCH_found pl p it (wf_ids _ _ Hwf) Hp (all_items pl))
    as (i & Hsearch & Hi).
  { intros e. apply (wf_registered _ _ Hwf). }
  { apply (wf_registered _ _ Hwf). eauto. }
  (* the heap after detaching, in both cases *)
  assert (∃ h, destroy_item pl p it = Ok (destroyed pl p it (Some i) h) ∧
            children_consistent (destroyed pl p it (Some i) h) ∧
            ∀ x, h !! x = if decide (p_parent it = Some x)
                          then detach p <$> items pl !! x
                          else items pl !! x) as (h & Hrun & Hc' & Hh).
  { rewrite destroy_item_shape, Hsearch by done. simpl.
    destruct (consistent_destroyed pl p it (Some i) Hc Hp) as [HS HN].
    destruct (p_parent it) as [P|] eqn:HP.
    - destruct (Hpar P eq_refl) as (itP & HitP & _).
      rewrite (deref_lookup _ _ _ HitP). simpl. eexists. split; [done|].
      split; [by apply HS|]. intros x. destruct (decide (Some P = Some x)) as [[= <-]|Hne].
      + by rewrite lookup_insert_eq, HitP.
      + rewrite lookup_insert_ne; [done|congruence].
    - eexists. split; [done|]. split; [by apply HN|].
      intros x. by rewrite decide_False. }
  assert (Hlook : ∀ x, x ≠ p → items (destroyed pl p it (Some i) h) !! x = h !! x).
  { intros x Hx. simpl. by rewrite lookup_delete_ne. }
  assert (Hsh : ∀ x it', h !! x = Some it' →
                  ∃ itx, items pl !! x = Some itx ∧ shrunk itx it' ∧
                    (it' = itx ∨ it' = detach p itx)).
  { intros x it'. rewrite Hh. case_decide.
    - destruct (items pl !! x) as [itx|]; [|done]. intros [= <-].
      exists itx. eauto using detach_shrunk.
    - intros Hx. exists it'. eauto using shrunk_refl. }
  assert (Hs : shrinks pl (destroyed pl p it (Some i) h)).
  { split; [|split; [|split]].
    - intros x it'. simpl. intros [Hne Hx]%lookup_delete_Some.
      destruct (Hsh x it' Hx) as (itx & ? & ? & _). eauto.
    - simpl. apply sublist_delete.
    - exists [i_id it]. split; [done|].
      intros id ->%list_elem_of_singleton. exists p, it. simpl.
      by rewrite lookup_delete_eq.
    - intros y ity ity' x Hy. simpl. intros [Hne Hy']%lookup_delete_Some Hin.
      rewrite lookup_delete_is_Some. intros [Hxp _].
      destruct (Hsh y ity' Hy') as (ity0 & Hy0 & _ & [->| ->]);
        rewrite Hy in Hy0; injection Hy0 as <-; [done|].
      rewrite pp_children_detach. by apply remove_first_keeps. }
  exists (destroyed pl p it (Some i) h). split; [done|].
  split; [|split; [done|split; [|split; [|split]]]].
  - apply (well_formed_shrinks rank pl); try done.
    intros x. simpl. rewrite (delete_NoDup_elem _ _ p) by eauto using wf_nodup.
    rewrite (wf_registered _ _ Hwf), lookup_delete_is_Some, Hh.
    destruct (decide (p_parent it = Some x)); rewrite ?fmap_is_Some;
      (split; intros [? ?]; split; auto).
  - simpl. apply lookup_delete_eq.
  - intros x Hx Hnp. rewrite Hlook, Hh by done. by rewrite decide_False.
  - intros P itP HP HitP. rewrite Hlook, Hh.
    + by rewrite decide_True, HitP.
    + intros ->. pose proof (wf_rank _ _ Hwf _ _ (Hpar _ HP)). lia.
  - intros Hnil x y _ (ity & Hy & Hin).
    assert (y ≠ p).
    { intros ->. rewrite Hp in Hy. injection Hy as <-.
      rewrite Hnil in Hin. by apply elem_of_nil in Hin. }
    rewrite Hlook, Hh by done.
    destruct (decide (p_parent it = Some y)); rewrite Hy; simpl; eauto.
Qed.

(** ** Recursive deletion on a well-formed playlist *)

Section delete.
Context (rank : ptr → nat) (di force : bool).

Lemma delete_post_noop pl c itc :
  well_formed rank pl → items pl !! c = Some itc → di = false →
  delete_post rank di force pl c itc pl.
Proof.
  intros Hwf Hc Hdi. split; [done|]. split; [apply shrinks_refl|].
  split; [done|]. split; [eauto|]. congruence.
Qed.

Lemma DeleteFromItemId_leaf pl c itc :
  well_formed rank pl → items pl !! c = Some itc →
  playlist_DeleteFromItemId pl (i_id itc)
    = pl' ← destroy_item pl c itc; Ok (pl', VLC_SUCCESS).
Proof.
  intros Hwf Hc. unfold playlist_DeleteFromItemId.
  destruct (ARRAY_BSEARCH_found pl c itc (wf_ids _ _ Hwf) Hc (all_items pl))
    as (i & -> & Hi).
  { intros e. apply (wf_registered _ _ Hwf). }
  { apply (wf_registered _ _ Hwf). eauto. }
  simpl. unfold array_read. rewrite Hi. simpl.
  by rewrite (deref_lookup _ _ _ Hc).
Qed.

Lemma destroy_delete_post pl c itc :
  well_formed rank pl → items pl !! c = Some itc →
  (∀ parent, p_parent itc = Some parent → lists pl parent c) →
  pp_children itc = [] →
  ∃ pl', destroy_item pl c itc = Ok pl' ∧ delete_post rank di force pl c itc pl'.
Proof.
  intros Hwf Hc Hpar Hnil.
  destruct (destroy_item_post rank pl c itc Hwf Hc Hpar)
    as (pl' & Hrun & Hwf' & Hs & Hdead & Hframe & Hparent & Hpc).
  exists pl'. split; [done|]. split; [done|]. split; [done|].
  split; [|split].
  - intros x Hx Hnp. apply Hframe; [|done]. intros ->. lia.
  - intros parent par HP Hparent'. left. eauto.
  - intros _ _. split; [auto|done].
Qed.

Lemma delete_children_post node_delete r root0 pl0 :
  (∀ pl c itc, (rank c < rank r)%nat → well_formed rank pl →
     items pl !! c = Some itc → children itc ≠ None →
     (∀ parent, p_parent itc = Some parent → lists pl parent c) →
     ∃ pl', node_delete pl c = Ok (pl', VLC_SUCCESS) ∧
            delete_post rank di force pl c itc pl') →
  ∀ k pl a, (k ≤ length a)%nat →
    well_formed rank pl → shrinks pl0 pl →
    items pl !! r = Some (with_children root0 (Some a)) →
    (∀ x, (rank r ≤ rank x)%nat → x ≠ r → items pl !! x = items pl0 !! x) →
    (force = true → di = true → clears pl0 pl ∧ length a = k) →
    ∃ pl' a', delete_children node_delete di r k pl = Ok pl' ∧
      well_formed rank pl' ∧ shrinks pl0 pl' ∧
      items pl' !! r = Some (with_children root0 (Some a')) ∧
      (∀ x, (rank r ≤ rank x)%nat → x ≠ r →
            items pl' !! x = items pl0 !! x) ∧
      (force = true → di = true → clears pl0 pl' ∧ a' = []).
Proof.
  intros Hrec. induction k as [|k IH]; intros pl a Hk Hwf Hs Hr Hframe Hpc.
  - exists pl, a. simpl. repeat (split; [done|]).
    intros Hf Hd. destruct (Hpc Hf Hd) as [? Hlen].
    split; [done|]. by apply length_zero_iff_nil.
  - simpl. rewrite (deref_lookup _ _ _ Hr). simpl.
    destruct (lookup_lt_is_Some_2 a k) as [c Hc]; [lia|].
    change (pp_children (with_children root0 (Some a))) with a.
    unfold array_read. rewrite Hc. simpl.
    assert (Hin : c ∈ a) by (apply list_elem_of_lookup; eauto).
    destruct (wf_children _ _ Hwf r _ Hr) as [Hnd Hkids].
    change (pp_children (with_children root0 (Some a))) with a in Hnd, Hkids.
    destruct (Hkids c Hin) as (itc & Hitc & Hparent).
    rewrite (deref_lookup _ _ _ Hitc). simpl.
    assert (Hlists : lists pl r c) by (eexists; split; [exact Hr|exact Hin]).
    pose proof (wf_rank _ _ Hwf _ _ Hlists) as Hrank.
    assert (Hok : ∀ parent, p_parent itc = Some parent → lists pl parent c).
    { intros parent HP. congruence. }
    (* the three ways of processing the child all meet [delete_post] *)
    assert (∃ pl1,
      (if -1 <? i_children itc
       then r0 ← node_delete pl c; Ok r0.1
       else if di
            then r0 ← playlist_DeleteFromItemId pl (i_id itc); Ok r0.1
            else Ok pl) = Ok pl1 ∧
      delete_post rank di force pl c itc pl1) as (pl1 & -> & Hpost).
    { destruct (Z.ltb_spec (-1) (i_children itc)) as [Hcont|Hleaf].
      - destruct (Hrec pl c itc Hrank Hwf Hitc) as (pl1 & -> & Hpost); [|done|eauto].
        intros Hnone%i_children_leaf. lia.
      - assert (Hnil : pp_children itc = []).
        { destruct (i_children_length itc) as [Hl|[_ Hl]]; [|done].
          apply length_zero_iff_nil. lia. }
        destruct di eqn:Hdi.
        + rewrite (DeleteFromItemId_leaf pl c itc Hwf Hitc).
          destruct (destroy_delete_post pl c itc Hwf Hitc Hok Hnil)
            as (pl1 & -> & Hpost).
          rewrite Hdi in Hpost. eauto.
        + exists pl. split; [done|]. rewrite <- Hdi.
          by apply delete_post_noop. }
    simpl.
    destruct Hpost as (Hwf1 & Hs1 & Hframe1 & Hpar1 & Hpc1).
    assert (∃ a1, items pl1 !! r = Some (with_children root0 (Some a1)) ∧
              (k ≤ length a1)%nat ∧
              (items pl1 !! c = None → length a1 = (length a - 1)%nat))
      as (a1 & Hr1 & Hk1 & Hlen1).
    { destruct (Hpar1 r _ Hparent Hr) as [[Hdead Heq]|[[? Hlive] Heq]].
      - exists (remove_first c a). split; [done|].
        pose proof (remove_first_length c a Hin). split; lia.
      - exists a. split; [done|]. split; [lia|]. congruence. }
    destruct (IH pl1 a1) as (pl' & a' & Hrun & Hpost'); try done.
    + by eapply shrinks_trans.
    + intros x Hx Hne. rewrite Hframe1, Hframe; try done; [lia|congruence].
    + intros Hf Hd. destruct (Hpc Hf Hd) as [Hcl Hlen].
      destruct (Hpc1 Hf Hd) as [Hcl1 Hdead].
      split; [by apply (clears_trans pl0 pl pl1)|].
      rewrite (Hlen1 Hdead). lia.
    + exists pl', a'. split; [exact Hrun|exact Hpost'].
Qed.

Lemma NodeDelete_post : ∀ fuel pl r itr,
  (rank r < fuel)%nat → well_formed rank pl →
  items pl !! r = Some itr → children itr ≠ None →
  (∀ parent, p_parent itr = Some parent → lists pl parent r) →
  ∃ pl', playlist_NodeDelete fuel pl r di force = Ok (pl', VLC_SUCCESS) ∧
    delete_post rank di force pl r itr pl' ∧
    (is_readonly itr = true → force = false → is_Some (items pl' !! r)).
Proof.
  induction fuel as [|fuel IH]; intros pl r itr Hfuel Hwf Hr Hcont Hpar; [lia|].
  simpl. rewrite (deref_lookup _ _ _ Hr). simpl.
  destruct (children itr) as [a0|] eqn:Ha0; [|done].
  assert (Hic : i_children itr = Z.of_nat (length a0)).
  { unfold i_children. by rewrite Ha0. }
  destruct (Z.eqb_spec (i_children itr) (-1)) as [?|_]; [lia|].
  rewrite Hic, Nat2Z.id.
  destruct (delete_children_post
              (λ pl c, playlist_NodeDelete fuel pl c di force) r itr pl)
    with (k := length a0) (pl := pl) (a := a0)
    as (pl1 & a' & -> & Hwf1 & Hs1 & Hr1 & Hframe1 & Hpc1).
  { intros pl2 c itc Hrank Hwf2 Hc Hcc Hok.
    destruct (IH pl2 c itc) as (pl' & ? & ? & _); eauto. lia. }
  { done. }
  { done. }
  { apply shrinks_refl. }
  { rewrite <- Ha0. by rewrite with_children_id. }
  { done. }
  { intros _ _. split; [apply clears_refl|done]. }
  simpl. rewrite (deref_lookup _ _ _ Hr1). simpl.
  fold (is_readonly itr).
  assert (HP1 : ∀ P, p_parent itr = Some P →
            items pl1 !! P = items pl !! P ∧ P ≠ r).
  { intros P HP. pose proof (wf_rank _ _ Hwf _ _ (Hpar P HP)).
    assert (P ≠ r) by (intros ->; lia).
    split; [apply Hframe1; [lia|done]|done]. }
  destruct (is_readonly itr && negb force) eqn:Hro.
  - eexists. split; [done|].
    apply andb_true_iff in Hro as [_ Hnf%negb_true_iff].
    split; [|eauto]. split; [done|]. split; [done|].
    split; [|split].
    + intros x Hx _. apply Hframe1; [lia|]. intros ->. lia.
    + intros P itP HP HitP. right. split; [eauto|].
      destruct (HP1 P HP) as [-> _]. done.
    + congruence.
  - destruct (destroy_item_post rank pl1 r (with_children itr (Some a')))
      as (pl2 & -> & Hwf2 & Hs2 & Hdead & Hframe2 & Hparent2 & Hpc2); try done.
    { simpl. intros P HP. destruct (HP1 P HP) as [Heq _].
      destruct (Hpar P HP) as (itP & HitP & Hin).
      exists itP. split; [congruence|done]. }
    simpl. eexists. split; [done|]. split.
    + split; [done|]. split; [by eapply shrinks_trans|].
      split; [|split].
      * intros x Hx Hnp. assert (x ≠ r) by (intros ->; lia).
        rewrite Hframe2; [apply Hframe1; [lia|done]|done|done].
      * intros P itP HP HitP. left. split; [done|].
        apply Hparent2; [done|]. destruct (HP1 P HP) as [-> _]. done.
      * intros Hf Hd. destruct (Hpc1 Hf Hd) as [Hcl ->].
        split; [|done].
        apply (clears_trans pl pl1 pl2); auto.
    + intros Hro' Hf. rewrite Hro', Hf in Hro. done.
Qed.
End delete.

Lemma lookup_tree flags x it :
  items (pl_tree flags) !! x = Some it →
  (x = 0%nat ∧ it = mk_node 1 (Some [1; 4]%nat) None flags) ∨
  (x = 1%nat ∧ it = mk_node 2 (Some [2; 3]%nat) (Some 0%nat) 0) ∨
  (x = 2%nat ∧ it = mk_node 3 None (Some 1%nat) 0) ∨
  (x = 3%nat ∧ it = mk_node 4 None (Some 1%nat) 0) ∨
  (x = 4%nat ∧ it = mk_node 5 None (Some 0%nat) 0).
Proof.
  intros Hx. unfold pl_tree, mk_playlist in Hx. simpl in Hx.
  repeat (apply lookup_insert_Some in Hx as [[<- <-]|[_ Hx]]; [tauto|]).
  done.
Qed.

Lemma well_formed_tree flags : well_formed rank_tree (pl_tree flags).
Proof.
  assert (Hreg : all_items (pl_tree flags) = [0; 1; 2; 3; 4]%nat) by done.
  split.
  - intros c it Hc.
    destruct (lookup_tree _ _ _ Hc) as [[-> ->]|[[-> ->]|[[-> ->]|[[-> ->]|[-> ->]]]]];
      (split; [apply (bool_decide_unpack _); vm_compute; exact I|]);
      intros x Hx; simpl in Hx;
      repeat (apply elem_of_cons in Hx as [->|Hx];
              [eexists; split; [vm_compute; reflexivity|reflexivity]|]);
      by apply elem_of_nil in Hx.
  - intros c x (it & Hc & Hx).
    destruct (lookup_tree _ _ _ Hc) as [[-> ->]|[[-> ->]|[[-> ->]|[[-> ->]|[-> ->]]]]];
      simpl in Hx;
      repeat (apply elem_of_cons in Hx as [->|Hx]; [vm_compute; lia|]);
      by apply elem_of_nil in Hx.
  - intros x. rewrite Hreg. split.
    + intros Hx.
      repeat (apply elem_of_cons in Hx as [->|Hx];
              [eexists; vm_compute; reflexivity|]).
      by apply elem_of_nil in Hx.
    + intros [it Hx].
      destruct (lookup_tree _ _ _ Hx) as [[-> _]|[[-> _]|[[-> _]|[[-> _]|[-> _]]]]];
        apply (bool_decide_unpack _); vm_compute; exact I.
  - rewrite Hreg. apply (bool_decide_unpack _). vm_compute. exact I.
  - intros x y itx ity Hx Hy.
    destruct (lookup_tree _ _ _ Hx) as [[-> ->]|[[-> ->]|[[-> ->]|[[-> ->]|[-> ->]]]]];
      destruct (lookup_tree _ _ _ Hy) as [[-> ->]|[[-> ->]|[[-> ->]|[[-> ->]|[-> ->]]]]];
      simpl; done.
Qed.

(** ** Which mutations keep which half of the consistency *)

Lemma parent_consistent_tree flags : parent_consistent (pl_tree flags).
Proof.
  intros x it c Hx Hc.
  destruct (lookup_tree _ _ _ Hx) as [[-> ->]|[[-> ->]|[[-> ->]|[[-> ->]|[-> ->]]]]];
    simpl in Hc; try done; injection Hc as <-;
    (eexists; split; [vm_compute; reflexivity|]);
    apply list_elem_of_In; simpl; auto.
Qed.

Lemma lookup_ro_inner x it :
  items pl_ro_inner !! x = Some it →
  (x = 0%nat ∧ it = mk_node 1 (Some [1]%nat) None 0) ∨
  (x = 1%nat ∧ it = mk_node 2 (Some [2]%nat) (Some 0%nat) 0) ∨
  (x = 2%nat ∧ it = mk_node 3 (Some [3; 5]%nat) (Some 1%nat) PLAYLIST_RO_FLAG) ∨
  (x = 3%nat ∧ it = mk_node 4 (Some [4]%nat) (Some 2%nat) 0) ∨
  (x = 4%nat ∧ it = mk_node 5 None (Some 3%nat) 0) ∨
  (x = 5%nat ∧ it = mk_node 6 None (Some 2%nat) 0).
Proof.
  intros Hx. unfold pl_ro_inner, mk_playlist in Hx. simpl in Hx.
  repeat (apply lookup_insert_Some in Hx as [[<- <-]|[_ Hx]]; [tauto|]).
  done.
Qed.

Lemma well_formed_ro_inner : well_formed rank_ro_inner pl_ro_inner.
Proof.
  assert (Hreg : all_items pl_ro_inner = [0; 1; 2; 3; 4; 5]%nat) by done.
  split.
  - intros c it Hc.
    destruct (lookup_ro_inner _ _ Hc)
      as [[-> ->]|[[-> ->]|[[-> ->]|[[-> ->]|[[-> ->]|[-> ->]]]]]];
      (split; [apply (bool_decide_unpack _); vm_compute; exact I|]);
      intros x Hx; simpl in Hx;
      repeat (apply elem_of_cons in Hx as [->|Hx];
              [eexists; split; [vm_compute; reflexivity|reflexivity]|]);
      by apply elem_of_nil in Hx.
  - intros c x (it & Hc & Hx).
    destruct (lookup_ro_inner _ _ Hc)
      as [[-> ->]|[[-> ->]|[[-> ->]|[[-> ->]|[[-> ->]|[-> ->]]]]]];
      simpl in Hx;
      repeat (apply elem_of_cons in Hx as [->|Hx]; [vm_compute; lia|]);
      by apply elem_of_nil in Hx.
  - intros x. rewrite Hreg. split.
    + intros Hx.
      repeat (apply elem_of_cons in Hx as [->|Hx];
              [eexists; vm_compute; reflexivity|]).
      by apply elem_of_nil in Hx.
    + intros [it Hx].
      destruct (lookup_ro_inner _ _ Hx)
        as [[-> _]|[[-> _]|[[-> _]|[[-> _]|[[-> _]|[-> _]]]]]];
        apply (bool_decide_unpack _); vm_compute; exact I.
  - rewrite Hreg. apply (bool_decide_unpack _). vm_compute. exact I.
  - intros x y itx ity Hx Hy.
    destruct (lookup_ro_inner _ _ Hx)
      as [[-> ->]|[[-> ->]|[[-> ->]|[[-> ->]|[[-> ->]|[-> ->]]]]]];
      destruct (lookup_ro_inner _ _ Hy)
        as [[-> ->]|[[-> ->]|[[-> ->]|[[-> ->]|[[-> ->]|[-> ->]]]]]];
      simpl; done.
Qed.

Lemma parent_consistent_ro_inner : parent_consistent pl_ro_inner.
Proof.
  intros x it c Hx Hc.
  destruct (lookup_ro_inner _ _ Hx)
    as [[-> ->]|[[-> ->]|[[-> ->]|[[-> ->]|[[-> ->]|[-> ->]]]]]];
    simpl in Hc; try done; injection Hc as <-;
    (eexists; split; [vm_compute; reflexivity|]);
    apply list_elem_of_In; simpl; auto.
Qed.

Lemma parent_consistent_items pl pl' :
  items pl' = items pl → parent_consistent pl → parent_consistent pl'.
Proof. unfold parent_consistent, lists. intros ->. auto. Qed.

(** Insert keeps the upward half: child arrays only grow, and the inserted
    node names the container that now lists it. *)
Lemma NodeInsert_parent_consistent pl item parent pos r :
  parent_consistent pl →
  playlist_NodeInsert pl item parent pos = Ok r → parent_consistent r.1.
Proof.
  intros Hp. unfold playlist_NodeInsert.
  destruct parent as [P|]; [|done].
  intros (par & Hpar%deref_Ok & H)%bind_Ok.
  destruct (children par) as [a|] eqn:Ha; [|done].
  apply bind_Ok in H as (a' & [n ->]%INSERT_ELEM_Ok & H).
  apply bind_Ok in H as (it1 & Hit1%deref_Ok & [= <-]). simpl in *.
  set (a' := take n a ++ item :: drop n a) in *.
  assert (Ha' : pp_children par = a) by (unfold pp_children; by rewrite Ha).
  assert (Hsub : ∀ x, x ∈ a → x ∈ a').
  { intros x Hx. rewrite <- (take_drop n a) in Hx. unfold a'.
    apply elem_of_app in Hx as [?|?]; apply elem_of_app; [by left|].
    right. by right. }
  assert (Hitem : item ∈ a').
  { unfold a'. apply elem_of_app. right. left. }
  set (h2 := <[item := with_parent it1 (Some P)]>
               (<[P := with_children par (Some a')]> (items pl))).
  assert (Hgrow : ∀ c x, lists pl c x →
            ∃ itc', h2 !! c = Some itc' ∧ x ∈ pp_children itc').
  { intros c x (itc & Hitc & Hin). unfold h2.
    destruct (decide (c = item)) as [->|Hci].
    - rewrite lookup_insert_eq. eexists. split; [done|].
      destruct (decide (item = P)) as [->|HiP].
      + rewrite lookup_insert_eq in Hit1. injection Hit1 as <-.
        assert (itc = par) as -> by congruence.
        apply Hsub. by rewrite <- Ha'.
      + rewrite lookup_insert_ne in Hit1 by done.
        assert (it1 = itc) as -> by congruence. done.
    - rewrite lookup_insert_ne by done.
      destruct (decide (c = P)) as [->|HcP].
      + rewrite lookup_insert_eq. eexists. split; [done|].
        assert (itc = par) as -> by congruence.
        apply Hsub. by rewrite <- Ha'.
      + rewrite lookup_insert_ne by done. eauto. }
  intros x itx' c Hx Hpc. change (h2 !! x = Some itx') in Hx.
  change (∃ itc', h2 !! c = Some itc' ∧ x ∈ pp_children itc').
  destruct (decide (x = item)) as [->|Hxi].
  - unfold h2 in Hx. rewrite lookup_insert_eq in Hx. injection Hx as <-.
    simpl in Hpc. injection Hpc as <-. unfold h2.
    destruct (decide (item = P)) as [->|HiP].
    + rewrite lookup_insert_eq. eexists. split; [done|].
      rewrite lookup_insert_eq in Hit1. by injection Hit1 as <-.
    + rewrite lookup_insert_ne, lookup_insert_eq by done.
      eexists. split; [done|]. done.
  - unfold h2 in Hx. rewrite lookup_insert_ne in Hx by done.
    destruct (decide (x = P)) as [->|HxP].
    + rewrite lookup_insert_eq in Hx. injection Hx as <-. simpl in Hpc.
      apply Hgrow. by apply (Hp P par c).
    + rewrite lookup_insert_ne in Hx by done.
      apply Hgrow. by apply (Hp x itx' c).
Qed.

Lemma NodeCreate_parent_consistent alloc_ok pl name parent flags input r :
  parent_consistent pl →
  playlist_NodeCreate alloc_ok pl name parent flags input = Ok r →
  parent_consistent r.1.
Proof.
  intros Hp. unfold playlist_NodeCreate, playlist_ItemNewFromInput.
  destruct alloc_ok; [|by intros [= <-]].
  set (p0 := fresh (dom (items pl))).
  assert (Hfresh : items pl !! p0 = None).
  { apply not_elem_of_dom. apply is_fresh. }
  erewrite deref_lookup by (simpl; apply lookup_insert_eq). simpl.
  set (new := with_children _ (Some [])).
  set (pl3 := ARRAY_APPEND _ _).
  assert (H3 : items pl3 = <[p0 := new]> (items pl)).
  { simpl. apply insert_insert_eq. }
  assert (Hp3 : parent_consistent pl3).
  { intros x itx c. rewrite H3. destruct (decide (p0 = x)) as [<-|Hne].
    - rewrite lookup_insert_eq. by intros [= <-].
    - rewrite lookup_insert_ne by done. intros Hx Hpc.
      destruct (Hp x itx c Hx Hpc) as (itc & Hitc & Hin).
      exists itc. split; [|done]. rewrite H3, lookup_insert_ne; [done|].
      congruence. }
  intros (pl4 & H4 & H)%bind_Ok.
  assert (Hp4 : parent_consistent pl4).
  { destruct parent as [q|]; [|by injection H4 as <-].
    apply bind_Ok in H4 as (r4 & Happ & [= <-]).
    eapply NodeInsert_parent_consistent; [exact Hp3|exact Happ]. }
  apply bind_Ok in H as (it & _ & H).
  apply bind_Ok in H as (pid & _ & [= <-]). exact Hp4.
Qed.

(** A forced deletion with items destroys whole subtrees, so no survivor
    is left naming a destroyed container. *)
Lemma NodeDelete_forced_parent_consistent rank fuel pl root it r :
  well_formed rank pl → parent_consistent pl →
  items pl !! root = Some it → (rank root < fuel)%nat →
  playlist_NodeDelete fuel pl root true true = Ok r →
  parent_consistent r.1.
Proof.
  intros Hwf Hp Hroot Hfuel Hrun.
  destruct (children it) as [a|] eqn:Ha.
  - destruct (NodeDelete_post rank true true fuel pl root it)
      as (pl' & Hrun' & (_ & Hs & _ & _ & Hcl) & _); auto.
    { congruence. }
    { intros parent HP. by apply (Hp root it parent). }
    rewrite Hrun' in Hrun. injection Hrun as <-. simpl.
    destruct (Hcl eq_refl eq_refl) as [Hclears _].
    destruct Hs as (Hh & _ & _ & Hkeep).
    intros x itx' c Hx Hpc.
    destruct (Hh x itx' Hx) as (itx & Hitx & (_ & _ & Hpar & _)).
    rewrite Hpar in Hpc.
    pose proof (Hp x itx c Hitx Hpc) as Hl.
    destruct (Hclears x c) as [itc' Hitc']; [eauto|done|].
    destruct Hl as (itc & Hitc & Hin).
    exists itc'. split; [done|]. apply (Hkeep c itc itc' x); eauto.
  - destruct fuel as [|fuel]; [lia|]. simpl in Hrun.
    rewrite (deref_lookup _ _ _ Hroot) in Hrun. simpl in Hrun.
    rewrite (proj2 (i_children_leaf it) Ha) in Hrun. simpl in Hrun.
    by injection Hrun as <-.
Qed.

(** C5 (as amended): the mutations that build the tree keep the consistency
    in both directions: after Create, Insert or Append every node listed in a
    live container's children sequence is live, is listed once and names that
    container as its parent, and every parent reference names a container
    that lists the node (Insert and Append for a node that no container
    currently lists).  The mutations that take nodes out (RemoveFromParent,
    Empty, Delete) keep the downward direction; a parent reference is never
    cleared, so the upward direction survives only where nothing is left to
    name a lost container: a forced Delete with items on a well-formed
    playlist keeps it as well. *)
Theorem mutations_keep_consistency pl :
  children_consistent pl →
  (∀ alloc_ok name parent flags input r,
     playlist_NodeCreate alloc_ok pl name parent flags input = Ok r →
     children_consistent r.1 ∧
     (parent_consistent pl → parent_consistent r.1)) ∧
  (∀ item parent pos r,
     (∀ c, ¬ lists pl c item) →
     playlist_NodeInsert pl item parent pos = Ok r →
     children_consistent r.1 ∧
     (parent_consistent pl → parent_consistent r.1)) ∧
  (∀ item parent r,
     (∀ c, ¬ lists pl c item) →
     playlist_NodeAppend pl item parent = Ok r →
     children_consistent r.1 ∧
     (parent_consistent pl → parent_consistent r.1)) ∧
  (∀ item parent r,
     playlist_NodeRemoveItem pl item parent = Ok r →
     children_consistent r.1) ∧
  (∀ fuel root di r,
     playlist_NodeEmpty fuel pl root di = Ok r →
     children_consistent r.1) ∧
  (∀ fuel root di force r,
     playlist_NodeDelete fuel pl root di force = Ok r →
     children_consistent r.1) ∧
  (∀ rank fuel root it r,
     well_formed rank pl → parent_consistent pl →
     items pl !! root = Some it → (rank root < fuel)%nat →
     playlist_NodeDelete fuel pl root true true = Ok r →
     parent_consistent r.1).
Proof.
  intros Hc. split; [|split; [|split; [|split; [|split; [|split]]]]].
  - intros alloc_ok name parent flags input r Hrun. split.
    + eapply NodeCreate_consistent; eauto.
    + intros Hp. eapply NodeCreate_parent_consistent; eauto.
  - intros item parent pos r Hno Hrun. split.
    + eapply NodeInsert_consistent; eauto.
    + intros Hp. eapply NodeInsert_parent_consistent; eauto.
  - intros item parent r Hno Happ. split.
    + eapply NodeInsert_consistent; [exact Hc|exact Hno|exact Happ].
    + intros Hp. eapply NodeInsert_parent_consistent; [exact Hp|exact Happ].
  - intros. eapply NodeRemoveItem_consistent; eauto.
  - intros. eapply NodeEmpty_consistent; eauto.
  - intros. eapply NodeDelete_consistent; eauto.
  - intros rank fuel root it r Hwf Hp Hroot Hfuel Hrun.
    eapply NodeDelete_forced_parent_consistent; eauto.
Qed.

Lemma mutations_keep_consistency_witness :
  children_consistent pl_example ∧ parent_consistent pl_example ∧
  (∃ r, playlist_NodeCreate true pl_example None (Some 1%nat) 0 None = Ok r ∧
        children_consistent r.1 ∧ parent_consistent r.1 ∧
        ∃ new, r.2 = Some new ∧ lists r.1 1%nat new) ∧
  (∃ r, playlist_NodeRemoveItem pl_example 4%nat 0%nat = Ok r ∧
        children_consistent r.1 ∧ lists r.1 0%nat 1%nat) ∧
  (∃ r, playlist_NodeDelete 3 pl_example 1%nat true true = Ok r ∧
        children_consistent r.1 ∧ parent_consistent r.1 ∧
        lists r.1 0%nat 4%nat).
Proof.
  assert (Hc : children_consistent pl_example).
  { apply (wf_children rank_tree). apply well_formed_tree. }
  assert (Hp : parent_consistent pl_example) by apply parent_consistent_tree.
  destruct (mutations_keep_consistency pl_example Hc)
    as (HCreate & _ & _ & HRemove & _ & HDelete & HForced).
  split; [exact Hc|]. split; [exact Hp|]. split; [|split].
  - eexists. split; [vm_compute; reflexivity|]. split; [|split].
    + refine (proj1 (HCreate true None (Some 1%nat) 0 None _ _)).
      vm_compute. reflexivity.
    + refine (proj2 (HCreate true None (Some 1%nat) 0 None _ _) Hp).
      vm_compute. reflexivity.
    + eexists. split; [reflexivity|].
      eexists. split; [vm_compute; reflexivity|].
      apply list_elem_of_In. simpl. auto.
  - eexists. split; [vm_compute; reflexivity|]. split.
    + refine (HRemove 4%nat 0%nat _ _). vm_compute. reflexivity.
    + eexists. split; [vm_compute; reflexivity|].
      apply list_elem_of_In. simpl. auto.
  - eexists. split; [vm_compute; reflexivity|]. split; [|split].
    + refine (HDelete 3%nat 1%nat true true _ _). vm_compute. reflexivity.
    + refine (HForced rank_tree 3%nat 1%nat
                (mk_node 2 (Some [2; 3]%nat) (Some 0%nat) 0) _
                (well_formed_tree 0) Hp _ _ _).
      * vm_compute. reflexivity.
      * vm_compute. lia.
      * vm_compute. reflexivity.
    + eexists. split; [vm_compute; reflexivity|].
      apply list_elem_of_In. simpl. auto.
Defined.

(** The removals other than a forced Delete with items lose the upward
    direction as RemoveFromParent does.  On root[A[A1, A2], B], consistent in
    both directions, Delete(A) and Empty(root) without items destroy A and
    leave the leaf A1 naming it; on top[P[R]] with R read-only, the unforced
    Delete(P) and Empty(top) with items destroy P and leave R naming it. *)
Lemma NodeDelete_NodeEmpty_orphans :
  (parent_consistent pl_example ∧ parent_consistent pl_ro_inner) ∧
  (∃ pl' it,
     playlist_NodeDelete 3 pl_example 1%nat false true
       = Ok (pl', VLC_SUCCESS) ∧
     items pl' !! 2%nat = Some it ∧ p_parent it = Some 1%nat ∧
     items pl' !! 1%nat = None ∧ ¬ parent_consistent pl') ∧
  (∃ pl' it,
     playlist_NodeEmpty 3 pl_example 0%nat false = Ok (pl', VLC_SUCCESS) ∧
     items pl' !! 2%nat = Some it ∧ p_parent it = Some 1%nat ∧
     items pl' !! 1%nat = None ∧ ¬ parent_consistent pl') ∧
  (∃ pl' it,
     playlist_NodeDelete 5 pl_ro_inner 1%nat true false
       = Ok (pl', VLC_SUCCESS) ∧
     items pl' !! 2%nat = Some it ∧ p_parent it = Some 1%nat ∧
     items pl' !! 1%nat = None ∧ ¬ parent_consistent pl') ∧
  (∃ pl' it,
     playlist_NodeEmpty 5 pl_ro_inner 0%nat true = Ok (pl', VLC_SUCCESS) ∧
     items pl' !! 2%nat = Some it ∧ p_parent it = Some 1%nat ∧
     items pl' !! 1%nat = None ∧ ¬ parent_consistent pl').
Proof.
  split; [split; [apply parent_consistent_tree|apply parent_consistent_ro_inner]|].
  repeat split;
    (eexists _, _; split; [vm_compute; reflexivity|];
     split; [vm_compute; reflexivity|]; split; [reflexivity|];
     split; [vm_compute; reflexivity|];
     intros Hp;
     (destruct (Hp 2%nat _ 1%nat ltac:(vm_compute; reflexivity) eq_refl)
        as (par & Hpar & _));
     vm_compute in Hpar; discriminate).
Qed.

(** ** Forced deletion empties the registry of the subtree *)

Lemma subtree_dead pl pl' root :
  clears pl pl' → items pl' !! root = None →
  ∀ x, subtree pl root x → items pl' !! x = None.
Proof.
  intros Ho Hroot.
  apply (rtc_ind_r (λ x, items pl' !! x = None)); [done|].
  intros y x Hy Hl IH.
  destruct (items pl' !! x) as [itx'|] eqn:Hx'; [|done].
  destruct (Ho x y) as [? ?]; [by rewrite Hx'|done|congruence].
Qed.

Lemma registry_ids_elem pl id :
  id ∈ registry_ids pl ↔
  ∃ e it, e ∈ all_items pl ∧ items pl !! e = Some it ∧ i_id it = id.
Proof.
  unfold registry_ids. rewrite list_elem_of_omap. split.
  - intros (e & He & Hid). destruct (items pl !! e) as [it|] eqn:Hit; [|done].
    injection Hid as <-. eauto.
  - intros (e & it & He & Hit & <-). exists e. split; [done|]. by rewrite Hit.
Qed.

(** C7: on a well-formed playlist, Delete(root, deleteItems=true,
    force=true) of a container that is attached to its parent (or has none)
    succeeds, and afterwards no node of root's original subtree (root, every
    descendant container and leaf) is left: its id is not in the registry,
    the node is not registered, not live, and not listed by any container. *)
Theorem NodeDelete_forced_clears_registry rank fuel pl root it :
  well_formed rank pl →
  items pl !! root = Some it → children it ≠ None →
  (∀ parent, p_parent it = Some parent → lists pl parent root) →
  (rank root < fuel)%nat →
  ∃ pl', playlist_NodeDelete fuel pl root true true = Ok (pl', VLC_SUCCESS) ∧
    ∀ x itx, subtree pl root x → items pl !! x = Some itx →
      (i_id itx ∉ registry_ids pl') ∧ (x ∉ all_items pl') ∧
      items pl' !! x = None ∧ ∀ c, ¬ lists pl' c x.
Proof.
  intros Hwf Hroot Hcont Hpar Hfuel.
  destruct (NodeDelete_post rank true true fuel pl root it)
    as (pl' & Hrun & (Hwf' & Hs & _ & _ & Hclear) & _); auto.
  destruct Hclear as [Hcl Hdead]; auto.
  exists pl'. split; [done|]. intros x itx Hsub Hx.
  assert (Hxd : items pl' !! x = None).
  { exact (subtree_dead pl pl' root Hcl Hdead x Hsub). }
  split; [|split; [|split; [done|]]].
  - intros (e & ite' & He & Hite' & Hid)%registry_ids_elem.
    destruct Hs as [Hh _].
    destruct (Hh e ite' Hite') as (ite & Hite & (_ & Hide & _)).
    assert (e = x) as -> by (eapply (wf_ids _ _ Hwf); eauto; congruence).
    congruence.
  - intros [? ?]%(wf_registered _ _ Hwf'). congruence.
  - intros c (itc & Hitc & Hin).
    destruct (wf_children _ _ Hwf' c itc Hitc) as [_ Hl].
    destruct (Hl x Hin) as (? & ? & _). congruence.
Qed.

Lemma NodeDelete_forced_clears_registry_witness :
  ∃ pl', playlist_NodeDelete 3 pl_example 0%nat true true = Ok (pl', VLC_SUCCESS) ∧
    ∀ x itx, subtree pl_example 0%nat x → items pl_example !! x = Some itx →
      (i_id itx ∉ registry_ids pl') ∧ (x ∉ all_items pl') ∧
      items pl' !! x = None ∧ ∀ c, ¬ lists pl' c x.
Proof.
  apply (NodeDelete_forced_clears_registry rank_tree 3 pl_example 0%nat
           (mk_node 1 (Some [1; 4]%nat) None 0)).
  - apply well_formed_tree.
  - reflexivity.
  - discriminate.
  - discriminate.
  - vm_compute. lia.
Defined.

(** * Further properties of the code *)

(** ** Search of a child by name *)

Lemma ChildSearchName_loop_spec pl name : ∀ a,
  (∀ c, c ∈ a → is_Some (items pl !! c)) →
  ∃ r, ChildSearchName_loop pl a name = Ok r ∧
    match r with
    | Some c =>
        ∃ i itc, a !! i = Some c ∧ items pl !! c = Some itc ∧
          psz_name (p_input itc) = name ∧
          ∀ j c' itc', (j < i)%nat → a !! j = Some c' →
            items pl !! c' = Some itc' → psz_name (p_input itc') ≠ name
    | None =>
        ∀ c itc, c ∈ a → items pl !! c = Some itc →
          psz_name (p_input itc) ≠ name
    end.
Proof.
  induction a as [|c a IH]; intros Hlive; simpl.
  - exists None. split; [done|]. intros c itc Hc. by apply elem_of_nil in Hc.
  - destruct (Hlive c) as [itc Hc]; [left|].
    rewrite (deref_lookup _ _ _ Hc). simpl.
    destruct (decide (psz_name (p_input itc) = name)) as [Heq|Hne].
    + exists (Some c). split; [done|]. exists 0%nat, itc.
      repeat split; try done. intros j c' itc' Hj. lia.
    + destruct IH as (r & Hrun & Hr); [intros c' Hc'; apply Hlive; by right|].
      exists r. split; [done|]. destruct r as [c0|].
      * destruct Hr as (i & itc0 & Hi & Hc0 & Hname & Hfirst).
        exists (S i), itc0. repeat split; try done.
        intros [|j] c' itc' Hj Hj' Hc'; simpl in Hj'.
        -- injection Hj' as <-. congruence.
        -- apply (Hfirst j c' itc'); [lia|done|done].
      * intros c' itc' [->|Hin]%elem_of_cons Hc'; [congruence|eauto].
Qed.

(** X1: ChildSearchName on a node whose children are live returns the first
    child, in array order, whose name equals the searched one, and none
    exactly when no child has that name (in particular on a leaf and on an
    empty container). *)
Theorem ChildSearchName_first pl node it name :
  items pl !! node = Some it →
  (∀ c, c ∈ pp_children it → is_Some (items pl !! c)) →
  ∃ r, playlist_ChildSearchName pl node name = Ok r ∧
    match r with
    | Some c =>
        ∃ i itc, pp_children it !! i = Some c ∧ items pl !! c = Some itc ∧
          psz_name (p_input itc) = name ∧
          ∀ j c' itc', (j < i)%nat → pp_children it !! j = Some c' →
            items pl !! c' = Some itc' → psz_name (p_input itc') ≠ name
    | None =>
        ∀ c itc, c ∈ pp_children it → items pl !! c = Some itc →
          psz_name (p_input itc) ≠ name
    end.
Proof.
  intros Hnode Hlive. unfold playlist_ChildSearchName.
  rewrite (deref_lookup _ _ _ Hnode). simpl.
  destruct (Z.ltb_spec (i_children it) 0) as [Hleaf|_].
  - exists None. split; [done|]. intros c itc Hc.
    destruct (i_children_length it) as [Hl|[_ Hnil]]; [lia|].
    rewrite Hnil in Hc. by apply elem_of_nil in Hc.
  - by apply ChildSearchName_loop_spec.
Qed.

Lemma ChildSearchName_first_witness :
  ∃ r, playlist_ChildSearchName pl_example 0%nat "x" = Ok r ∧
    match r with
    | Some c =>
        ∃ i itc, [1; 4]%nat !! i = Some c ∧
          items pl_example !! c = Some itc ∧
          psz_name (p_input itc) = "x"%string ∧
          ∀ j c' itc', (j < i)%nat → [1; 4]%nat !! j = Some c' →
            items pl_example !! c' = Some itc' →
            psz_name (p_input itc') ≠ "x"%string
    | None =>
        ∀ c itc, c ∈ [1; 4]%nat → items pl_example !! c = Some itc →
          psz_name (p_input itc) ≠ "x"%string
    end.
Proof.
  apply (ChildSearchName_first pl_example 0%nat
           (mk_node 1 (Some [1; 4]%nat) None 0) "x").
  - vm_compute. reflexivity.
  - intros c Hc. simpl in Hc.
    repeat (apply elem_of_cons in Hc as [->|Hc];
            [eexists; vm_compute; reflexivity|]).
    by apply elem_of_nil in Hc.
Defined.

(** ** Insertion at a position *)

Lemma INSERT_ELEM_at a (pos : nat) x :
  (pos ≤ length a)%nat →
  INSERT_ELEM a (Z.of_nat pos) x = Ok (take pos a ++ x :: drop pos a).
Proof.
  intros Hpos. unfold INSERT_ELEM.
  assert (H : (0 <=? Z.of_nat pos) && (Z.of_nat pos <=? Z.of_nat (length a)) = true)
    by (rewrite andb_true_iff, !Z.leb_le; lia).
  by rewrite H, Nat2Z.id.
Qed.

Lemma NodeInsert_run pl item parent par a it (pos : nat) :
  items pl !! parent = Some par → children par = Some a →
  items pl !! item = Some it → item ≠ parent → (pos ≤ length a)%nat →
  playlist_NodeInsert pl item (Some parent) (Z.of_nat pos) =
    Ok (store (store pl parent
                 (with_children par (Some (take pos a ++ item :: drop pos a))))
              item (with_parent it (Some parent)), VLC_SUCCESS).
Proof.
  intros Hpar Ha Hit Hne Hpos. unfold playlist_NodeInsert.
  rewrite (deref_lookup _ _ _ Hpar). simpl. rewrite Ha.
  destruct (Z.eqb_spec (Z.of_nat pos) (-1)) as [?|_]; [lia|].
  rewrite INSERT_ELEM_at by done. simpl.
  unfold deref. simpl. rewrite lookup_insert_ne by done. by rewrite Hit.
Qed.

(** X2: Insert of a live node at position [pos] of a live container (with
    [0 <= pos <= number of children]) succeeds: the node sits at index [pos],
    the children before it keep their index, those after it move up by one,
    the node's parent reference is the container, and no other node
    changes. *)
Theorem NodeInsert_at_position pl item parent par a it (pos : nat) :
  items pl !! parent = Some par → children par = Some a →
  items pl !! item = Some it → item ≠ parent → (pos ≤ length a)%nat →
  ∃ pl' par',
    playlist_NodeInsert pl item (Some parent) (Z.of_nat pos)
      = Ok (pl', VLC_SUCCESS) ∧
    items pl' !! parent = Some par' ∧
    length (pp_children par') = S (length a) ∧
    pp_children par' !! pos = Some item ∧
    (∀ j, (j < pos)%nat → pp_children par' !! j = a !! j) ∧
    (∀ j, (pos ≤ j)%nat → pp_children par' !! S j = a !! j) ∧
    items pl' !! item = Some (with_parent it (Some parent)) ∧
    (∀ q, q ≠ parent → q ≠ item → items pl' !! q = items pl !! q).
Proof.
  intros Hpar Ha Hit Hne Hpos. eexists _, _.
  split; [by apply (NodeInsert_run pl item parent par a it pos)|]. simpl.
  split; [rewrite lookup_insert_ne by done; apply lookup_insert_eq|].
  change (pp_children (with_children par (Some ?l))) with l.
  assert (Hlen : length (take pos a) = pos) by (rewrite length_take; lia).
  split; [|split; [|split; [|split; [|split]]]].
  - rewrite length_app, Hlen. simpl. rewrite length_drop. lia.
  - rewrite lookup_app_r, Hlen, Nat.sub_diag by lia. done.
  - intros j Hj. rewrite lookup_app_l by lia. by apply lookup_take_lt.
  - intros j Hj. rewrite lookup_app_r by lia. rewrite Hlen.
    replace (S j - pos)%nat with (S (j - pos)) by lia. simpl.
    rewrite lookup_drop. f_equal. lia.
  - apply lookup_insert_eq.
  - intros q Hq1 Hq2. by rewrite !lookup_insert_ne.
Qed.

Lemma NodeInsert_at_position_witness :
  ∃ pl' par',
    playlist_NodeInsert pl_example 4%nat (Some 1%nat) (Z.of_nat 1)
      = Ok (pl', VLC_SUCCESS) ∧
    items pl' !! 1%nat = Some par' ∧
    length (pp_children par') = S (length [2; 3]%nat) ∧
    pp_children par' !! 1%nat = Some 4%nat ∧
    (∀ j, (j < 1)%nat → pp_children par' !! j = [2; 3]%nat !! j) ∧
    (∀ j, (1 ≤ j)%nat → pp_children par' !! S j = [2; 3]%nat !! j) ∧
    items pl' !! 4%nat
      = Some (with_parent (mk_node 5 None (Some 0%nat) 0) (Some 1%nat)) ∧
    (∀ q, q ≠ 1%nat → q ≠ 4%nat → items pl' !! q = items pl_example !! q).
Proof.
  apply (NodeInsert_at_position pl_example 4%nat 1%nat
           (mk_node 2 (Some [2; 3]%nat) (Some 0%nat) 0) [2; 3]%nat
           (mk_node 5 None (Some 0%nat) 0) 1).
  - vm_compute. reflexivity.
  - reflexivity.
  - vm_compute. reflexivity.
  - lia.
  - simpl. lia.
Defined.

Lemma occurrences_inserted item a pos :
  item ∉ a → occurrences item (take pos a ++ item :: drop pos a) = 1%nat.
Proof.
  intros Hni. rewrite occurrences_app.
  rewrite (occurrences_notin item (take pos a))
    by (intros ?%(subseteq_take pos a); done).
  unfold occurrences. rewrite filter_cons, decide_True by done. simpl.
  fold (occurrences item (drop pos a)).
  rewrite occurrences_notin; [done|]. intros ?%(subseteq_drop pos a). done.
Qed.

Lemma remove_first_inserted item a pos :
  item ∉ a → remove_first item (take pos a ++ item :: drop pos a) = a.
Proof.
  intros Hni. rewrite <- (take_drop pos a) at 3.
  assert (Hpre : item ∉ take pos a) by (intros ?%(subseteq_take pos a); done).
  induction (take pos a) as [|y l IH]; simpl.
  - by rewrite decide_True.
  - apply not_elem_of_cons in Hpre as [Hne Hpre].
    rewrite decide_False by done. f_equal. auto.
Qed.

(** X3: Insert followed by RemoveFromParent is a round trip on the
    container: when the node was not already a child, the container's
    children sequence is exactly what it was, and the only trace left is the
    node's parent reference, which still names the container. *)
Theorem NodeInsert_then_RemoveItem pl item parent par a it (pos : nat) :
  items pl !! parent = Some par → children par = Some a →
  items pl !! item = Some it → item ≠ parent → (pos ≤ length a)%nat →
  item ∉ a →
  ∃ pl1 pl2,
    playlist_NodeInsert pl item (Some parent) (Z.of_nat pos)
      = Ok (pl1, VLC_SUCCESS) ∧
    playlist_NodeRemoveItem pl1 item parent = Ok (pl2, VLC_SUCCESS) ∧
    pl2 = store pl item (with_parent it (Some parent)).
Proof.
  intros Hpar Ha Hit Hne Hpos Hni. eexists _, _.
  split; [by apply (NodeInsert_run pl item parent par a it pos)|].
  unfold playlist_NodeRemoveItem.
  erewrite deref_lookup; last first.
  { simpl. rewrite lookup_insert_ne by done. apply lookup_insert_eq. }
  simpl. rewrite NodeRemoveItem_loop_once; rewrite ?drop_0.
  - simpl. rewrite remove_first_inserted by done. split; [done|].
    unfold store, with_items. simpl. f_equal.
    apply map_eq. intros q.
    destruct (decide (q = parent)) as [->|Hq].
    + rewrite lookup_insert_eq, (lookup_insert_ne _ item parent) by done.
      rewrite Hpar. f_equal. destruct par. simpl in *. by subst.
    + rewrite (lookup_insert_ne _ parent q) by done.
      destruct (decide (q = item)) as [->|Hq'].
      * by rewrite !lookup_insert_eq.
      * by rewrite !(lookup_insert_ne _ item q), lookup_insert_ne by done.
  - lia.
  - rewrite occurrences_inserted by done. lia.
Qed.

Lemma NodeInsert_then_RemoveItem_witness :
  ∃ pl1 pl2,
    playlist_NodeInsert pl_example 4%nat (Some 1%nat) (Z.of_nat 1)
      = Ok (pl1, VLC_SUCCESS) ∧
    playlist_NodeRemoveItem pl1 4%nat 1%nat = Ok (pl2, VLC_SUCCESS) ∧
    pl2 = store pl_example 4%nat
            (with_parent (mk_node 5 None (Some 0%nat) 0) (Some 1%nat)).
Proof.
  apply (NodeInsert_then_RemoveItem pl_example 4%nat 1%nat
           (mk_node 2 (Some [2; 3]%nat) (Some 0%nat) 0) [2; 3]%nat
           (mk_node 5 None (Some 0%nat) 0) 1).
  - vm_compute. reflexivity.
  - reflexivity.
  - vm_compute. reflexivity.
  - lia.
  - simpl. lia.
  - intros Hin. repeat (apply elem_of_cons in Hin as [Hin|Hin]; [lia|]).
    by apply elem_of_nil in Hin.
Defined.

(** ** Creation: registration, attachment, notification *)

Lemma NodeCreate_run pl name q itq a flags input :
  items pl !! q = Some itq → children itq = Some a →
  ∃ pl' p new,
    playlist_NodeCreate true pl name (Some q) flags input = Ok (pl', Some p) ∧
    p = fresh (dom (items pl)) ∧ items pl !! p = None ∧
    new = {| p_input := match input with
                        | Some i => i
                        | None => input_ItemNewWithType
                                    (default "Undefined"%string name)
                                    ITEM_TYPE_NODE
                        end;
             i_id := i_last_playlist_id pl + 1; children := Some [];
             p_parent := Some q; i_flags := 0 |} ∧
    items pl' = <[p := new]>
                  (<[q := with_children itq (Some (a ++ [p]))]> (items pl)) ∧
    all_items pl' = all_items pl ++ [p] ∧
    i_last_playlist_id pl' = i_last_playlist_id pl + 1 ∧
    add_notify pl' =
      (i_last_playlist_id pl + 1, i_id itq,
       negb (bool_decide (Z.land flags PLAYLIST_NO_REBUILD ≠ 0)))
      :: add_notify pl ∧
    item_deleted pl' = item_deleted pl.
Proof.
  intros Hq Ha.
  set (p0 := fresh (dom (items pl))).
  assert (Hfresh : items pl !! p0 = None).
  { apply not_elem_of_dom. apply is_fresh. }
  assert (Hne : q ≠ p0) by congruence.
  unfold playlist_NodeCreate, playlist_ItemNewFromInput. fold p0.
  erewrite deref_lookup by (simpl; apply lookup_insert_eq). simpl.
  unfold playlist_NodeAppend, playlist_NodeInsert.
  erewrite (deref_lookup _ q) by (simpl; rewrite !lookup_insert_ne by done; exact Hq).
  simpl. rewrite Ha. unfold i_children. rewrite Ha. simpl.
  rewrite INSERT_ELEM_end. simpl.
  erewrite (deref_lookup _ p0); last first.
  { simpl. rewrite lookup_insert_ne by done. apply lookup_insert_eq. }
  simpl.
  erewrite (deref_lookup _ p0) by (simpl; apply lookup_insert_eq). simpl.
  erewrite (deref_lookup _ q); last first.
  { simpl. rewrite lookup_insert_ne by done. apply lookup_insert_eq. }
  simpl. eexists _, p0, _. split; [reflexivity|].
  split; [done|]. split; [done|]. split; [reflexivity|]. simpl.
  split; [|done].
  apply map_eq. intros x. destruct (decide (x = p0)) as [->|Hx].
  - by rewrite !lookup_insert_eq.
  - rewrite !(lookup_insert_ne _ p0 x) by done.
    destruct (decide (x = q)) as [->|Hxq].
    + by rewrite !lookup_insert_eq.
    + by rewrite !(lookup_insert_ne _ q x), !(lookup_insert_ne _ p0 x) by done.
Qed.

(** X4: Create under a live container succeeds when the allocation does: the
    new node sits at an address that held no live node, is an empty
    container without flags whose parent reference is the container, is the
    last child of the container and the last entry of the registry, no other
    node changes, and one add notification is emitted with the node's id, the
    parent's id and "rebuild" unless the no-rebuild flag was passed.  When
    the allocation fails Create returns no node and changes nothing. *)
Theorem NodeCreate_effect pl name q itq a flags input :
  items pl !! q = Some itq → children itq = Some a →
  (∃ pl' p new,
     playlist_NodeCreate true pl name (Some q) flags input = Ok (pl', Some p) ∧
     items pl !! p = None ∧ items pl' !! p = Some new ∧
     children new = Some [] ∧ p_parent new = Some q ∧ i_flags new = 0 ∧
     items pl' !! q = Some (with_children itq (Some (a ++ [p]))) ∧
     (∀ x, x ≠ p → x ≠ q → items pl' !! x = items pl !! x) ∧
     all_items pl' = all_items pl ++ [p] ∧
     add_notify pl' =
       (i_id new, i_id itq,
        negb (bool_decide (Z.land flags PLAYLIST_NO_REBUILD ≠ 0)))
       :: add_notify pl ∧
     item_deleted pl' = item_deleted pl) ∧
  playlist_NodeCreate false pl name (Some q) flags input = Ok (pl, None).
Proof.
  intros Hq Ha. split; [|reflexivity].
  destruct (NodeCreate_run pl name q itq a flags input Hq Ha)
    as (pl' & p & new & Hrun & _ & Hfresh & -> & Hitems & Hreg & _ & Hnot & Hdel).
  assert (Hne : q ≠ p) by congruence.
  eexists pl', p, _. split; [exact Hrun|]. split; [done|]. rewrite Hitems.
  split; [apply lookup_insert_eq|]. simpl. repeat (split; [done|]).
  split; [rewrite lookup_insert_ne by done; apply lookup_insert_eq|].
  split; [|done].
  intros x Hx1 Hx2. by rewrite !lookup_insert_ne.
Qed.

Lemma NodeCreate_effect_witness :
  (∃ pl' p new,
     playlist_NodeCreate true pl_example (Some "n"%string) (Some 1%nat) 0 None
       = Ok (pl', Some p) ∧
     items pl_example !! p = None ∧ items pl' !! p = Some new ∧
     children new = Some [] ∧ p_parent new = Some 1%nat ∧ i_flags new = 0 ∧
     items pl' !! 1%nat
       = Some (with_children (mk_node 2 (Some [2; 3]%nat) (Some 0%nat) 0)
                 (Some ([2; 3]%nat ++ [p]))) ∧
     (∀ x, x ≠ p → x ≠ 1%nat → items pl' !! x = items pl_example !! x) ∧
     all_items pl' = all_items pl_example ++ [p] ∧
     add_notify pl' =
       (i_id new, i_id (mk_node 2 (Some [2; 3]%nat) (Some 0%nat) 0),
        negb (bool_decide (Z.land 0 PLAYLIST_NO_REBUILD ≠ 0)))
       :: add_notify pl_example ∧
     item_deleted pl' = item_deleted pl_example) ∧
  playlist_NodeCreate false pl_example (Some "n"%string) (Some 1%nat) 0 None
    = Ok (pl_example, None).
Proof.
  apply (NodeCreate_effect pl_example (Some "n"%string) 1%nat
           (mk_node 2 (Some [2; 3]%nat) (Some 0%nat) 0) [2; 3]%nat 0 None).
  - vm_compute. reflexivity.
  - reflexivity.
Defined.

(** ** Paired nodes *)

(** The by-address Create refines the by-value one: on the playlist it
    does what playlist_NodeCreate does with the descriptor found at the
    address (or with none, when it has to be created). *)
Lemma NodeCreate_at_erase alloc_ok tbl pl name parent flags p_input r :
  playlist_NodeCreate_at alloc_ok tbl pl name parent flags p_input = Ok r →
  playlist_NodeCreate alloc_ok pl name parent flags
    (a ← p_input; inputs tbl !! a) = Ok (r.1.2, r.2).
Proof.
  unfold playlist_NodeCreate_at. destruct p_input as [a|]; simpl.
  - destruct (inputs tbl !! a) as [input|]; [|done]. simpl.
    intros (r1 & Hr1 & H)%bind_Ok. rewrite Hr1.
    destruct r1 as [pl1 [p|]]; simpl in *; by injection H as <-.
  - rewrite lookup_insert_eq. simpl.
    intros (r1 & Hr1 & H)%bind_Ok.
    change (playlist_NodeCreate alloc_ok pl name parent flags None)
      with (playlist_NodeCreate alloc_ok pl name parent flags
              (Some (input_ItemNewWithType (default "Undefined"%string name)
                       ITEM_TYPE_NODE))).
    rewrite Hr1. destruct r1 as [pl1 [p|]]; simpl in *; by injection H as <-.
Qed.

(** X5: PairCreate under two distinct live root containers, both
    allocations succeeding, yields two distinct new nodes, one appended last
    to each root, both empty containers that hold one and the same item
    descriptor: a single descriptor is allocated (for the category node, at an
    address that held none, named by the given name or Undefined), and both
    nodes hold its address; no other node's descriptor changes.  Both nodes
    have the read-only and skip bits set, and nothing else, exactly when the
    pair is made for service discovery; both are registered, category node
    first. *)
Theorem NodesPairCreate_shares_input tbl pl rc ro itc ac ito ao name b_for_sd :
  rc ≠ ro →
  items pl !! rc = Some itc → children itc = Some ac →
  items pl !! ro = Some ito → children ito = Some ao →
  ∃ tbl' pl' c o cat one a,
    playlist_NodesPairCreate true true
      {| p_root_category := Some rc; p_root_onelevel := Some ro |}
      tbl pl name b_for_sd = Ok (tbl', pl', Some c, Some o) ∧
    c ≠ o ∧ items pl !! c = None ∧ items pl !! o = None ∧
    items pl' !! c = Some cat ∧ items pl' !! o = Some one ∧
    held tbl' !! c = Some a ∧ held tbl' !! o = Some a ∧
    inputs tbl !! a = None ∧
    inputs tbl' = <[a := input_ItemNewWithType
                           (default "Undefined"%string name) ITEM_TYPE_NODE]>
                    (inputs tbl) ∧
    (∀ x, x ≠ c → x ≠ o → held tbl' !! x = held tbl !! x) ∧
    inputs tbl' !! a = Some (p_input cat) ∧
    p_input one = p_input cat ∧
    p_input cat = input_ItemNewWithType (default "Undefined"%string name)
                    ITEM_TYPE_NODE ∧
    children cat = Some [] ∧ children one = Some [] ∧
    p_parent cat = Some rc ∧ p_parent one = Some ro ∧
    i_flags cat = (if b_for_sd
                   then Z.lor PLAYLIST_RO_FLAG PLAYLIST_SKIP_FLAG else 0) ∧
    i_flags one = i_flags cat ∧
    items pl' !! rc = Some (with_children itc (Some (ac ++ [c]))) ∧
    items pl' !! ro = Some (with_children ito (Some (ao ++ [o]))) ∧
    all_items pl' = all_items pl ++ [c; o].
Proof.
  intros Hroots Hrc Hac Hro Hao.
  set (inp := input_ItemNewWithType (default "Undefined"%string name)
                ITEM_TYPE_NODE).
  set (a := fresh (dom (inputs tbl))).
  assert (Ha : inputs tbl !! a = None).
  { apply not_elem_of_dom. apply is_fresh. }
  destruct (NodeCreate_run pl name rc itc ac 0 (Some inp) Hrc Hac)
    as (pl1 & c & cat & Hrun1 & _ & Hc & Hcat & Hitems1 & Hreg1 & _).
  assert (Hc1 : items pl1 !! c = Some cat) by (rewrite Hitems1; apply lookup_insert_eq).
  assert (Hcrc : c ≠ rc) by congruence.
  assert (Hcro : c ≠ ro) by congruence.
  assert (Hro1 : items pl1 !! ro = Some ito).
  { rewrite Hitems1. by rewrite !lookup_insert_ne. }
  destruct (NodeCreate_run pl1 name ro ito ao 0 (Some inp) Hro1 Hao)
    as (pl2 & o & one & Hrun2 & _ & Ho & Hone & Hitems2 & Hreg2 & _).
  assert (Hoc : o ≠ c) by congruence.
  assert (Horo : o ≠ ro) by congruence.
  assert (Horc : o ≠ rc).
  { intros ->. rewrite Hitems1 in Ho.
    rewrite lookup_insert_ne, lookup_insert_eq in Ho by done. done. }
  assert (Ho0 : items pl !! o = None).
  { rewrite Hitems1 in Ho. by rewrite !lookup_insert_ne in Ho. }
  assert (Hc2 : items pl2 !! c = Some cat).
  { rewrite Hitems2. by rewrite !lookup_insert_ne. }
  assert (Ho2 : items pl2 !! o = Some one).
  { rewrite Hitems2. apply lookup_insert_eq. }
  assert (Hrc2 : items pl2 !! rc = Some (with_children itc (Some (ac ++ [c])))).
  { rewrite Hitems2, !lookup_insert_ne, Hitems1 by done.
    rewrite lookup_insert_ne by done. apply lookup_insert_eq. }
  assert (Hro2 : items pl2 !! ro = Some (with_children ito (Some (ao ++ [o])))).
  { rewrite Hitems2, lookup_insert_ne by done. apply lookup_insert_eq. }
  assert (Hreg : all_items pl2 = all_items pl ++ [c; o]).
  { rewrite Hreg2, Hreg1, <- app_assoc. done. }
  assert (Hcall1 : playlist_NodeCreate_at true tbl pl name (Some rc) 0 None
            = Ok ({| inputs := <[a := inp]> (inputs tbl);
                     held := <[c := a]> (held tbl) |}, pl1, Some c)).
  { unfold playlist_NodeCreate_at. fold inp a. simpl.
    rewrite lookup_insert_eq. simpl. rewrite Hrun1. reflexivity. }
  assert (Hcall2 : playlist_NodeCreate_at true
            {| inputs := <[a := inp]> (inputs tbl);
               held := <[c := a]> (held tbl) |} pl1 name (Some ro) 0 (Some a)
            = Ok ({| inputs := <[a := inp]> (inputs tbl);
                     held := <[o := a]> (<[c := a]> (held tbl)) |},
                  pl2, Some o)).
  { unfold playlist_NodeCreate_at. simpl.
    rewrite lookup_insert_eq. simpl. rewrite Hrun2. reflexivity. }
  assert (Hheld : ∀ x, x ≠ c → x ≠ o →
            <[o := a]> (<[c := a]> (held tbl)) !! x = held tbl !! x).
  { intros x Hxc Hxo. by rewrite !lookup_insert_ne. }
  unfold playlist_NodesPairCreate.
  cbn [p_root_category p_root_onelevel].
  rewrite Hcall1, bind_ret. cbv beta zeta. cbn [fst snd].
  rewrite (deref_lookup _ _ _ Hc1), bind_ret. cbn [held].
  rewrite lookup_insert_eq, bind_ret, Hcall2, bind_ret.
  cbv beta zeta. cbn [fst snd].
  destruct b_for_sd.
  - unfold or_flags.
    rewrite (deref_lookup _ _ _ Hc2). simpl.
    erewrite (deref_lookup _ c) by (simpl; apply lookup_insert_eq). simpl.
    erewrite (deref_lookup _ o); last first.
    { simpl. rewrite !lookup_insert_ne by done. exact Ho2. }
    simpl.
    erewrite (deref_lookup _ o) by (simpl; apply lookup_insert_eq). simpl.
    eexists _, _, c, o, _, _, a. split; [reflexivity|]. simpl.
    split; [done|]. split; [done|]. split; [done|].
    split; [rewrite !lookup_insert_ne by done; apply lookup_insert_eq|].
    split; [apply lookup_insert_eq|].
    split; [rewrite lookup_insert_ne by done; apply lookup_insert_eq|].
    split; [apply lookup_insert_eq|]. split; [done|]. split; [done|].
    split; [exact Hheld|].
    split; [subst cat; simpl; apply lookup_insert_eq|].
    rewrite !lookup_insert_ne by done.
    subst cat one. simpl. repeat (split; [done|]). done.
  - eexists _, _, c, o, _, _, a. split; [reflexivity|]. simpl.
    split; [done|]. split; [done|]. split; [done|].
    split; [exact Hc2|]. split; [exact Ho2|].
    split; [rewrite lookup_insert_ne by done; apply lookup_insert_eq|].
    split; [apply lookup_insert_eq|]. split; [done|]. split; [done|].
    split; [exact Hheld|].
    split; [subst cat; simpl; apply lookup_insert_eq|].
    subst cat one. simpl. repeat (split; [done|]). done.
Qed.

Lemma NodesPairCreate_shares_input_witness :
  ∃ tbl' pl' c o cat one a,
    playlist_NodesPairCreate true true
      {| p_root_category := Some 0%nat; p_root_onelevel := Some 1%nat |}
      {| inputs := ∅; held := ∅ |}
      pl_example (Some "sap"%string) true = Ok (tbl', pl', Some c, Some o) ∧
    c ≠ o ∧ items pl_example !! c = None ∧ items pl_example !! o = None ∧
    items pl' !! c = Some cat ∧ items pl' !! o = Some one ∧
    held tbl' !! c = Some a ∧ held tbl' !! o = Some a ∧
    (∅ : gmap nat input_item_t) !! a = None ∧
    inputs tbl' = <[a := input_ItemNewWithType
                           (default "Undefined"%string (Some "sap"%string))
                           ITEM_TYPE_NODE]> ∅ ∧
    (∀ x, x ≠ c → x ≠ o → held tbl' !! x = (∅ : gmap ptr nat) !! x) ∧
    inputs tbl' !! a = Some (p_input cat) ∧
    p_input one = p_input cat ∧
    p_input cat = input_ItemNewWithType
                    (default "Undefined"%string (Some "sap"%string))
                    ITEM_TYPE_NODE ∧
    children cat = Some [] ∧ children one = Some [] ∧
    p_parent cat = Some 0%nat ∧ p_parent one = Some 1%nat ∧
    i_flags cat = (if true
                   then Z.lor PLAYLIST_RO_FLAG PLAYLIST_SKIP_FLAG else 0) ∧
    i_flags one = i_flags cat ∧
    items pl' !! 0%nat
      = Some (with_children (mk_node 1 (Some [1; 4]%nat) None 0)
                (Some ([1; 4]%nat ++ [c]))) ∧
    items pl' !! 1%nat
      = Some (with_children (mk_node 2 (Some [2; 3]%nat) (Some 0%nat) 0)
                (Some ([2; 3]%nat ++ [o]))) ∧
    all_items pl' = all_items pl_example ++ [c; o].
Proof.
  apply (NodesPairCreate_shares_input {| inputs := ∅; held := ∅ |}
           pl_example 0%nat 1%nat).
  - lia.
  - vm_compute. reflexivity.
  - reflexivity.
  - vm_compute. reflexivity.
  - reflexivity.
Defined.

(** ** Deleting and emptying: error and success paths *)

Lemma kind_kept_refl pl : kind_kept pl pl.
Proof. intros x it' H. exists it'. done. Qed.

Lemma kind_kept_trans pl1 pl2 pl3 :
  kind_kept pl1 pl2 → kind_kept pl2 pl3 → kind_kept pl1 pl3.
Proof.
  intros H12 H23 x it3 H3. destruct (H23 x it3 H3) as (it2 & H2 & E23).
  destruct (H12 x it2 H2) as (it1 & H1 & E12). exists it1. split; [done|].
  by rewrite E23.
Qed.

Lemma children_detach_None p it :
  children (detach p it) = None ↔ children it = None.
Proof. unfold detach. simpl. by destruct (children it). Qed.

Lemma destroy_item_kind pl p it pl' :
  children_consistent pl → destroy_item pl p it = Ok pl' → kind_kept pl pl'.
Proof.
  intros Hc. rewrite destroy_item_shape by done.
  intros (o & _ & H)%bind_Ok. destruct (p_parent it) as [parent|].
  - apply bind_Ok in H as (par & Hpar%deref_Ok & [= <-]).
    intros x it'. simpl. intros [Hne Hx]%lookup_delete_Some.
    destruct (decide (parent = x)) as [->|Hpx].
    + rewrite lookup_insert_eq in Hx. injection Hx as <-.
      exists par. split; [done|]. apply children_detach_None.
    + rewrite lookup_insert_ne in Hx by done. eauto.
  - injection H as <-. intros x it'. simpl.
    intros [Hne Hx]%lookup_delete_Some. eauto.
Qed.

Lemma DeleteFromItemId_kind pl id r :
  children_consistent pl → playlist_DeleteFromItemId pl id = Ok r →
  kind_kept pl r.1.
Proof.
  intros Hc. unfold playlist_DeleteFromItemId.
  intros ([i|] & _ & H)%bind_Ok; [|injection H as <-; apply kind_kept_refl].
  apply bind_Ok in H as (p & _ & H).
  apply bind_Ok in H as (it & _ & H).
  apply bind_Ok in H as (pl' & Hd & [= <-]). simpl.
  eauto using destroy_item_kind.
Qed.

Lemma delete_children_kind node_delete di root :
  (∀ pl c r, children_consistent pl → node_delete pl c = Ok r →
             children_consistent r.1 ∧ kind_kept pl r.1) →
  ∀ k pl pl', children_consistent pl →
    delete_children node_delete di root k pl = Ok pl' → kind_kept pl pl'.
Proof.
  intros Hrec. induction k as [|k IH]; intros pl pl' Hc; simpl.
  - intros [= <-]. apply kind_kept_refl.
  - intros (r & _ & H)%bind_Ok. apply bind_Ok in H as (c & _ & H).
    apply bind_Ok in H as (child & _ & H).
    apply bind_Ok in H as (pl1 & Hstep & H).
    assert (children_consistent pl1 ∧ kind_kept pl pl1) as [Hc1 Hk1].
    { destruct (-1 <? i_children child).
      - apply bind_Ok in Hstep as (r1 & Hr1 & [= <-]). eauto.
      - destruct di; [|injection Hstep as <-; eauto using kind_kept_refl].
        apply bind_Ok in Hstep as (r1 & Hr1 & [= <-]).
        eauto using DeleteFromItemId_consistent, DeleteFromItemId_kind. }
    eapply kind_kept_trans; eauto.
Qed.

Lemma NodeDelete_kind fuel : ∀ pl root di force r,
  children_consistent pl →
  playlist_NodeDelete fuel pl root di force = Ok r → kind_kept pl r.1.
Proof.
  induction fuel as [|fuel IH]; intros pl root di force r Hc; simpl; [done|].
  intros (it & _ & H)%bind_Ok.
  destruct (i_children it =? -1); [injection H as <-; apply kind_kept_refl|].
  apply bind_Ok in H as (pl1 & Hloop & H).
  assert (Hrec : ∀ pl c r, children_consistent pl →
            playlist_NodeDelete fuel pl c di force = Ok r →
            children_consistent r.1 ∧ kind_kept pl r.1)
    by eauto using NodeDelete_consistent.
  pose proof (delete_children_kind _ _ _ Hrec _ _ _ Hc Hloop) as Hk1.
  apply delete_children_consistent in Hloop; [|intros; by eapply Hrec|done].
  apply bind_Ok in H as (it1 & _ & H).
  destruct (_ && _); [by injection H as <-|].
  apply bind_Ok in H as (pl2 & Hd & [= <-]). simpl.
  eapply kind_kept_trans; eauto using destroy_item_kind.
Qed.

Section outcome.
Context (rank : ptr → nat) (di force : bool).

(** What NodeDelete does to the node it is called on. *)
Lemma NodeDelete_outcome : ∀ fuel pl r itr,
  (rank r < fuel)%nat → well_formed rank pl →
  items pl !! r = Some itr → children itr ≠ None →
  (∀ parent, p_parent itr = Some parent → lists pl parent r) →
  ∃ pl', playlist_NodeDelete fuel pl r di force = Ok (pl', VLC_SUCCESS) ∧
    delete_post rank di force pl r itr pl' ∧ kind_kept pl pl' ∧
    if is_readonly itr && negb force then is_Some (items pl' !! r)
    else items pl' !! r = None ∧
         ∃ rest, item_deleted pl' = i_id itr :: rest.
Proof.
  intros fuel pl r itr Hfuel Hwf Hr Hcont Hpar.
  destruct (NodeDelete_post rank di force fuel pl r itr)
    as (pl' & Hrun & Hpost & Hro); auto.
  exists pl'. split; [done|]. split; [done|].
  split; [by apply (NodeDelete_kind _ _ _ _ _ _ (wf_children _ _ Hwf) Hrun)|].
  destruct (is_readonly itr && negb force) eqn:Hb.
  { apply andb_true_iff in Hb as [? ?%negb_true_iff]. auto. }
  destruct fuel as [|fuel]; [lia|]. simpl in Hrun.
  rewrite (deref_lookup _ _ _ Hr) in Hrun. simpl in Hrun.
  destruct (children itr) as [a0|] eqn:Ha0; [|done].
  assert (Hic : i_children itr = Z.of_nat (length a0)).
  { unfold i_children. by rewrite Ha0. }
  destruct (Z.eqb_spec (i_children itr) (-1)) as [?|_]; [lia|].
  rewrite Hic, Nat2Z.id in Hrun.
  destruct (delete_children_post rank di force
              (λ pl c, playlist_NodeDelete fuel pl c di force) r itr pl)
    with (k := length a0) (pl := pl) (a := a0)
    as (pl1 & a' & Hloop & Hwf1 & _ & Hr1 & _).
  { intros pl2 c itc Hrank Hwf2 Hc Hcc Hok.
    destruct (NodeDelete_post rank di force fuel pl2 c itc)
      as (pl3 & ? & ? & _); eauto. lia. }
  { done. }
  { done. }
  { apply shrinks_refl. }
  { rewrite <- Ha0. by rewrite with_children_id. }
  { done. }
  { intros _ _. split; [apply clears_refl|done]. }
  rewrite Hloop in Hrun. simpl in Hrun.
  rewrite (deref_lookup _ _ _ Hr1) in Hrun. simpl in Hrun.
  fold (is_readonly itr) in Hrun. rewrite Hb in Hrun.
  apply bind_Ok in Hrun as (pl2 & Hd & [= <-]).
  rewrite destroy_item_shape in Hd by eauto using wf_children.
  apply bind_Ok in Hd as (o & _ & Hd). simpl in Hd.
  destruct (p_parent itr) as [P|].
  - apply bind_Ok in Hd as (par & _ & [= <-]). simpl.
    split; [apply lookup_delete_eq|eauto].
  - injection Hd as <-. simpl. split; [apply lookup_delete_eq|eauto].
Qed.

Lemma spared_shrunk it it' :
  shrunk it it' → (children it' = None ↔ children it = None) →
  spared di force it → spared di force it'.
Proof.
  intros (_ & _ & _ & Hf & _) Hk. unfold spared, is_readonly.
  rewrite Hf. destruct (children it), (children it'); try done.
  - destruct Hk as [Hk _]. by specialize (Hk eq_refl).
  - destruct Hk as [_ Hk]. by specialize (Hk eq_refl).
Qed.

(** The "Delete the children" loop of a container [r] whose recursive calls
    are unforced or forced deletions: the children left in the array are the
    spared ones. *)
Lemma delete_children_spared fuel r root0 pl0 :
  (rank r ≤ fuel)%nat →
  ∀ k pl a, (k ≤ length a)%nat →
    well_formed rank pl → shrinks pl0 pl → kind_kept pl0 pl →
    items pl !! r = Some (with_children root0 (Some a)) →
    (∀ x, (rank r ≤ rank x)%nat → x ≠ r → items pl !! x = items pl0 !! x) →
    (∀ x itx, x ∈ drop k a → items pl !! x = Some itx → spared di force itx) →
    ∃ pl' a',
      delete_children (λ pl c, playlist_NodeDelete fuel pl c di force)
        di r k pl = Ok pl' ∧
      well_formed rank pl' ∧ shrinks pl0 pl' ∧ kind_kept pl0 pl' ∧
      items pl' !! r = Some (with_children root0 (Some a')) ∧
      (∀ x, (rank r ≤ rank x)%nat → x ≠ r →
            items pl' !! x = items pl0 !! x) ∧
      (∀ x itx, x ∈ a' → items pl' !! x = Some itx → spared di force itx).
Proof.
  intros Hfuel. induction k as [|k IH];
    intros pl a Hk Hwf Hs Hkind Hr Hframe Hsp.
  - exists pl, a. simpl. repeat (split; [done|]). by rewrite drop_0 in Hsp.
  - simpl. rewrite (deref_lookup _ _ _ Hr). simpl.
    destruct (lookup_lt_is_Some_2 a k) as [c Hc]; [lia|].
    change (pp_children (with_children root0 (Some a))) with a.
    unfold array_read. rewrite Hc. simpl.
    assert (Hin : c ∈ a) by (apply list_elem_of_lookup; eauto).
    destruct (wf_children _ _ Hwf r _ Hr) as [Hnd Hkids].
    change (pp_children (with_children root0 (Some a))) with a in Hnd, Hkids.
    destruct (Hkids c Hin) as (itc & Hitc & Hparent).
    rewrite (deref_lookup _ _ _ Hitc). simpl.
    assert (Hlists : lists pl r c) by (eexists; split; [exact Hr|exact Hin]).
    pose proof (wf_rank _ _ Hwf _ _ Hlists) as Hrank.
    assert (Hok : ∀ parent, p_parent itc = Some parent → lists pl parent c).
    { intros parent HP. congruence. }
    assert (∃ pl1,
      (if -1 <? i_children itc
       then r0 ← playlist_NodeDelete fuel pl c di force; Ok r0.1
       else if di
            then r0 ← playlist_DeleteFromItemId pl (i_id itc); Ok r0.1
            else Ok pl) = Ok pl1 ∧
      delete_post rank di force pl c itc pl1 ∧ kind_kept pl pl1 ∧
      (is_Some (items pl1 !! c) → spared di force itc))
      as (pl1 & -> & Hpost & Hkind1 & Hsp1).
    { destruct (Z.ltb_spec (-1) (i_children itc)) as [Hcont|Hleaf].
      - assert (Hcc : children itc ≠ None).
        { intros Hnone%i_children_leaf. lia. }
        destruct (NodeDelete_outcome fuel pl c itc)
          as (pl1 & -> & Hpost & Hk1 & Hout); auto; [lia|].
        exists pl1. split; [done|]. split; [done|]. split; [done|].
        intros [? Hlive]. unfold spared.
        destruct (children itc); [|done].
        destruct (is_readonly itc && negb force) eqn:Hb.
        + apply andb_true_iff in Hb as [? ?%negb_true_iff]. done.
        + destruct Hout. congruence.
      - assert (Hleafc : children itc = None).
        { apply i_children_leaf.
          destruct (i_children_length itc) as [Hl|[? _]]; lia. }
        assert (Hnil : pp_children itc = []).
        { unfold pp_children. by rewrite Hleafc. }
        destruct di eqn:Hdi.
        + rewrite (DeleteFromItemId_leaf rank pl c itc Hwf Hitc).
          destruct (destroy_item_post rank pl c itc Hwf Hitc Hok)
            as (pl1 & Hrun & Hwf1 & Hs1 & Hdead & Hfr & Hpa & Hcl).
          rewrite Hrun. simpl. exists pl1. split; [done|].
          split; [|split].
          * split; [done|]. split; [done|]. split; [|split].
            -- intros x Hx Hnp. apply Hfr; [|done]. intros ->. lia.
            -- intros parent par HP Hparent'. left. eauto.
            -- intros _ _. split; [auto|done].
          * eapply destroy_item_kind; eauto using wf_children.
          * intros [? ?]. congruence.
        + exists pl. split; [done|].
          split; [by apply delete_post_noop|].
          split; [apply kind_kept_refl|].
          intros _. unfold spared. by rewrite Hleafc. }
    simpl.
    destruct Hpost as (Hwf1 & Hs1 & Hframe1 & Hpar1 & _).
    assert (∃ a1, items pl1 !! r = Some (with_children root0 (Some a1)) ∧
              (k ≤ length a1)%nat ∧
              (∀ x, x ∈ drop k a1 → x = c ∧ is_Some (items pl1 !! c) ∨
                                    x ∈ drop (S k) a))
      as (a1 & Hr1 & Hk1 & Hdrop).
    { destruct (Hpar1 r _ Hparent Hr) as [[Hdead Heq]|[Hlive Heq]].
      - exists (remove_first c a). split; [done|].
        pose proof (remove_first_length c a Hin). split; [lia|].
        intros x Hx. right.
        assert (Hrem : remove_first c a = delete k a).
        { clear -Hnd Hc. revert k Hc.
          induction Hnd as [|y a Hy Ha IHa]; intros [|k] Hk; simpl in *; try done.
          - injection Hk as ->. by rewrite decide_True.
          - rewrite decide_False; [f_equal; auto|].
            intros ->. apply Hy. apply list_elem_of_lookup. eauto. }
        rewrite Hrem, delete_take_drop, drop_app_length' in Hx; [done|].
        rewrite length_take. lia.
      - exists a. split; [done|]. split; [lia|].
        intros x Hx. rewrite (drop_S _ _ _ Hc) in Hx.
        apply elem_of_cons in Hx as [->|Hx]; auto. }
    destruct (IH pl1 a1) as (pl' & a' & Hrun & Hpost'); try done.
    + by eapply shrinks_trans.
    + by eapply kind_kept_trans.
    + intros x Hx Hne. rewrite Hframe1, Hframe; try done; [lia|congruence].
    + intros x itx1 Hx Hitx1.
      destruct Hs1 as (Hh1 & _).
      destruct (Hh1 x itx1 Hitx1) as (itx & Hitx & Hshr).
      destruct (Hkind1 x itx1 Hitx1) as (itx' & Hitx' & Hk').
      assert (itx' = itx) as -> by congruence.
      apply (spared_shrunk itx itx1 Hshr Hk').
      destruct (Hdrop x Hx) as [[-> Hlive]|Hx'].
      * assert (itx = itc) as -> by congruence. auto.
      * eauto.
    + exists pl', a'. split; [exact Hrun|exact Hpost'].
Qed.
End outcome.

(** ** The descent reaches every node of the subtree *)

Lemma subtree_rank rank pl c x :
  well_formed rank pl → subtree pl c x → (rank x ≤ rank c)%nat.
Proof.
  intros Hwf H. induction H as [|c y x Hl _ IH]; [lia|].
  pose proof (wf_rank _ _ Hwf _ _ Hl). lia.
Qed.

Lemma subtree_leaf pl c itc x :
  items pl !! c = Some itc → pp_children itc = [] → subtree pl c x → x = c.
Proof.
  intros Hc Hnil [->|(y & (it & Hit & Hin) & _)]%rtc_inv; [done|].
  assert (it = itc) as -> by congruence.
  rewrite Hnil in Hin. by apply elem_of_nil in Hin.
Qed.

Lemma lists_unique_parent pl y y' x :
  children_consistent pl → lists pl y x → lists pl y' x → y = y'.
Proof.
  intros Hc (ity & Hy & Hin) (ity' & Hy' & Hin').
  destruct (Hc y ity Hy) as [_ Hl]. destruct (Hl x Hin) as (itx & Hx & Hp).
  destruct (Hc y' ity' Hy') as [_ Hl']. destruct (Hl' x Hin') as (itx' & Hx' & Hp').
  congruence.
Qed.

(** The ancestors of a node form a chain. *)
Lemma subtree_chain pl c c' x :
  children_consistent pl → subtree pl c x → subtree pl c' x →
  subtree pl c c' ∨ subtree pl c' c.
Proof.
  intros Hc H. revert c'.
  apply (rtc_ind_r (R := lists pl)
           (λ x, ∀ c', subtree pl c' x → subtree pl c c' ∨ subtree pl c' c) c);
    [| |exact H].
  - intros c' Hc'. by right.
  - intros y z Hcy Hyz IH c' [->|(y' & Hc'y' & Hy'z)]%rtc_inv_r.
    + left. by eapply rtc_r.
    + assert (y = y') as <- by (by eapply lists_unique_parent).
      by apply IH.
Qed.

Lemma subtree_siblings_disjoint rank pl r c c' x :
  well_formed rank pl → lists pl r c → lists pl r c' → c ≠ c' →
  subtree pl c x → subtree pl c' x → False.
Proof.
  intros Hwf Hrc Hrc' Hne Hx Hx'.
  assert (Hno : ∀ c c', lists pl r c → lists pl r c' → c ≠ c' →
                        ¬ subtree pl c c').
  { intros d d' Hd Hd' Hdd [->|(y & Hdy & Hyd')]%rtc_inv_r; [done|].
    assert (y = r) as -> by (eapply lists_unique_parent; eauto using wf_children).
    pose proof (subtree_rank _ _ _ _ Hwf Hdy).
    pose proof (wf_rank _ _ Hwf _ _ Hd). lia. }
  destruct (subtree_chain pl c c' x (wf_children _ _ Hwf) Hx Hx') as [H|H].
  - by apply (Hno c c').
  - by apply (Hno c' c).
Qed.

Lemma subtree_same pl0 pl c :
  (∀ x, subtree pl0 c x → items pl !! x = items pl0 !! x) →
  ∀ x, subtree pl0 c x → subtree pl c x.
Proof.
  intros Hsame x H.
  apply (rtc_ind_r (R := lists pl0) (λ x, subtree pl c x) c);
    [apply rtc_refl| |exact H].
  intros y z Hcy (ity & Hy & Hin) IH.
  eapply rtc_r; [exact IH|]. exists ity. by rewrite (Hsame y Hcy).
Qed.

Lemma subtree_shrinks pl0 pl c x :
  shrinks pl0 pl → subtree pl c x → subtree pl0 c x.
Proof.
  intros Hs H. induction H as [|c y x Hl _ IH]; [apply rtc_refl|].
  eapply rtc_l; [|exact IH]. by eapply shrinks_lists.
Qed.

Lemma take_delete (a : list ptr) i : take i (delete i a) = take i a.
Proof.
  revert i. induction a as [|y a IH]; intros [|i]; simpl; try done.
  by rewrite IH.
Qed.

Lemma remove_first_delete (a : list ptr) i c :
  NoDup a → a !! i = Some c → remove_first c a = delete i a.
Proof.
  intros Hnd. revert i.
  induction Hnd as [|y a Hy Ha IHa]; intros [|i] Hi; simpl in *; try done.
  - injection Hi as ->. by rewrite decide_True.
  - rewrite decide_False; [f_equal; auto|].
    intros ->. apply Hy. apply list_elem_of_lookup. eauto.
Qed.

Section descent.
Context (rank : ptr → nat) (di force : bool).

(** One round of the "Delete the children" loop on the child [c] of [r]. *)
Lemma delete_child_descent fuel pl r c itc :
  (∀ pl c itc, (rank c < rank r)%nat → well_formed rank pl →
     items pl !! c = Some itc → children itc ≠ None →
     (∀ parent, p_parent itc = Some parent → lists pl parent c) →
     ∃ pl', playlist_NodeDelete fuel pl c di force = Ok (pl', VLC_SUCCESS) ∧
       delete_post rank di force pl c itc pl' ∧ kind_kept pl pl' ∧
       descent di force pl c pl' ∧ outside_kept pl c itc pl') →
  well_formed rank pl → lists pl r c → items pl !! c = Some itc →
  ∃ pl1,
    (if -1 <? i_children itc
     then r0 ← playlist_NodeDelete fuel pl c di force; Ok r0.1
     else if di
          then r0 ← playlist_DeleteFromItemId pl (i_id itc); Ok r0.1
          else Ok pl) = Ok pl1 ∧
    delete_post rank di force pl c itc pl1 ∧ kind_kept pl pl1 ∧
    descent di force pl c pl1 ∧ outside_kept pl c itc pl1.
Proof.
  intros Hrec Hwf Hlists Hitc.
  pose proof (wf_rank _ _ Hwf _ _ Hlists) as Hrank.
  assert (Hparent : p_parent itc = Some r).
  { eapply lists_only_parent; eauto using wf_children. }
  assert (Hok : ∀ parent, p_parent itc = Some parent → lists pl parent c).
  { intros parent HP. congruence. }
  destruct (Z.ltb_spec (-1) (i_children itc)) as [Hcont|Hleaf].
  - assert (Hcc : children itc ≠ None).
    { intros Hnone%i_children_leaf. lia. }
    destruct (Hrec pl c itc) as (pl1 & -> & Hpost & Hk1 & Hd & Hf); auto.
    exists pl1. done.
  - assert (Hleafc : children itc = None).
    { apply i_children_leaf.
      destruct (i_children_length itc) as [Hl|[? _]]; lia. }
    assert (Hnil : pp_children itc = []).
    { unfold pp_children. by rewrite Hleafc. }
    destruct di eqn:Hdi.
    + rewrite (DeleteFromItemId_leaf rank pl c itc Hwf Hitc).
      destruct (destroy_item_post rank pl c itc Hwf Hitc Hok)
        as (pl1 & Hrun & Hwf1 & Hs1 & Hdead & Hfr & Hpa & Hcl).
      rewrite Hrun. simpl. exists pl1. split; [done|].
      split; [|split; [|split]].
      * split; [done|]. split; [done|]. split; [|split].
        -- intros x Hx Hnp. apply Hfr; [|done]. intros ->. lia.
        -- intros parent par HP Hparent'. left. eauto.
        -- intros _ _. split; [auto|done].
      * eapply destroy_item_kind; eauto using wf_children.
      * intros x itx Hx Hitx [? Hlive].
        assert (x = c) as -> by (by eapply subtree_leaf).
        congruence.
      * intros x Hx Hnp. apply Hfr; [|done].
        intros ->. apply Hx. apply rtc_refl.
    + exists pl. split; [done|].
      split; [by apply delete_post_noop|].
      split; [apply kind_kept_refl|]. split.
      * intros x itx Hx Hitx _.
        assert (x = c) as -> by (by eapply subtree_leaf).
        assert (itx = itc) as -> by congruence.
        unfold spared. by rewrite Hleafc.
      * by intros x _ _.
Qed.

(** The "Delete the children" loop: when it ends, every node below the
    children of [r] that is still live was spared, and nothing outside the
    subtree of [r] has changed. *)
Lemma delete_children_descent fuel r root0 a0 pl0 :
  (∀ pl c itc, (rank c < rank r)%nat → well_formed rank pl →
     items pl !! c = Some itc → children itc ≠ None →
     (∀ parent, p_parent itc = Some parent → lists pl parent c) →
     ∃ pl', playlist_NodeDelete fuel pl c di force = Ok (pl', VLC_SUCCESS) ∧
       delete_post rank di force pl c itc pl' ∧ kind_kept pl pl' ∧
       descent di force pl c pl' ∧ outside_kept pl c itc pl') →
  well_formed rank pl0 → items pl0 !! r = Some root0 →
  children root0 = Some a0 →
  ∀ k pl a, (k ≤ length a)%nat →
    well_formed rank pl → shrinks pl0 pl →
    items pl !! r = Some (with_children root0 (Some a)) →
    (∀ c x, c ∈ take k a → subtree pl0 c x →
            items pl !! x = items pl0 !! x) →
    (∀ c x itx, c ∈ a0 → c ∉ take k a → subtree pl0 c x →
       items pl0 !! x = Some itx → is_Some (items pl !! x) →
       spared di force itx) →
    (∀ x, ¬ subtree pl0 r x → items pl !! x = items pl0 !! x) →
    ∃ pl' a',
      delete_children (λ pl c, playlist_NodeDelete fuel pl c di force)
        di r k pl = Ok pl' ∧
      well_formed rank pl' ∧ shrinks pl0 pl' ∧
      items pl' !! r = Some (with_children root0 (Some a')) ∧
      (∀ c x itx, c ∈ a0 → subtree pl0 c x →
         items pl0 !! x = Some itx → is_Some (items pl' !! x) →
         spared di force itx) ∧
      (∀ x, ¬ subtree pl0 r x → items pl' !! x = items pl0 !! x).
Proof.
  intros Hrec Hwf0 Hr0 Ha0.
  assert (Hpp0 : pp_children root0 = a0).
  { unfold pp_children. by rewrite Ha0. }
  induction k as [|k IH]; intros pl a Hk Hwf Hs Hr HU HS HF.
  - exists pl, a. simpl. repeat (split; [done|]). split; [|done].
    intros c x itx Hc. apply HS; [done|]. simpl. apply not_elem_of_nil.
  - simpl. rewrite (deref_lookup _ _ _ Hr). simpl.
    destruct (lookup_lt_is_Some_2 a k) as [c Hc]; [lia|].
    change (pp_children (with_children root0 (Some a))) with a.
    unfold array_read. rewrite Hc. simpl.
    assert (Hin : c ∈ a) by (apply list_elem_of_lookup; eauto).
    destruct (wf_children _ _ Hwf r _ Hr) as [Hnd Hkids].
    change (pp_children (with_children root0 (Some a))) with a in Hnd, Hkids.
    destruct (Hkids c Hin) as (itc & Hitc & Hparent).
    rewrite (deref_lookup _ _ _ Hitc). simpl.
    assert (Hlists : lists pl r c) by (eexists; split; [exact Hr|exact Hin]).
    assert (Hsub : sublist a a0).
    { destruct Hs as (Hh & _). destruct (Hh r _ Hr) as (it0 & Hit0 & Hshr).
      assert (it0 = root0) as -> by congruence.
      destruct Hshr as (_ & _ & _ & _ & Hsl). by rewrite Hpp0 in Hsl. }
    assert (Hlists0 : ∀ c', c' ∈ a → lists pl0 r c').
    { intros c' Hc'. exists root0. split; [done|]. rewrite Hpp0.
      by eapply elem_of_sublist. }
    assert (Htake : c ∈ take (S k) a).
    { apply elem_of_take. exists k. split; [done|lia]. }
    assert (Hsame : ∀ x, subtree pl0 c x → items pl !! x = items pl0 !! x)
      by (intros x; by apply HU).
    destruct (delete_child_descent fuel pl r c itc Hrec Hwf Hlists Hitc)
      as (pl1 & -> & Hpost & Hkind1 & Hdesc & Hout).
    unfold outside_kept in Hout. simpl.
    destruct Hpost as (Hwf1 & Hs1 & _ & Hpar1 & _).
    assert (∃ a1, items pl1 !! r = Some (with_children root0 (Some a1)) ∧
              (k ≤ length a1)%nat ∧ take k a1 = take k a)
      as (a1 & Hr1 & Hk1 & Htk).
    { destruct (Hpar1 r _ Hparent Hr) as [[Hdead Heq]|[Hlive Heq]].
      - exists (remove_first c a). split; [done|].
        pose proof (remove_first_length c a Hin). split; [lia|].
        rewrite (remove_first_delete a k c) by done. apply take_delete.
      - exists a. split; [done|]. split; [lia|done]. }
    assert (HtS : ∀ c', c' ∈ take (S k) a ↔ c' ∈ take k a ∨ c' = c).
    { intros c'. rewrite (take_S_r _ _ _ Hc), elem_of_app.
      by rewrite list_elem_of_singleton. }
    assert (Hnotk : c ∉ take k a).
    { intros (j & Hj & Hlt)%elem_of_take.
      pose proof (NoDup_lookup _ _ _ _ Hnd Hj Hc). lia. }
    assert (Hrne : ∀ c' x, c' ∈ a → subtree pl0 c' x → x ≠ r).
    { intros c' x Hc' Hx ->.
      pose proof (subtree_rank _ _ _ _ Hwf0 Hx).
      pose proof (wf_rank _ _ Hwf0 _ _ (Hlists0 c' Hc')). lia. }
    destruct (IH pl1 a1) as (pl' & a' & Hrun & Hpost'); try done.
    + by eapply shrinks_trans.
    + intros c' x Hc' Hx. rewrite Htk in Hc'.
      assert (Hc'a : c' ∈ a) by (by eapply subseteq_take).
      rewrite Hout.
      * apply (HU c'); [|done]. apply HtS. by left.
      * intros Hxc. apply (subtree_shrinks pl0) in Hxc; [|done].
        apply (subtree_siblings_disjoint rank pl0 r c c' x); auto.
        intros ->. done.
      * rewrite Hparent. intros [= <-]. by apply (Hrne c' r).
    + intros c' x itx Hc' Hnot Hx Hitx Hlive. rewrite Htk in Hnot.
      destruct (decide (c' = c)) as [->|Hne].
      * apply (Hdesc x itx).
        -- by apply (subtree_same pl0 pl c Hsame).
        -- rewrite (Hsame x Hx). exact Hitx.
        -- done.
      * apply (HS c' x itx); try done.
        -- intros [?|?]%HtS; done.
        -- destruct Hlive as [it1 Hit1]. destruct Hs1 as (Hh1 & _).
           destruct (Hh1 x it1 Hit1) as (? & ? & _). eauto.
    + intros x Hx. rewrite Hout.
      * by apply HF.
      * intros Hxc. apply Hx. eapply rtc_l; [apply (Hlists0 c Hin)|].
        by eapply subtree_shrinks.
      * rewrite Hparent. intros [= <-]. apply Hx. apply rtc_refl.
    + exists pl', a'. split; [exact Hrun|exact Hpost'].
Qed.

(** Delete on a container: besides what [NodeDelete_outcome] tells, the
    descent has reached every node of the subtree, and nothing outside the
    subtree has changed except the parent's child array. *)
Lemma NodeDelete_descent : ∀ fuel pl r itr,
  (rank r < fuel)%nat → well_formed rank pl →
  items pl !! r = Some itr → children itr ≠ None →
  (∀ parent, p_parent itr = Some parent → lists pl parent r) →
  ∃ pl', playlist_NodeDelete fuel pl r di force = Ok (pl', VLC_SUCCESS) ∧
    delete_post rank di force pl r itr pl' ∧ kind_kept pl pl' ∧
    descent di force pl r pl' ∧ outside_kept pl r itr pl'.
Proof.
  induction fuel as [|fuel IH]; intros pl r itr Hfuel Hwf Hr Hcont Hpar; [lia|].
  destruct (NodeDelete_outcome rank di force (S fuel) pl r itr)
    as (pl' & Hrun & Hpost & Hkind & Hout); auto.
  exists pl'. split; [done|]. split; [done|]. split; [done|].
  simpl in Hrun. rewrite (deref_lookup _ _ _ Hr) in Hrun. simpl in Hrun.
  destruct (children itr) as [a0|] eqn:Ha0; [|done].
  assert (Hic : i_children itr = Z.of_nat (length a0)).
  { unfold i_children. by rewrite Ha0. }
  destruct (Z.eqb_spec (i_children itr) (-1)) as [?|_]; [lia|].
  rewrite Hic, Nat2Z.id in Hrun.
  destruct (delete_children_descent fuel r itr a0 pl)
    with (k := length a0) (pl := pl) (a := a0)
    as (pl1 & a' & Hloop & Hwf1 & Hs1 & Hr1 & HS & HF); try done.
  { intros pl2 c itc Hrank Hwf2 Hc Hcc Hok. apply IH; auto. lia. }
  { apply shrinks_refl. }
  { rewrite <- Ha0. by rewrite with_children_id. }
  { intros c x itx Hc Hnot. rewrite firstn_all in Hnot. done. }
  rewrite Hloop in Hrun. simpl in Hrun.
  rewrite (deref_lookup _ _ _ Hr1) in Hrun. simpl in Hrun.
  fold (is_readonly itr) in Hrun.
  assert (Hsplit : ∀ x, subtree pl r x →
            x = r ∨ ∃ c, c ∈ a0 ∧ subtree pl c x).
  { intros x [->|(c & (it & Hit & Hin) & Hcx)]%rtc_inv; [by left|].
    right. exists c. split; [|done].
    assert (it = itr) as -> by congruence.
    unfold pp_children in Hin. by rewrite Ha0 in Hin. }
  destruct (is_readonly itr && negb force) eqn:Hb.
  - injection Hrun as <-. split.
    + intros x itx Hx Hitx Hlive.
      destruct (Hsplit x Hx) as [->|(c & Hc & Hcx)]; [|by eapply HS].
      assert (itx = itr) as -> by congruence.
      unfold spared. rewrite Ha0.
      apply andb_true_iff in Hb as [? ?%negb_true_iff]. done.
    + intros x Hx _. by apply HF.
  - apply bind_Ok in Hrun as (pl2 & Hd & [= <-]).
    assert (Hpar1 : ∀ parent, p_parent (with_children itr (Some a')) = Some parent →
              lists pl1 parent r).
    { intros P HP. simpl in HP. destruct (Hpar P HP) as (itP & HitP & Hin).
      exists itP. split; [|done]. rewrite HF; [done|].
      intros HrP. pose proof (subtree_rank _ _ _ _ Hwf HrP).
      assert (lists pl P r) as Hl by (by exists itP).
      pose proof (wf_rank _ _ Hwf _ _ Hl). lia. }
    destruct (destroy_item_post rank pl1 r _ Hwf1 Hr1 Hpar1)
      as (pl2' & Hrun2 & _ & Hs2 & Hdead & Hfr & _).
    rewrite Hrun2 in Hd. injection Hd as <-. split.
    + intros x itx Hx Hitx [it2 Hit2].
      assert (Hlive1 : is_Some (items pl1 !! x)).
      { destruct Hs2 as (Hh2 & _). destruct (Hh2 x it2 Hit2) as (? & ? & _).
        eauto. }
      destruct (Hsplit x Hx) as [->|(c & Hc & Hcx)]; [congruence|].
      by eapply HS.
    + intros x Hx Hnp. rewrite Hfr.
      * by apply HF.
      * intros ->. apply Hx. apply rtc_refl.
      * done.
Qed.
End descent.

(** ** Unforced deletion of a read-only container *)

(** C8 (as amended): on a well-formed playlist, Delete(root, deleteItems,
    force=false) of a read-only container that is attached to its parent (or
    has none) succeeds, performs the recursive descent and keeps root: root
    stays live and registered with the same id, flags, parent reference and
    item, its parent's record (and so its place in the parent's children) is
    unchanged, and no deletion notification carries its id.  The descent has
    reached the whole subtree: a node strictly below root is still live only
    if it is a read-only container or, when items are not deleted, a leaf;
    every other node below root has been destroyed, the result is well-formed
    (so the destroyed nodes are no longer registered), and root's own children
    sequence keeps, in order, exactly its children that are still live.
    Nothing outside the subtree of root has changed. *)
Theorem NodeDelete_readonly_root_kept rank fuel pl root it di :
  well_formed rank pl → items pl !! root = Some it → children it ≠ None →
  is_readonly it = true →
  (∀ parent, p_parent it = Some parent → lists pl parent root) →
  (rank root < fuel)%nat →
  ∃ pl' it' new,
    playlist_NodeDelete fuel pl root di false = Ok (pl', VLC_SUCCESS) ∧
    items pl' !! root = Some it' ∧
    p_input it' = p_input it ∧ i_id it' = i_id it ∧
    p_parent it' = p_parent it ∧ i_flags it' = i_flags it ∧
    sublist (pp_children it') (pp_children it) ∧
    (∀ x, x ∈ pp_children it' ↔
          x ∈ pp_children it ∧ is_Some (items pl' !! x)) ∧
    root ∈ all_items pl' ∧ i_id it ∈ registry_ids pl' ∧
    (∀ parent, p_parent it = Some parent →
       items pl' !! parent = items pl !! parent ∧ lists pl' parent root) ∧
    item_deleted pl' = new ++ item_deleted pl ∧ (i_id it ∉ new) ∧
    well_formed rank pl' ∧
    (∀ x itx, subtree pl root x → x ≠ root → items pl !! x = Some itx →
       is_Some (items pl' !! x) →
       match children itx with
       | None => di = false
       | Some _ => is_readonly itx = true
       end) ∧
    (∀ x, ¬ subtree pl root x → items pl' !! x = items pl !! x).
Proof.
  intros Hwf Hroot Hcont Hro Hpar Hfuel.
  destruct (NodeDelete_post rank di false fuel pl root it)
    as (pl' & Hrun & (Hwf' & Hs & _ & Hparent & _) & Hkept); auto.
  destruct (NodeDelete_descent rank di false fuel pl root it)
    as (pl'' & Hrun' & _ & _ & Hdesc & Hout); auto.
  rewrite Hrun in Hrun'. injection Hrun' as <-.
  destruct (Hkept Hro eq_refl) as [it' Hroot'].
  pose proof Hs as (Hh & _ & (new & Hlog & Hnew) & Hkeep).
  destruct (Hh root it' Hroot') as (it0 & Hroot0 & Hshrunk).
  assert (it0 = it) as -> by congruence.
  destruct Hshrunk as (? & ? & ? & ? & Hsub).
  assert (Hreg : root ∈ all_items pl') by (apply (wf_registered _ _ Hwf'); eauto).
  assert (Hkeptpar : ∀ parent, p_parent it = Some parent →
            items pl' !! parent = items pl !! parent ∧ lists pl' parent root).
  { intros P HP. destruct (Hpar P HP) as (itP & HitP & Hin).
    destruct (Hparent P itP HP HitP) as [[? _]|[_ HP']]; [congruence|].
    split; [congruence|]. by exists itP. }
  exists pl', it', new. repeat (split; [done|]).
  split; [|split; [done|split; [|split; [done|split; [done|split;
    [|split; [done|split]]]]]]].
  - intros x. split.
    + intros Hx. split; [by eapply elem_of_sublist|].
      destruct (wf_children _ _ Hwf' root it' Hroot') as [_ Hl].
      destruct (Hl x Hx) as (? & ? & _). eauto.
    + intros [Hx Hlive]. eauto.
  - apply registry_ids_elem. exists root, it'. auto.
  - intros Hin. destruct (Hnew _ Hin) as (x & itx & Hx & Hid & Hdead).
    assert (x = root) as -> by (eapply (wf_ids _ _ Hwf); eauto).
    congruence.
  - intros x itx Hx Hne Hitx Hlive.
    pose proof (Hdesc x itx Hx Hitx Hlive) as Hsp. unfold spared in Hsp.
    destruct (children itx); [by destruct Hsp|done].
  - intros x Hx. destruct (decide (p_parent it = Some x)) as [HP|HP].
    + by destruct (Hkeptpar x HP).
    + by apply Hout.
Qed.

Lemma NodeDelete_readonly_root_kept_witness :
  ∃ pl' it' new,
    playlist_NodeDelete 3 pl_ro_inner 2%nat true false
      = Ok (pl', VLC_SUCCESS) ∧
    items pl' !! 2%nat = Some it' ∧
    p_input it' = an_input ∧ i_id it' = 3 ∧
    p_parent it' = Some 1%nat ∧ i_flags it' = PLAYLIST_RO_FLAG ∧
    sublist (pp_children it') [3; 5]%nat ∧
    (∀ x, x ∈ pp_children it' ↔
          x ∈ [3; 5]%nat ∧ is_Some (items pl' !! x)) ∧
    2%nat ∈ all_items pl' ∧ 3 ∈ registry_ids pl' ∧
    (∀ parent, Some 1%nat = Some parent →
       items pl' !! parent = items pl_ro_inner !! parent ∧
       lists pl' parent 2%nat) ∧
    item_deleted pl' = new ++ item_deleted pl_ro_inner ∧
    (3 ∉ new) ∧
    well_formed rank_ro_inner pl' ∧
    (∀ x itx, subtree pl_ro_inner 2%nat x → x ≠ 2%nat →
       items pl_ro_inner !! x = Some itx →
       is_Some (items pl' !! x) →
       match children itx with
       | None => true = false
       | Some _ => is_readonly itx = true
       end) ∧
    (∀ x, ¬ subtree pl_ro_inner 2%nat x →
          items pl' !! x = items pl_ro_inner !! x).
Proof.
  apply (NodeDelete_readonly_root_kept rank_ro_inner 3 pl_ro_inner 2%nat
           (mk_node 3 (Some [3; 5]%nat) (Some 1%nat) PLAYLIST_RO_FLAG) true).
  - apply well_formed_ro_inner.
  - reflexivity.
  - discriminate.
  - reflexivity.
  - intros parent [= <-]. eexists. split; [vm_compute; reflexivity|].
    simpl. left.
  - vm_compute. lia.
Defined.

(** C8 as stated fails for the children field: with a read-only root(0)
    whose only child is the container 1, the unforced Delete destroys the
    child, and root's children sequence goes from [1] to the empty one. *)
Lemma NodeDelete_readonly_children_counterexample :
  ∃ pl' it it',
    items pl_readonly !! 0%nat = Some it ∧ is_readonly it = true ∧
    children it = Some [1%nat] ∧
    playlist_NodeDelete 3 pl_readonly 0%nat false false = Ok (pl', VLC_SUCCESS) ∧
    items pl' !! 0%nat = Some it' ∧ children it' = Some [] ∧ it' ≠ it.
Proof.
  eexists _, _, _. split; [vm_compute; reflexivity|].
  split; [reflexivity|]. split; [reflexivity|].
  split; [vm_compute; reflexivity|]. split; [vm_compute; reflexivity|].
  split; [reflexivity|]. discriminate.
Qed.

(** X7: on a well-formed playlist, Delete of a container that is attached to
    its parent (or has none), when the deletion is forced or the container is
    not read-only, succeeds and destroys the container itself: it is no
    longer live nor registered, its parent (if any) has lost exactly this
    child, and the most recent deletion notification carries its id. *)
Theorem NodeDelete_destroys_root rank fuel pl root it di force :
  well_formed rank pl → items pl !! root = Some it → children it ≠ None →
  (∀ parent, p_parent it = Some parent → lists pl parent root) →
  (rank root < fuel)%nat →
  is_readonly it = false ∨ force = true →
  ∃ pl' rest,
    playlist_NodeDelete fuel pl root di force = Ok (pl', VLC_SUCCESS) ∧
    well_formed rank pl' ∧
    items pl' !! root = None ∧ (root ∉ all_items pl') ∧
    item_deleted pl' = i_id it :: rest ∧
    (∀ parent par, p_parent it = Some parent →
       items pl !! parent = Some par →
       items pl' !! parent = Some (detach root par) ∧
       pp_children (detach root par) = remove_first root (pp_children par) ∧
       (root ∉ pp_children (detach root par))).
Proof.
  intros Hwf Hroot Hcont Hpar Hfuel Hcase.
  destruct (NodeDelete_outcome rank di force fuel pl root it)
    as (pl' & Hrun & (Hwf' & _ & _ & Hparent & _) & _ & Hout); auto.
  assert (Hb : is_readonly it && negb force = false).
  { destruct Hcase as [-> | ->]; [done|apply andb_false_r]. }
  rewrite Hb in Hout. destruct Hout as [Hdead [rest Hlog]].
  exists pl', rest. repeat (split; [done|]).
  split; [intros [? ?]%(wf_registered _ _ Hwf'); congruence|].
  split; [done|].
  intros P par HP HitP.
  destruct (Hparent P par HP HitP) as [[_ Heq]|[[? ?] _]]; [|congruence].
  split; [done|]. split; [apply pp_children_detach|].
  rewrite pp_children_detach. apply remove_first_NoDup.
  by apply (wf_children _ _ Hwf P).
Qed.

Lemma NodeDelete_destroys_root_witness :
  ∃ pl' rest,
    playlist_NodeDelete 3 pl_example 1%nat false false = Ok (pl', VLC_SUCCESS) ∧
    well_formed rank_tree pl' ∧
    items pl' !! 1%nat = None ∧ (1%nat ∉ all_items pl') ∧
    item_deleted pl' = 2 :: rest ∧
    (∀ parent par, Some 0%nat = Some parent →
       items pl_example !! parent = Some par →
       items pl' !! parent = Some (detach 1%nat par) ∧
       pp_children (detach 1%nat par) = remove_first 1%nat (pp_children par) ∧
       (1%nat ∉ pp_children (detach 1%nat par))).
Proof.
  apply (NodeDelete_destroys_root rank_tree 3 pl_example 1%nat
           (mk_node 2 (Some [2; 3]%nat) (Some 0%nat) 0) false false).
  - apply well_formed_tree.
  - vm_compute. reflexivity.
  - discriminate.
  - intros parent [= <-]. eexists. split; [vm_compute; reflexivity|].
    simpl. left.
  - vm_compute. lia.
  - left. reflexivity.
Defined.

(** X8: on a well-formed playlist, Empty of a container succeeds and keeps
    the container (same id, flags, parent, item) and every node ranked at or
    above it; its children shrink to those that are still live, and a child is
    left in place only if it is a leaf and items are not deleted, or a
    read-only container (sub-containers are deleted without force).  With
    [deleteItems] set, only read-only containers remain. *)
Theorem NodeEmpty_spares_readonly rank fuel pl root it di :
  well_formed rank pl → items pl !! root = Some it → children it ≠ None →
  (rank root ≤ fuel)%nat →
  ∃ pl' it',
    playlist_NodeEmpty fuel pl root di = Ok (pl', VLC_SUCCESS) ∧
    well_formed rank pl' ∧
    items pl' !! root = Some it' ∧ shrunk it it' ∧ children it' ≠ None ∧
    (∀ x, x ∈ pp_children it' ↔
          x ∈ pp_children it ∧ is_Some (items pl' !! x)) ∧
    (∀ x itx, x ∈ pp_children it' → items pl !! x = Some itx →
       match children itx with
       | None => di = false
       | Some _ => is_readonly itx = true
       end) ∧
    (∀ x, (rank root ≤ rank x)%nat → x ≠ root →
          items pl' !! x = items pl !! x).
Proof.
  intros Hwf Hroot Hcont Hfuel. unfold playlist_NodeEmpty.
  rewrite (deref_lookup _ _ _ Hroot). simpl.
  destruct (children it) as [a0|] eqn:Ha0; [|done].
  assert (Hic : i_children it = Z.of_nat (length a0)).
  { unfold i_children. by rewrite Ha0. }
  destruct (Z.eqb_spec (i_children it) (-1)) as [?|_]; [lia|].
  rewrite Hic, Nat2Z.id.
  destruct (delete_children_spared rank di false fuel root it pl Hfuel
              (length a0) pl a0)
    as (pl' & a' & -> & Hwf' & Hs & Hkind & Hr' & Hframe & Hsp).
  { done. }
  { done. }
  { apply shrinks_refl. }
  { apply kind_kept_refl. }
  { rewrite <- Ha0. by rewrite with_children_id. }
  { done. }
  { intros x itx Hx. rewrite drop_all in Hx. by apply elem_of_nil in Hx. }
  simpl. eexists _, _. split; [done|]. split; [done|]. split; [exact Hr'|].
  pose proof Hs as (Hh & _ & _ & Hkeep).
  destruct (Hh root _ Hr') as (it0 & Hit0 & Hshr).
  assert (it0 = it) as -> by congruence.
  split; [done|]. split; [done|].
  change (pp_children (with_children it (Some a'))) with a' in *.
  split; [|split; [|done]].
  - intros x. split.
    + intros Hx. destruct Hshr as (_ & _ & _ & _ & Hsub).
      split; [by eapply elem_of_sublist|].
      destruct (wf_children _ _ Hwf' root _ Hr') as [_ Hl].
      destruct (Hl x Hx) as (? & ? & _). eauto.
    + intros [Hx Hlive]. by apply (Hkeep root it _ x Hroot Hr').
  - intros x itx Hx Hitx.
    destruct (wf_children _ _ Hwf' root _ Hr') as [_ Hl].
    destruct (Hl x Hx) as (itx' & Hitx' & _).
    pose proof (Hsp x itx' Hx Hitx') as Hspx.
    destruct (Hh x itx' Hitx') as (itx0 & Hitx0 & (_ & _ & _ & Hf & _)).
    destruct (Hkind x itx' Hitx') as (itx1 & Hitx1 & Hk).
    assert (itx0 = itx) as -> by congruence.
    assert (itx1 = itx) as -> by congruence.
    unfold spared, is_readonly in *. rewrite Hf in Hspx.
    destruct (children itx), (children itx'); try done.
    + by destruct Hspx.
    + destruct Hk as [Hk _]. by specialize (Hk eq_refl).
    + destruct Hk as [_ Hk]. by specialize (Hk eq_refl).
Qed.

Lemma NodeEmpty_spares_readonly_witness :
  ∃ pl' it',
    playlist_NodeEmpty 2 pl_example 0%nat true = Ok (pl', VLC_SUCCESS) ∧
    well_formed rank_tree pl' ∧
    items pl' !! 0%nat = Some it' ∧
    shrunk (mk_node 1 (Some [1; 4]%nat) None 0) it' ∧ children it' ≠ None ∧
    (∀ x, x ∈ pp_children it' ↔
          x ∈ [1; 4]%nat ∧ is_Some (items pl' !! x)) ∧
    (∀ x itx, x ∈ pp_children it' → items pl_example !! x = Some itx →
       match children itx with
       | None => true = false
       | Some _ => is_readonly itx = true
       end) ∧
    (∀ x, (rank_tree 0 ≤ rank_tree x)%nat → x ≠ 0%nat →
          items pl' !! x = items pl_example !! x).
Proof.
  apply (NodeEmpty_spares_readonly rank_tree 2 pl_example 0%nat
           (mk_node 1 (Some [1; 4]%nat) None 0) true).
  - apply well_formed_tree.
  - vm_compute. reflexivity.
  - discriminate.
  - vm_compute. lia.
Defined.

(** X6: the verdict of Delete and Empty.  On a well-formed playlist, for a
    live node that its parent lists (or that has no parent) and fuel above
    its rank, both calls return; the result is the generic error exactly when
    the node is a leaf, and then the whole playlist (nodes, registry,
    notifications) is left as it was. *)
Theorem NodeDelete_NodeEmpty_verdict rank fuel pl node it di force :
  well_formed rank pl → items pl !! node = Some it →
  (∀ parent, p_parent it = Some parent → lists pl parent node) →
  (rank node < fuel)%nat →
  (∃ pl' v, playlist_NodeDelete fuel pl node di force = Ok (pl', v) ∧
     (v = VLC_EGENERIC ↔ children it = None) ∧
     (children it = None → pl' = pl)) ∧
  (∃ pl' v, playlist_NodeEmpty fuel pl node di = Ok (pl', v) ∧
     (v = VLC_EGENERIC ↔ children it = None) ∧
     (children it = None → pl' = pl)).
Proof.
  intros Hwf Hnode Hpar Hfuel.
  destruct (children it) as [a0|] eqn:Ha0.
  - split.
    + destruct (NodeDelete_outcome rank di force fuel pl node it)
        as (pl' & Hrun & _); auto; [congruence|].
      exists pl', VLC_SUCCESS. split; [done|]. split; [|done]. by split.
    + unfold playlist_NodeEmpty. rewrite (deref_lookup _ _ _ Hnode). simpl.
      assert (Hic : i_children it = Z.of_nat (length a0)).
      { unfold i_children. by rewrite Ha0. }
      destruct (Z.eqb_spec (i_children it) (-1)) as [?|_]; [lia|].
      rewrite Hic, Nat2Z.id.
      destruct (delete_children_spared rank di false fuel node it pl
                  ltac:(lia) (length a0) pl a0) as (pl' & a' & -> & _).
      { done. }
      { done. }
      { apply shrinks_refl. }
      { apply kind_kept_refl. }
      { rewrite <- Ha0. by rewrite with_children_id. }
      { done. }
      { intros x itx Hx. rewrite drop_all in Hx. by apply elem_of_nil in Hx. }
      exists pl', VLC_SUCCESS. split; [done|]. split; [|done]. by split.
  - assert (Hleaf : i_children it = -1) by (by apply i_children_leaf).
    split.
    + destruct fuel as [|fuel]; [lia|]. simpl.
      rewrite (deref_lookup _ _ _ Hnode). simpl. rewrite Hleaf. simpl.
      exists pl, VLC_EGENERIC. by repeat split.
    + unfold playlist_NodeEmpty. rewrite (deref_lookup _ _ _ Hnode). simpl.
      rewrite Hleaf. simpl. exists pl, VLC_EGENERIC. by repeat split.
Qed.

Lemma NodeDelete_NodeEmpty_verdict_witness :
  (∃ pl' v, playlist_NodeDelete 1 pl_example 4%nat true true = Ok (pl', v) ∧
     (v = VLC_EGENERIC ↔ @None (list ptr) = None) ∧
     (@None (list ptr) = None → pl' = pl_example)) ∧
  (∃ pl' v, playlist_NodeEmpty 1 pl_example 4%nat true = Ok (pl', v) ∧
     (v = VLC_EGENERIC ↔ @None (list ptr) = None) ∧
     (@None (list ptr) = None → pl' = pl_example)).
Proof.
  apply (NodeDelete_NodeEmpty_verdict rank_tree 1 pl_example 4%nat
           (mk_node 5 None (Some 0%nat) 0) true true).
  - apply well_formed_tree.
  - vm_compute. reflexivity.
  - intros parent [= <-]. eexists. split; [vm_compute; reflexivity|].
    simpl. right. left.
  - vm_compute. lia.
Defined.

(** ** Walks in document order *)

Lemma head_preorder_app s l : head (preorder s ++ l) = Some (root_of s).
Proof. by destruct s. Qed.

Lemma root_in_preorder s : root_of s ∈ preorder s.
Proof. destruct s. simpl. left. Qed.

Lemma preorder_in_list s ks x :
  s ∈ ks → x ∈ preorder s → x ∈ preorder_list ks.
Proof.
  induction ks as [|k ks IH]; [by intros ?%elem_of_nil|].
  intros [->|Hs]%elem_of_cons Hx; simpl; apply elem_of_app; auto.
Qed.

Lemma roots_in_preorder_list ks c : c ∈ map root_of ks → c ∈ preorder_list ks.
Proof.
  intros (s & -> & Hs)%list_elem_of_fmap.
  eauto using preorder_in_list, root_in_preorder.
Qed.

Lemma NoDup_preorder_in s ks :
  NoDup (preorder_list ks) → s ∈ ks → NoDup (preorder s).
Proof.
  induction ks as [|k ks IH]; [by intros _ ?%elem_of_nil|].
  simpl. intros (Hk & _ & Hks)%NoDup_app [->|Hs]%elem_of_cons; auto.
Qed.

Lemma NoDup_roots ks : NoDup (preorder_list ks) → NoDup (map root_of ks).
Proof.
  induction ks as [|s ks IH]; simpl; [constructor|].
  intros (Hs & Hdis & Hks)%NoDup_app. constructor; [|auto].
  intros Hin%roots_in_preorder_list.
  apply (Hdis (root_of s)); [apply root_in_preorder|done].
Qed.

Lemma height_in_list s ks : s ∈ ks → (height s ≤ height_list ks)%nat.
Proof.
  induction ks as [|k ks IH]; [by intros ?%elem_of_nil|].
  intros [->|Hs]%elem_of_cons; simpl; [lia|]. specialize (IH Hs). lia.
Qed.

Lemma after_app_l l1 l2 x : x ∈ l1 → after (l1 ++ l2) x = after l1 x ++ l2.
Proof.
  induction l1 as [|y l1 IH]; [by intros ?%elem_of_nil|].
  simpl. destruct (decide (y = x)); [done|].
  intros [?|Hx]%elem_of_cons; [congruence|auto].
Qed.

Lemma after_app_r l1 l2 x : x ∉ l1 → after (l1 ++ l2) x = after l2 x.
Proof.
  induction l1 as [|y l1 IH]; [done|].
  simpl. intros Hx. destruct (decide (y = x)) as [->|_].
  - exfalso. apply Hx. left.
  - apply IH. intros ?. apply Hx. by right.
Qed.

Lemma index_of_middle x pre post :
  x ∉ pre → index_of x (pre ++ x :: post) = Some (length pre).
Proof.
  induction pre as [|y pre IH]; simpl; intros Hx.
  - by rewrite decide_True.
  - rewrite decide_False; [|intros ->; apply Hx; left].
    rewrite IH; [done|]. intros ?. apply Hx. by right.
Qed.

Lemma hangs_inv pl parent p kids :
  hangs pl parent (PNode p kids) = true →
  ∃ it, items pl !! p = Some it ∧ p_parent it = parent ∧
    match kids with
    | None => children it = None
    | Some ks => children it = Some (map root_of ks) ∧
                 ∀ s, s ∈ ks → hangs pl (Some p) s = true
    end.
Proof.
  simpl. destruct (items pl !! p) as [it|]; [|done].
  intros [Hp H]%andb_true_iff. apply bool_decide_eq_true in Hp.
  exists it. split; [done|]. split; [done|]. destruct kids as [ks|].
  - apply andb_true_iff in H as [Hc Hall]. apply bool_decide_eq_true in Hc.
    split; [done|]. intros s Hs%list_elem_of_In.
    by apply (proj1 (forallb_forall _ _) Hall).
  - by apply bool_decide_eq_true in H.
Qed.

Lemma hangs_root pl parent s :
  hangs pl parent s = true →
  ∃ it, items pl !! root_of s = Some it ∧ p_parent it = parent.
Proof.
  destruct s as [p kids]. intros (it & ? & ? & _)%hangs_inv. eauto.
Qed.

(** NextItem at a node [x] lying [d] levels below the root: the first child
    if there is one, else the next sibling of the nearest ancestor-or-self
    strictly below the root that has one. *)
Lemma GetNextItem_spec fuel pl root d x :
  below pl root d x → (d ≤ fuel)%nat →
  GetNextItem fuel pl root (Some x) = Ok (spec_NextItem d pl root x).
Proof.
  intros Hb Hf. unfold spec_NextItem.
  assert (Hx0 : ∃ it, items pl !! x = Some it) by (inversion Hb; eauto).
  destruct Hx0 as [it0 Hx0].
  destruct (first_child pl x) as [c|] eqn:Hc.
  { unfold first_child in Hc. rewrite Hx0 in Hc. simpl in Hc.
    unfold GetNextItem. rewrite (deref_lookup _ _ _ Hx0). simpl.
    assert (Hpos : (0 <? i_children it0) = true).
    { apply Z.ltb_lt, i_children_pos. apply lookup_lt_Some in Hc. lia. }
    rewrite Hpos. unfold array_read. rewrite Hc. reflexivity. }
  assert (Hnpos : (0 <? i_children it0) = false).
  { apply Z.ltb_ge. unfold first_child in Hc. rewrite Hx0 in Hc. simpl in Hc.
    apply lookup_ge_None in Hc. pose proof (i_children_pos it0). lia. }
  unfold GetNextItem. rewrite (deref_lookup _ _ _ Hx0). simpl. rewrite Hnpos.
  inversion Hb as [x' it g Hx Hp Hg Hin|d' x' it gp g Hx Hp Hne Hg Hin Hb']; subst;
    rewrite Hx in Hx0; injection Hx0 as <-; rewrite Hp;
    rewrite (deref_lookup _ _ _ Hg); simpl;
    destruct (index_of_elem _ _ Hin) as [i Hi]; rewrite Hi;
    destruct (index_of_Some _ _ _ Hi) as [_ Hlt];
    rewrite Hx; simpl; rewrite Hp;
    rewrite (next_sibling_eq _ _ _ _ _ _ Hx Hp Hg Hi);
    pose proof (sibling_test g i ltac:(lia)) as Htest;
    rewrite Z.geb_leb, Z.leb_antisym.
  - destruct (decide (root = root)) as [_|?]; [|done]. simpl.
    destruct (Z.of_nat i + 1 <? i_children g); simpl.
    + destruct (proj1 Htest eq_refl) as [s Hs].
      rewrite Nat.add_1_r. unfold array_read. rewrite Hs. reflexivity.
    + destruct (pp_children g !! S i) eqn:Hs; [|reflexivity].
      destruct Htest as [_ Htest]. discriminate Htest. eauto.
  - destruct (decide (gp = root)) as [?|_]; [done|]. simpl.
    destruct (Z.of_nat i + 1 <? i_children g); simpl.
    + destruct (proj1 Htest eq_refl) as [s Hs].
      rewrite Nat.add_1_r. unfold array_read. rewrite Hs. reflexivity.
    + destruct (pp_children g !! S i) eqn:Hs.
      { destruct Htest as [_ Htest]. discriminate Htest. eauto. }
      unfold GetNextUncle. rewrite (deref_lookup _ _ _ Hx). simpl. rewrite Hp.
      rewrite (deref_lookup _ _ _ Hg). simpl.
      apply (GetNextUncle_loop_spec pl root d' gp Hb'); [lia|done].
Qed.

(** The successor among the subtrees [ks_all] of a node [P], given the
    successor inside each subtree: [cont] is what follows the last subtree
    in document order. *)
Lemma spec_NextItem_forest pl root P itP dc cont ks_all :
  items pl !! P = Some itP → children itP = Some (map root_of ks_all) →
  NoDup (map root_of ks_all) →
  (∀ s, s ∈ ks_all → hangs pl (Some P) s = true) →
  (∀ c, c ∈ map root_of ks_all →
     head (omap (next_sibling pl) (ancestors_below dc pl root c)) =
       match next_sibling pl c with Some y => Some y | None => head cont end) →
  (∀ s cont', s ∈ ks_all →
     head (omap (next_sibling pl) (ancestors_below dc pl root (root_of s)))
       = head cont' →
     ∀ x, x ∈ preorder s →
       ∃ d', below pl root d' x ∧ (d' < dc + height s)%nat ∧
         spec_NextItem d' pl root x = head (after (preorder s) x ++ cont')) →
  ∀ x, x ∈ preorder_list ks_all →
    ∃ d', below pl root d' x ∧ (d' < dc + height_list ks_all)%nat ∧
      spec_NextItem d' pl root x
        = head (after (preorder_list ks_all) x ++ cont).
Proof.
  intros HP Hkids Hnd Hhang Hrest HT.
  assert (Hpp : pp_children itP = map root_of ks_all).
  { unfold pp_children. by rewrite Hkids. }
  assert (Hsuf : ∀ ks pre, ks_all = pre ++ ks →
    ∀ x, x ∈ preorder_list ks →
      ∃ d', below pl root d' x ∧ (d' < dc + height_list ks)%nat ∧
        spec_NextItem d' pl root x = head (after (preorder_list ks) x ++ cont));
    [|by apply (Hsuf ks_all [])].
  induction ks as [|s ks IH]; intros pre Hall x Hx; [by apply elem_of_nil in Hx|].
  simpl in Hx. simpl preorder_list.
  assert (Hs : s ∈ ks_all) by (rewrite Hall; apply elem_of_app; right; left).
  destruct (decide (x ∈ preorder s)) as [Hin|Hout].
  - rewrite after_app_l, <- app_assoc by done.
    destruct (HT s (preorder_list ks ++ cont) Hs) with (x := x)
      as (d' & Hb & Hd & Heq); [|done|].
    + rewrite Hrest by (apply list_elem_of_fmap; eauto).
      destruct (hangs_root _ _ _ (Hhang s Hs)) as (itc & Hitc & Hpar).
      assert (Hi : index_of (root_of s) (pp_children itP) = Some (length pre)).
      { rewrite Hpp, Hall, map_app. simpl.
        rewrite <- (length_map root_of pre). apply index_of_middle.
        rewrite Hall, map_app in Hnd. simpl in Hnd.
        apply NoDup_app in Hnd as (_ & Hdis & _).
        intros Hc. apply (Hdis _ Hc). left. }
      rewrite (next_sibling_eq _ _ _ _ _ _ Hitc Hpar HP Hi).
      rewrite Hpp, Hall, map_app. simpl.
      rewrite <- (length_map root_of pre).
      rewrite lookup_app_r by lia.
      replace (S (length (map root_of pre)) - length (map root_of pre))%nat
        with 1%nat by lia.
      simpl. destruct ks as [|s2 ks2]; simpl; [done|].
      by rewrite <- app_assoc, head_preorder_app.
    + exists d'. split; [done|]. split; [simpl; lia|done].
  - rewrite after_app_r by done.
    apply elem_of_app in Hx as [?|Hx]; [done|].
    destruct (IH (pre ++ [s])) with (x := x) as (d' & Hb & Hd & Heq);
      [by rewrite <- app_assoc|done|].
    exists d'. split; [done|]. split; [simpl; lia|done].
Qed.

Lemma spec_NextItem_tree pl root : ∀ n s P dc cont,
  (height s ≤ n)%nat → hangs pl (Some P) s = true →
  NoDup (preorder s) → (root ∉ preorder s) →
  below pl root dc (root_of s) →
  head (omap (next_sibling pl) (ancestors_below dc pl root (root_of s)))
    = head cont →
  ∀ x, x ∈ preorder s →
    ∃ d', below pl root d' x ∧ (d' < dc + height s)%nat ∧
      spec_NextItem d' pl root x = head (after (preorder s) x ++ cont).
Proof.
  induction n as [|n IH]; intros [p kids] P dc cont Hn Hhang Hnd Hroot Hb Hrest x Hx.
  { destruct kids; simpl in Hn; lia. }
  destruct (hangs_inv _ _ _ _ Hhang) as (it & Hit & Hpar & Hkids).
  assert (Hpre : preorder (PNode p kids)
                 = p :: match kids with None => [] | Some ks => preorder_list ks end)
    by (by destruct kids).
  rewrite Hpre in *. clear Hpre. simpl root_of in *.
  assert (Hpr : p ≠ root) by (intros ->; apply Hroot; left).
  apply NoDup_cons in Hnd as [Hp Hnd].
  apply elem_of_cons in Hx as [->|Hx].
  - exists dc. split; [done|]. split; [destruct kids; simpl; lia|].
    simpl. rewrite decide_True by done.
    unfold spec_NextItem, first_child. rewrite Hit. simpl.
    unfold pp_children. destruct kids as [[|s1 ks]|].
    + destruct Hkids as [-> _]. simpl. done.
    + destruct Hkids as [-> _]. simpl.
      by rewrite <- app_assoc, head_preorder_app.
    + rewrite Hkids. simpl. done.
  - destruct kids as [ks|]; [|by apply elem_of_nil in Hx].
    destruct Hkids as [Hc Hall].
    assert (Hpp : pp_children it = map root_of ks).
    { unfold pp_children. by rewrite Hc. }
    simpl after. rewrite decide_False by (intros ->; done).
    destruct (spec_NextItem_forest pl root p it (S dc) cont ks)
      with (x := x) as (d' & Hb' & Hd & Heq); try done.
    + by apply NoDup_roots.
    + intros c Hcin. simpl.
      apply list_elem_of_fmap in Hcin as (s & -> & Hs).
      destruct (hangs_root _ _ _ (Hall s Hs)) as (itc & Hitc & Hparc).
      rewrite Hitc. simpl. rewrite Hparc.
      rewrite decide_False by done.
      destruct (next_sibling pl (root_of s)); [done|]. exact Hrest.
    + intros s cont' Hs Hrest' y Hy.
      destruct (hangs_root _ _ _ (Hall s Hs)) as (itc & Hitc & Hparc).
      apply (IH s p (S dc) cont'); try done.
      * pose proof (height_in_list _ _ Hs).
        change (height (PNode p (Some ks))) with (S (height_list ks)) in Hn.
        lia.
      * by apply Hall.
      * by eapply NoDup_preorder_in.
      * intros Hr. apply Hroot. right. by eapply preorder_in_list.
      * eapply below_deeper; eauto.
        rewrite Hpp. apply list_elem_of_fmap. eauto.
    + exists d'. split; [done|]. split; [|done].
      change (height (PNode p (Some ks))) with (S (height_list ks)). lia.
Qed.

Lemma GetNextItem_ahead pl par t fuel cursor :
  hangs pl par t = true → NoDup (preorder t) → (height t ≤ S fuel)%nat →
  match cursor with Some x => x ∈ tail (preorder t) | None => True end →
  GetNextItem fuel pl (root_of t) cursor = Ok (head (ahead t cursor)).
Proof.
  destruct t as [r kids]. intros Hhang Hnd Hfuel Hcur.
  destruct (hangs_inv _ _ _ _ Hhang) as (it & Hit & Hpar & Hkids).
  assert (Hpre : preorder (PNode r kids)
                 = r :: match kids with None => [] | Some ks => preorder_list ks end)
    by (by destruct kids).
  unfold ahead. rewrite Hpre in *. clear Hpre. simpl root_of. simpl tail in *.
  apply NoDup_cons in Hnd as [Hr Hnd].
  destruct cursor as [x|].
  - destruct kids as [ks|]; [|by apply elem_of_nil in Hcur].
    destruct Hkids as [Hc Hall].
    assert (Hpp : pp_children it = map root_of ks).
    { unfold pp_children. by rewrite Hc. }
    simpl after. rewrite decide_False by (intros ->; done).
    destruct (spec_NextItem_forest pl r r it 1 [] ks)
      with (x := x) as (d' & Hb' & Hd & Heq); try done.
    + by apply NoDup_roots.
    + intros c Hcin. simpl.
      apply list_elem_of_fmap in Hcin as (s & -> & Hs).
      destruct (hangs_root _ _ _ (Hall s Hs)) as (itc & Hitc & Hparc).
      rewrite Hitc. simpl. rewrite Hparc.
      rewrite decide_True by done. simpl.
      by destruct (next_sibling pl (root_of s)).
    + intros s cont' Hs Hrest' y Hy.
      destruct (hangs_root _ _ _ (Hall s Hs)) as (itc & Hitc & Hparc).
      apply (spec_NextItem_tree pl r (height s) s r 1 cont'); try done.
      * by apply Hall.
      * by eapply NoDup_preorder_in.
      * intros Hin. apply Hr. by eapply preorder_in_list.
      * eapply below_child; eauto.
        rewrite Hpp. apply list_elem_of_fmap. eauto.
    + rewrite app_nil_r in Heq. rewrite <- Heq.
      apply GetNextItem_spec; [done|].
      change (height (PNode r (Some ks))) with (S (height_list ks)) in Hfuel.
      lia.
  - unfold GetNextItem. rewrite (deref_lookup _ _ _ Hit). simpl.
    destruct kids as [[|s ks]|].
    + destruct Hkids as [Hc _]. unfold i_children. by rewrite Hc.
    + destruct Hkids as [Hc _]. unfold i_children, pp_children. rewrite Hc.
      simpl. by rewrite head_preorder_app.
    + unfold i_children. by rewrite Hkids.
Qed.

(** X9: NextItem walks a tree in document order.  On a heap that holds the
    tree [t] (all nodes distinct, links recorded on both sides), from any
    cursor below the root NextItem returns the node that follows the cursor
    in the pre-order listing of [t], and none at its end; from no cursor it
    returns the first node below the root.  One unit of fuel per level of the
    tree below the root's children suffices. *)
Theorem GetNextItem_document_order pl par t fuel cursor :
  hangs pl par t = true → NoDup (preorder t) → (height t ≤ S fuel)%nat →
  match cursor with Some x => x ∈ tail (preorder t) | None => True end →
  GetNextItem fuel pl (root_of t) cursor = Ok (head (ahead t cursor)).
Proof. apply GetNextItem_ahead. Qed.

Lemma GetNextItem_document_order_witness :
  GetNextItem 2 pl_example 0%nat (Some 3%nat) = Ok (Some 4%nat).
Proof.
  apply (GetNextItem_document_order pl_example None
           (PNode 0 (Some [PNode 1 (Some [PNode 2 None; PNode 3 None]);
                           PNode 4 None]))%nat 2 (Some 3%nat)).
  - vm_compute. reflexivity.
  - refine (bool_decide_unpack _ _). vm_compute. exact I.
  - simpl. lia.
  - refine (bool_decide_unpack _ _). vm_compute. exact I.
Defined.

(** *** The leaf walk *)

Lemma after_suffix l x : ∃ pre, l = pre ++ after l x.
Proof.
  induction l as [|y l [pre IH]]; [by exists []|]. simpl.
  destruct (decide (y = x)); [by exists [y]|].
  exists (y :: pre). simpl. by rewrite <- IH.
Qed.

Lemma ahead_suffix t cursor : ∃ pre, pre ≠ [] ∧ preorder t = pre ++ ahead t cursor.
Proof.
  destruct cursor as [x|]; simpl.
  - destruct (after_suffix (preorder t) x) as [pre Hpre].
    destruct pre as [|p pre]; [|by exists (p :: pre)].
    exists [root_of t]. split; [done|]. destruct t as [r kids].
    change (preorder (PNode r kids))
      with (r :: match kids with None => [] | Some ks => preorder_list ks end)
      in *.
    simpl in Hpre. simpl after in *. destruct (decide (r = x)); [done|].
    exfalso. apply (f_equal length) in Hpre. simpl in Hpre.
    destruct (after_suffix
      match kids with None => [] | Some ks => preorder_list ks end x) as [q Hq].
    rewrite Hq, length_app in Hpre at 1. lia.
  - destruct t as [r kids]. exists [r]. split; [done|]. by destruct kids.
Qed.

(** Moving the cursor to a node ahead of it leaves ahead what followed that
    node. *)
Lemma ahead_step t cursor y :
  NoDup (preorder t) → y ∈ ahead t cursor →
  ahead t (Some y) = after (ahead t cursor) y ∧ y ≠ root_of t.
Proof.
  intros Hnd Hy. destruct (ahead_suffix t cursor) as (pre & Hne & Hpre).
  rewrite Hpre in Hnd. apply NoDup_app in Hnd as (_ & Hdis & _).
  assert (Hyp : y ∉ pre) by (intros Hin; by apply (Hdis y)).
  split.
  - simpl. rewrite Hpre at 1. by apply after_app_r.
  - intros ->. apply Hyp. destruct t as [r kids].
    change (preorder (PNode r kids))
      with (r :: match kids with None => [] | Some ks => preorder_list ks end)
      in Hpre.
    destruct pre as [|p pre]; [done|]. injection Hpre as -> _. left.
Qed.

Lemma ahead_in t cursor y : y ∈ ahead t cursor → y ∈ preorder t.
Proof.
  destruct (ahead_suffix t cursor) as (pre & _ & ->). intros ?.
  apply elem_of_app. by right.
Qed.

Lemma hangs_live pl : ∀ n t parent,
  (height t ≤ n)%nat → hangs pl parent t = true →
  ∀ x, x ∈ preorder t → is_Some (items pl !! x).
Proof.
  induction n as [|n IH]; intros [p kids] parent Hn Hhang x Hx.
  { destruct kids; simpl in Hn; lia. }
  destruct (hangs_inv _ _ _ _ Hhang) as (it & Hit & _ & Hkids).
  change (preorder (PNode p kids))
    with (p :: match kids with None => [] | Some ks => preorder_list ks end)
    in Hx.
  apply elem_of_cons in Hx as [->|Hx]; [eauto|].
  destruct kids as [ks|]; [|by apply elem_of_nil in Hx].
  destruct Hkids as [_ Hall].
  change (height (PNode p (Some ks))) with (S (height_list ks)) in Hn.
  clear Hhang Hit. induction ks as [|s ks IHks]; [by apply elem_of_nil in Hx|].
  simpl in Hx. apply elem_of_app in Hx as [Hx|Hx].
  - apply (IH s (Some p)); [|apply Hall; left|done].
    assert (height s ≤ height_list (s :: ks))%nat
      by (apply height_in_list; left).
    lia.
  - apply IHks; [|done|intros s' Hs'; apply Hall; by right].
    change (height_list (s :: ks))
      with (Nat.max (height s) (height_list ks)) in Hn. lia.
Qed.

Lemma after_head y l : after (y :: l) y = l.
Proof. simpl. by rewrite decide_True. Qed.

(** The [while( 1 )] loop of the leaf walk returns the first acceptable leaf
    ahead of the cursor. *)
Lemma GetNextLeaf_loop_spec pl par t b_ena b_unplayed :
  hangs pl par t = true → NoDup (preorder t) →
  ∀ fuel cursor,
    (height t + length (ahead t cursor) ≤ fuel)%nat →
    match cursor with Some x => x ∈ tail (preorder t) | None => True end →
    GetNextLeaf_loop fuel pl (root_of t) cursor b_ena b_unplayed
      = Ok (find (accepted pl b_ena b_unplayed) (ahead t cursor)).
Proof.
  intros Hhang Hnd.
  induction fuel as [|fuel IH]; intros cursor Hfuel Hcur.
  { destruct t as [? [?|]]; simpl in Hfuel; lia. }
  simpl GetNextLeaf_loop.
  rewrite (GetNextItem_ahead pl par t (S fuel) cursor);
    [|done|done|lia|done].
  simpl. destruct (ahead t cursor) as [|y rest] eqn:Hahead; [done|]. simpl.
  assert (Hy : y ∈ ahead t cursor) by (rewrite Hahead; left).
  destruct (ahead_step t cursor y Hnd Hy) as [Hstep Hyr].
  rewrite Hahead, after_head in Hstep.
  rewrite decide_False by done.
  destruct (hangs_live pl _ t par (le_n _) Hhang y (ahead_in _ _ _ Hy))
    as [it Hit].
  rewrite (deref_lookup _ _ _ Hit). simpl.
  unfold accepted at 1. rewrite Hit.
  destruct ((i_children it =? -1) && leaf_ok it b_ena b_unplayed); [done|].
  rewrite IH; [by rewrite Hstep| |].
  - rewrite Hstep. simpl in Hfuel. lia.
  - destruct (ahead_suffix t cursor) as (pre & Hne & Hpre).
    rewrite Hpre, Hahead. destruct pre as [|p pre]; [done|]. simpl.
    apply elem_of_app. right. left.
Qed.

Lemma GetNextLeaf_ahead pl par r ks fuel cursor b_ena b_unplayed :
  hangs pl par (PNode r (Some ks)) = true →
  NoDup (preorder (PNode r (Some ks))) →
  (height (PNode r (Some ks)) + length (ahead (PNode r (Some ks)) cursor)
     ≤ fuel)%nat →
  match cursor with Some x => x ∈ preorder_list ks | None => True end →
  playlist_GetNextLeaf fuel pl r cursor b_ena b_unplayed
    = Ok (find (accepted pl b_ena b_unplayed)
            (ahead (PNode r (Some ks)) cursor)).
Proof.
  intros Hhang Hnd Hfuel Hcur. unfold playlist_GetNextLeaf.
  destruct (hangs_inv _ _ _ _ Hhang) as (it & Hit & _ & Hc & _).
  rewrite (deref_lookup _ _ _ Hit). simpl.
  assert (Hic : i_children it ≠ -1).
  { unfold i_children. rewrite Hc. lia. }
  destruct (Z.eqb_spec (i_children it) (-1)) as [?|_]; [done|].
  by apply (GetNextLeaf_loop_spec pl par (PNode r (Some ks))).
Qed.

(** X10: NextLeaf walks the leaves in document order.  On a heap that holds
    the tree [t] under a container root, NextLeaf returns the first node
    after the cursor, in the pre-order listing of [t], that is a leaf and
    passes the active filters, and none when there is no such node; it
    returns within a number of rounds bounded by the number of nodes ahead. *)
Theorem GetNextLeaf_document_order pl par r ks fuel cursor b_ena b_unplayed :
  hangs pl par (PNode r (Some ks)) = true →
  NoDup (preorder (PNode r (Some ks))) →
  (height (PNode r (Some ks)) + length (ahead (PNode r (Some ks)) cursor)
     ≤ fuel)%nat →
  match cursor with Some x => x ∈ preorder_list ks | None => True end →
  playlist_GetNextLeaf fuel pl r cursor b_ena b_unplayed
    = Ok (find (accepted pl b_ena b_unplayed)
            (ahead (PNode r (Some ks)) cursor)).
Proof. apply GetNextLeaf_ahead. Qed.

Lemma GetNextLeaf_document_order_witness :
  playlist_GetNextLeaf 5 pl_example 0%nat (Some 2%nat) true false
    = Ok (Some 3%nat).
Proof.
  apply (GetNextLeaf_document_order pl_example None 0%nat
           [PNode 1 (Some [PNode 2 None; PNode 3 None]); PNode 4 None]%nat
           5 (Some 2%nat) true false).
  - vm_compute. reflexivity.
  - refine (bool_decide_unpack _ _). vm_compute. exact I.
  - simpl. lia.
  - refine (bool_decide_unpack _ _). vm_compute. exact I.
Defined.

(** *** Collecting the enabled leaves *)

Lemma find_filter_after (f : ptr → bool) A y :
  find f A = Some y →
  List.filter f A = y :: List.filter f (after A y) ∧ y ∈ A.
Proof.
  induction A as [|z A IH]; simpl; [done|].
  destruct (f z) eqn:Hz.
  - intros [= ->]. rewrite decide_True by done. split; [done|left].
  - intros Hf. destruct (IH Hf) as [IH1 IH2].
    assert (f y = true) by (apply find_some in Hf; tauto).
    rewrite decide_False by congruence. split; [done|by right].
Qed.

Lemma find_None_filter (f : ptr → bool) A :
  find f A = None → List.filter f A = [].
Proof.
  induction A as [|z A IH]; simpl; [done|]. destruct (f z); [done|auto].
Qed.

Lemma after_length_in l x : x ∈ l → (length (after l x) < length l)%nat.
Proof.
  induction l as [|y l IH]; [by intros ?%elem_of_nil|]. simpl.
  destruct (decide (y = x)); [lia|].
  intros [?|Hx]%elem_of_cons; [congruence|]. specialize (IH Hx). lia.
Qed.

Lemma int_add_succ (n : nat) :
  Z.of_nat n + 1 < 2 ^ 31 → int_add (Z.of_nat n) 1 = Z.of_nat (S n).
Proof.
  intros Hn. unfold int_add, int_wrap. rewrite Z.mod_small; lia.
Qed.

Lemma GetAllEnabledChildren_loop_spec pl par r ks :
  hangs pl par (PNode r (Some ks)) = true →
  NoDup (preorder (PNode r (Some ks))) →
  ∀ fuel cursor acc,
    (height (PNode r (Some ks))
       + 2 * length (ahead (PNode r (Some ks)) cursor) < fuel)%nat →
    match cursor with Some x => x ∈ preorder_list ks | None => True end →
    Z.of_nat (length acc + length (ahead (PNode r (Some ks)) cursor))
      < 2 ^ 31 →
    GetAllEnabledChildren_loop fuel pl r cursor acc (Z.of_nat (length acc))
      = Ok (acc ++ List.filter (accepted pl true false)
                     (ahead (PNode r (Some ks)) cursor),
            Z.of_nat (length (acc ++ List.filter (accepted pl true false)
                                (ahead (PNode r (Some ks)) cursor)))).
Proof.
  intros Hhang Hnd. set (t := PNode r (Some ks)) in *.
  induction fuel as [|fuel IH]; intros cursor acc Hfuel Hcur Hsize; [lia|].
  simpl GetAllEnabledChildren_loop.
  rewrite (GetNextLeaf_ahead pl par r ks (S fuel) cursor);
    [|done|done|fold t; lia|done].
  fold t. simpl.
  destruct (find (accepted pl true false) (ahead t cursor)) as [y|] eqn:Hf.
  - destruct (find_filter_after _ _ _ Hf) as [Hfil Hy].
    destruct (ahead_step t cursor y Hnd Hy) as [Hstep Hyr].
    pose proof (after_length_in _ _ Hy) as Hlen.
    rewrite INSERT_ELEM_end. simpl.
    rewrite int_add_succ by lia.
    replace (S (length acc)) with (length (acc ++ [y]))
      by (rewrite length_app; simpl; lia).
    rewrite IH.
    + rewrite Hstep, Hfil, <- !app_assoc. reflexivity.
    + rewrite Hstep. lia.
    + apply ahead_in in Hy. unfold t in Hy.
      change (preorder (PNode r (Some ks))) with (r :: preorder_list ks) in Hy.
      apply elem_of_cons in Hy as [?|?]; [|done]. by destruct Hyr.
    + rewrite Hstep, length_app. simpl. lia.
  - rewrite (find_None_filter _ _ Hf), app_nil_r. reflexivity.
Qed.

(** X11: AllEnabledChildren of a container returns, in document order,
    exactly the nodes below it that are leaves without the disabled flag,
    together with their number (for fewer than 2^31 nodes), whatever the
    nesting; the array macro is taken to append at the count and to add one to
    it, as it does for Insert. *)
Theorem GetAllEnabledChildren_document_order pl par r ks fuel :
  hangs pl par (PNode r (Some ks)) = true →
  NoDup (preorder (PNode r (Some ks))) →
  (height (PNode r (Some ks)) + 2 * length (preorder_list ks) < fuel)%nat →
  Z.of_nat (length (preorder_list ks)) < 2 ^ 31 →
  playlist_GetAllEnabledChildren fuel pl r
    = Ok (List.filter (accepted pl true false) (preorder_list ks),
          Z.of_nat (length (List.filter (accepted pl true false)
                              (preorder_list ks)))).
Proof.
  intros Hhang Hnd Hfuel Hsize. unfold playlist_GetAllEnabledChildren.
  by apply (GetAllEnabledChildren_loop_spec pl par r ks Hhang Hnd fuel None []).
Qed.

Lemma GetAllEnabledChildren_document_order_witness :
  playlist_GetAllEnabledChildren 12 pl_example 0%nat
    = Ok ([2; 3; 4]%nat, 3).
Proof.
  apply (GetAllEnabledChildren_document_order pl_example None 0%nat
           [PNode 1 (Some [PNode 2 None; PNode 3 None]); PNode 4 None]%nat 12).
  - vm_compute. reflexivity.
  - refine (bool_decide_unpack _ _). vm_compute. exact I.
  - simpl. lia.
  - simpl. lia.
Defined.

(** *** The last leaf *)

Lemma tleaves_list_app ks1 ks2 :
  tleaves_list (ks1 ++ ks2) = tleaves_list ks1 ++ tleaves_list ks2.
Proof.
  induction ks1 as [|s ks1 IH]; simpl; [done|].
  change (tleaves s ++ tleaves_list (ks1 ++ ks2)
          = (tleaves s ++ tleaves_list ks1) ++ tleaves_list ks2).
  by rewrite IH, app_assoc.
Qed.

Lemma lookup_map_root ks i : map root_of ks !! i = root_of <$> ks !! i.
Proof.
  revert i. induction ks as [|s ks IH]; intros [|i]; simpl; try done.
Qed.

Lemma GetLastLeaf_spec pl : ∀ fuel t par,
  (height t ≤ fuel)%nat → hangs pl par t = true →
  playlist_GetLastLeaf fuel pl (root_of t)
    = Ok match t with
         | PNode _ None => None
         | PNode _ (Some ks) => last (tleaves_list ks)
         end.
Proof.
  induction fuel as [|fuel IH]; intros [p kids] par Hfuel Hhang.
  { destruct kids; simpl in Hfuel; lia. }
  destruct (hangs_inv _ _ _ _ Hhang) as (it & Hit & _ & Hkids).
  simpl. rewrite (deref_lookup _ _ _ Hit). simpl.
  destruct kids as [ks|].
  2:{ unfold i_children. rewrite Hkids. reflexivity. }
  destruct Hkids as [Hc Hall].
  change (height (PNode p (Some ks))) with (S (height_list ks)) in Hfuel.
  unfold i_children, pp_children. rewrite Hc, length_map, Nat2Z.id.
  assert (Hloop : ∀ k, (k ≤ length ks)%nat →
    GetLastLeaf_loop (playlist_GetLastLeaf fuel pl) pl (map root_of ks) k
      = Ok (last (tleaves_list (take k ks)))).
  2:{ rewrite Hloop by done. by rewrite firstn_all. }
  induction k as [|i IHk]; intros Hk; [done|]. simpl GetLastLeaf_loop.
  destruct (lookup_lt_is_Some_2 ks i) as [s Hs]; [lia|].
  unfold array_read. rewrite lookup_map_root, Hs. simpl.
  rewrite (take_S_r _ _ _ Hs), tleaves_list_app, last_app.
  assert (Hin : s ∈ ks) by (apply list_elem_of_lookup; eauto).
  pose proof (Hall s Hin) as Hhs.
  pose proof (height_in_list s ks Hin) as Hhei.
  specialize (IH s (Some p) ltac:(lia) Hhs).
  assert (Hleaves : tleaves_list [s] = tleaves s) by (simpl; apply app_nil_r).
  rewrite Hleaves. clear Hleaves.
  destruct s as [c kids']. simpl root_of in *.
  assert (HL : tleaves (PNode c kids')
               = match kids' with
                 | None => [c]
                 | Some ks' => tleaves_list ks'
                 end) by (by destruct kids').
  rewrite HL. clear HL.
  destruct (hangs_inv _ _ _ _ Hhs) as (itc & Hitc & _ & Hkc).
  rewrite (deref_lookup _ _ _ Hitc), bind_ret.
  destruct kids' as [[|s1 ks']|].
  - destruct Hkc as [Hcc _]. unfold i_children. rewrite Hcc. simpl.
    destruct (decide (i = 0%nat)) as [->|_]; [done|]. apply IHk. lia.
  - destruct Hkc as [Hcc _]. unfold i_children. rewrite Hcc.
    destruct (Z.eqb_spec (Z.of_nat (length (map root_of (s1 :: ks')))) (-1))
      as [?|_]; [lia|].
    destruct (Z.ltb_spec 0 (Z.of_nat (length (map root_of (s1 :: ks')))))
      as [_|Hf]; [|simpl in Hf; lia].
    rewrite IH, bind_ret.
    destruct (last (tleaves_list (s1 :: ks'))); [done|]. apply IHk. lia.
  - unfold i_children. rewrite Hkc. reflexivity.
Qed.

(** X12: LastLeaf returns the last leaf, in document order, below the root,
    and none when no leaf lies below it (a leaf root included): empty
    containers and containers that hold only containers are passed over. *)
Theorem GetLastLeaf_document_order pl par t fuel :
  hangs pl par t = true → (height t ≤ fuel)%nat →
  playlist_GetLastLeaf fuel pl (root_of t)
    = Ok match t with
         | PNode _ None => None
         | PNode _ (Some ks) => last (tleaves_list ks)
         end.
Proof. intros Hhang Hfuel. by apply (GetLastLeaf_spec pl fuel t par). Qed.

Lemma GetLastLeaf_document_order_witness :
  playlist_GetLastLeaf 3 pl_example 0%nat = Ok (Some 4%nat).
Proof.
  apply (GetLastLeaf_document_order pl_example None
           (PNode 0 (Some [PNode 1 (Some [PNode 2 None; PNode 3 None]);
                           PNode 4 None]))%nat 3).
  - vm_compute. reflexivity.
  - simpl. lia.
Defined.

(** *** Past the last leaf *)

Lemma accepted_leaf pl b_ena b_unplayed p :
  accepted pl b_ena b_unplayed p = true → accepted pl false false p = true.
Proof.
  unfold accepted. destruct (items pl !! p) as [it|]; [|done].
  intros [H _]%andb_true_iff. by rewrite H.
Qed.

Lemma tleaves_filter pl : ∀ n t par,
  (height t ≤ n)%nat → hangs pl par t = true →
  tleaves t = List.filter (accepted pl false false) (preorder t).
Proof.
  induction n as [|n IH]; intros [p kids] par Hn Hhang.
  { destruct kids; simpl in Hn; lia. }
  destruct (hangs_inv _ _ _ _ Hhang) as (it & Hit & _ & Hkids).
  change (preorder (PNode p kids))
    with (p :: match kids with None => [] | Some ks => preorder_list ks end).
  simpl List.filter. unfold accepted at 1. rewrite Hit.
  destruct kids as [ks|].
  2:{ unfold i_children. rewrite Hkids. reflexivity. }
  destruct Hkids as [Hc Hall].
  change (height (PNode p (Some ks))) with (S (height_list ks)) in Hn.
  unfold i_children. rewrite Hc.
  destruct (Z.eqb_spec (Z.of_nat (length (map root_of ks))) (-1)) as [?|_];
    [lia|].
  simpl andb. cbv iota.
  change (tleaves (PNode p (Some ks))) with (tleaves_list ks).
  clear Hhang Hit Hc.
  induction ks as [|s ks IHks]; [done|].
  change (tleaves_list (s :: ks)) with (tleaves s ++ tleaves_list ks).
  change (preorder_list (s :: ks)) with (preorder s ++ preorder_list ks).
  change (height_list (s :: ks))
    with (Nat.max (height s) (height_list ks)) in Hn.
  rewrite List.filter_app. f_equal.
  - apply (IH s (Some p)); [lia|]. apply Hall. left.
  - apply IHks; [lia|]. intros s' Hs'. apply Hall. by right.
Qed.

Lemma tleaves_list_filter pl par r ks :
  hangs pl par (PNode r (Some ks)) = true →
  tleaves_list ks = List.filter (accepted pl false false) (preorder_list ks).
Proof.
  intros Hhang.
  pose proof (tleaves_filter pl _ _ par (le_n _) Hhang) as H.
  destruct (hangs_inv _ _ _ _ Hhang) as (it & Hit & _ & Hc & _).
  change (tleaves (PNode r (Some ks))) with (tleaves_list ks) in H.
  change (preorder (PNode r (Some ks))) with (r :: preorder_list ks) in H.
  simpl List.filter in H. unfold accepted at 1 in H. rewrite Hit in H.
  unfold i_children in H. rewrite Hc in H.
  destruct (Z.eqb_spec (Z.of_nat (length (map root_of ks))) (-1)) as [?|_];
    [lia|].
  exact H.
Qed.

Lemma filter_after_last (f : ptr → bool) L x :
  NoDup L → last (List.filter f L) = Some x →
  List.filter f (after L x) = [].
Proof.
  induction L as [|z L IH]; simpl; [done|].
  intros [Hz Hnd]%NoDup_cons.
  assert (Hmem : ∀ y, last (List.filter f L) = Some y → y ∈ L).
  { intros y Hy%last_Some_elem_of%list_elem_of_In%filter_In.
    apply list_elem_of_In. tauto. }
  destruct (f z) eqn:Hfz.
  - rewrite last_cons. destruct (last (List.filter f L)) as [y|] eqn:Hl.
    + intros [= ->]. destruct (decide (z = x)) as [->|_]; [|by apply IH].
      destruct Hz. by apply Hmem.
    + intros [= ->]. rewrite decide_True by done. by apply last_None in Hl.
  - intros Hl. destruct (decide (z = x)) as [->|_]; [|by apply IH].
    destruct Hz. by apply Hmem.
Qed.

Lemma find_None_sub (f g : ptr → bool) l :
  (∀ x, g x = true → f x = true) → List.filter f l = [] → find g l = None.
Proof.
  intros Hsub. induction l as [|a l IH]; simpl; [done|].
  destruct (f a) eqn:Hfa; [done|]. intros Hl.
  destruct (g a) eqn:Hga; [|auto]. rewrite (Hsub _ Hga) in Hfa. done.
Qed.

(** X13: the walk ends at the last leaf.  Below a container root, NextLeaf
    from the node LastLeaf returns finds nothing, whatever the filters; when
    LastLeaf returns none (no leaf below the root), NextLeaf from no cursor
    finds nothing either. *)
Theorem GetNextLeaf_after_GetLastLeaf pl par r ks fuel b_ena b_unplayed :
  hangs pl par (PNode r (Some ks)) = true →
  NoDup (preorder (PNode r (Some ks))) →
  (height (PNode r (Some ks)) + length (preorder_list ks) ≤ fuel)%nat →
  (x ← playlist_GetLastLeaf fuel pl r;
   playlist_GetNextLeaf fuel pl r x b_ena b_unplayed) = Ok None.
Proof.
  intros Hhang Hnd Hfuel.
  pose proof (GetLastLeaf_spec pl fuel (PNode r (Some ks)) par
                ltac:(lia) Hhang) as HL.
  simpl root_of in HL. rewrite HL, bind_ret. clear HL.
  pose proof (tleaves_list_filter pl par r ks Hhang) as Hleaves.
  pose proof Hnd as Hnd'.
  change (preorder (PNode r (Some ks))) with (r :: preorder_list ks) in Hnd'.
  apply NoDup_cons in Hnd' as [Hr Hnd'].
  assert (Hcur : match last (tleaves_list ks) with
                 | Some x => x ∈ preorder_list ks
                 | None => True
                 end).
  { destruct (last (tleaves_list ks)) as [x|] eqn:Hlast; [|done].
    apply last_Some_elem_of in Hlast. rewrite Hleaves in Hlast.
    apply list_elem_of_In, filter_In in Hlast as [Hin _].
    by apply list_elem_of_In. }
  rewrite (GetNextLeaf_ahead pl par r ks); [|done|done| |done].
  - f_equal. apply (find_None_sub (accepted pl false false));
      [apply accepted_leaf|].
    destruct (last (tleaves_list ks)) as [x|] eqn:Hlast.
    + change (ahead (PNode r (Some ks)) (Some x))
        with (after (r :: preorder_list ks) x).
      simpl after. rewrite decide_False by (intros ->; done).
      apply filter_after_last; [done|]. by rewrite <- Hleaves.
    + apply last_None in Hlast.
      change (ahead (PNode r (Some ks)) None) with (preorder_list ks).
      by rewrite <- Hleaves.
  - destruct (ahead_suffix (PNode r (Some ks)) (last (tleaves_list ks)))
      as (pre & Hne & Hpre).
    apply (f_equal length) in Hpre. rewrite length_app in Hpre.
    change (preorder (PNode r (Some ks))) with (r :: preorder_list ks) in Hpre.
    simpl in Hpre. destruct pre; [done|]. simpl in Hpre. lia.
Qed.

Lemma GetNextLeaf_after_GetLastLeaf_witness :
  (x ← playlist_GetLastLeaf 7 pl_example 0%nat;
   playlist_GetNextLeaf 7 pl_example 0%nat x true true) = Ok None.
Proof.
  apply (GetNextLeaf_after_GetLastLeaf pl_example None 0%nat
           [PNode 1 (Some [PNode 2 None; PNode 3 None]); PNode 4 None]%nat
           7 true true).
  - vm_compute. reflexivity.
  - refine (bool_decide_unpack _ _). vm_compute. exact I.
  - simpl. lia.
Defined.

(** ** Walking a flat playlist in both directions *)

Lemma index_of_NoDup a : NoDup a → ∀ i x,
  a !! i = Some x → index_of x a = Some i.
Proof.
  induction 1 as [|y a Hy Hnd IH]; intros [|i] x; simpl; try done.
  - intros [= ->]. by rewrite decide_True.
  - intros Hx. rewrite decide_False.
    + by rewrite (IH i x Hx).
    + intros ->. apply Hy. apply list_elem_of_lookup. eauto.
Qed.

Lemma rindex_of_None x a : x ∉ a → rindex_of x a = None.
Proof.
  induction a as [|y a IH]; simpl; [done|]. intros Hx.
  rewrite IH by (intros ?; apply Hx; by right).
  rewrite decide_False; [done|]. intros ->. apply Hx. left.
Qed.

Lemma rindex_of_NoDup a : NoDup a → ∀ j x,
  a !! j = Some x → rindex_of x a = Some j.
Proof.
  induction 1 as [|y a Hy Hnd IH]; intros [|j] x; simpl; try done.
  - intros [= ->]. rewrite rindex_of_None by done. by rewrite decide_True.
  - intros Hx. by rewrite (IH j x Hx).
Qed.

Lemma GetNextLeaf_loop_S fuel pl p_root p_next b_ena b_unplayed :
  GetNextLeaf_loop (S fuel) pl p_root p_next b_ena b_unplayed =
    p_next ← GetNextItem (S fuel) pl p_root p_next;
    match p_next with
    | None => Ok None
    | Some next =>
        if decide (next = p_root) then Ok p_next
        else
          it ← deref pl next;
          if (i_children it =? -1) && leaf_ok it b_ena b_unplayed
          then Ok p_next
          else GetNextLeaf_loop fuel pl p_root p_next b_ena b_unplayed
    end.
Proof. reflexivity. Qed.

Lemma GetPrevLeaf_loop_S fuel pl p_root p_prev b_ena b_unplayed :
  GetPrevLeaf_loop (S fuel) pl p_root p_prev b_ena b_unplayed =
    p_prev ← GetPrevItem (S fuel) pl p_root p_prev;
    match p_prev with
    | None => Ok None
    | Some prev =>
        if decide (prev = p_root) then Ok p_prev
        else
          it ← deref pl prev;
          if (i_children it =? -1) && leaf_ok it b_ena b_unplayed
          then Ok p_prev
          else GetPrevLeaf_loop fuel pl p_root p_prev b_ena b_unplayed
    end.
Proof. reflexivity. Qed.

Section flat_walk.
Context (pl : playlist_t) (r : ptr) (a : list ptr) (Hflat : flat pl r a).
Context (b_ena b_unplayed : bool).

Lemma flat_child i x : a !! i = Some x →
  ∃ itx, items pl !! x = Some itx ∧ i_children itx = -1 ∧
         p_parent itx = Some r ∧ x ≠ r.
Proof.
  destruct Hflat as (_ & (itr & Hr & Hc) & Hall). intros Hx.
  destruct (Hall x) as (itx & Hitx & Hleaf & Hpar).
  { apply list_elem_of_lookup. eauto. }
  exists itx. split; [done|]. split; [by apply i_children_leaf|].
  split; [done|]. intros ->. congruence.
Qed.

Lemma flat_root :
  ∃ itr, items pl !! r = Some itr ∧ pp_children itr = a ∧
         i_children itr = Z.of_nat (length a).
Proof.
  destruct Hflat as (_ & (itr & Hr & Hc) & _). exists itr.
  split; [done|]. unfold pp_children, i_children. by rewrite Hc.
Qed.

Lemma GetNextItem_flat fuel i x : a !! i = Some x →
  GetNextItem fuel pl r (Some x) = Ok (a !! S i).
Proof.
  intros Hx. destruct (flat_child i x Hx) as (itx & Hitx & Hleaf & Hpar & _).
  destruct flat_root as (itr & Hr & Hpp & Hn).
  unfold GetNextItem. rewrite (deref_lookup _ _ _ Hitx). simpl.
  rewrite Hleaf. simpl. rewrite Hpar, (deref_lookup _ _ _ Hr). simpl.
  rewrite Hpp, (index_of_NoDup a (proj1 Hflat) i x Hx), Hn.
  rewrite decide_True by done.
  destruct (Z.geb_spec (Z.of_nat i + 1) (Z.of_nat (length a))) as [Hge|Hlt].
  - symmetry. f_equal. apply lookup_ge_None. lia.
  - destruct (lookup_lt_is_Some_2 a (i + 1)) as [z Hz]; [lia|].
    unfold array_read. rewrite Hz. simpl. by rewrite <- Nat.add_1_r, Hz.
Qed.

Lemma GetPrevItem_flat fuel j y : a !! j = Some y →
  GetPrevItem fuel pl r (Some y)
    = Ok match j with O => None | S k => a !! k end.
Proof.
  intros Hy. destruct (flat_child j y Hy) as (ity & Hity & Hleaf & Hpar & _).
  destruct flat_root as (itr & Hr & Hpp & Hn).
  unfold GetPrevItem. rewrite (deref_lookup _ _ _ Hity). simpl.
  rewrite Hleaf. simpl. rewrite Hpar, (deref_lookup _ _ _ Hr). simpl.
  rewrite Hpp, (rindex_of_NoDup a (proj1 Hflat) j y Hy).
  rewrite decide_True by done.
  destruct (Z.ltb_spec (Z.of_nat j - 1) 0) as [Hlt|Hge].
  - destruct j; [done|lia].
  - destruct j as [|k]; [lia|].
    destruct (lookup_lt_is_Some_2 a k) as [z Hz].
    { apply lookup_lt_Some in Hy. lia. }
    unfold array_read. replace (S k - 1)%nat with k by lia.
    rewrite Hz. reflexivity.
Qed.

Lemma leaf_test_accepted x itx :
  items pl !! x = Some itx →
  (i_children itx =? -1) && leaf_ok itx b_ena b_unplayed
    = accepted pl b_ena b_unplayed x.
Proof. intros Hx. unfold accepted. by rewrite Hx. Qed.

Lemma GetNextLeaf_loop_flat_inv : ∀ fuel i x y,
  a !! i = Some x →
  GetNextLeaf_loop fuel pl r (Some x) b_ena b_unplayed = Ok (Some y) →
  ∃ j, (i < j)%nat ∧ a !! j = Some y ∧
       accepted pl b_ena b_unplayed y = true ∧ refused_between pl b_ena b_unplayed a i j ∧
       (j - i ≤ fuel)%nat.
Proof.
  induction fuel as [|fuel IH]; intros i x y Hx; [done|].
  rewrite GetNextLeaf_loop_S, (GetNextItem_flat _ i x Hx), bind_ret.
  destruct (a !! S i) as [z|] eqn:Hz; [|done].
  destruct (flat_child (S i) z Hz) as (itz & Hitz & _ & _ & Hzr).
  rewrite decide_False by done.
  rewrite (deref_lookup _ _ _ Hitz), bind_ret.
  rewrite (leaf_test_accepted z itz Hitz).
  destruct (accepted pl b_ena b_unplayed z) eqn:Hacc.
  - intros [= <-]. exists (S i). split; [lia|]. split; [done|].
    split; [done|]. split; [intros k w Hk; lia|lia].
  - intros Hrun. destruct (IH (S i) z y Hz Hrun) as (j & Hj & Hy & Hay & Hbet & Hf).
    exists j. split; [lia|]. split; [done|]. split; [done|].
    split; [|lia]. intros k w Hk Hw.
    destruct (decide (k = S i)) as [->|Hne]; [congruence|].
    apply (Hbet k w); [lia|done].
Qed.

Lemma GetPrevLeaf_loop_flat_inv : ∀ fuel j y x,
  a !! j = Some y →
  GetPrevLeaf_loop fuel pl r (Some y) b_ena b_unplayed = Ok (Some x) →
  ∃ i, (i < j)%nat ∧ a !! i = Some x ∧
       accepted pl b_ena b_unplayed x = true ∧ refused_between pl b_ena b_unplayed a i j ∧
       (j - i ≤ fuel)%nat.
Proof.
  induction fuel as [|fuel IH]; intros j y x Hy; [done|].
  rewrite GetPrevLeaf_loop_S, (GetPrevItem_flat _ j y Hy), bind_ret.
  destruct j as [|k]; [done|].
  destruct (a !! k) as [z|] eqn:Hz; [|done].
  destruct (flat_child k z Hz) as (itz & Hitz & _ & _ & Hzr).
  rewrite decide_False by done.
  rewrite (deref_lookup _ _ _ Hitz), bind_ret.
  rewrite (leaf_test_accepted z itz Hitz).
  destruct (accepted pl b_ena b_unplayed z) eqn:Hacc.
  - intros [= <-]. exists k. split; [lia|]. split; [done|].
    split; [done|]. split; [intros k' w Hk; lia|lia].
  - intros Hrun. destruct (IH k z x Hz Hrun) as (i & Hi & Hx & Hax & Hbet & Hf).
    exists i. split; [lia|]. split; [done|]. split; [done|].
    split; [|lia]. intros k' w Hk Hw.
    destruct (decide (k' = k)) as [->|Hne]; [congruence|].
    apply (Hbet k' w); [lia|done].
Qed.

Lemma GetNextLeaf_loop_flat_run : ∀ fuel i j x y,
  a !! i = Some x → a !! j = Some y → (i < j)%nat →
  accepted pl b_ena b_unplayed y = true → refused_between pl b_ena b_unplayed a i j →
  (j - i ≤ fuel)%nat →
  GetNextLeaf_loop fuel pl r (Some x) b_ena b_unplayed = Ok (Some y).
Proof.
  induction fuel as [|fuel IH]; intros i j x y Hx Hy Hij Hacc Hbet Hf; [lia|].
  rewrite GetNextLeaf_loop_S, (GetNextItem_flat _ i x Hx), bind_ret.
  destruct (lookup_lt_is_Some_2 a (S i)) as [z Hz].
  { apply lookup_lt_Some in Hy. lia. }
  rewrite Hz.
  destruct (flat_child (S i) z Hz) as (itz & Hitz & _ & _ & Hzr).
  rewrite decide_False by done.
  rewrite (deref_lookup _ _ _ Hitz), bind_ret.
  rewrite (leaf_test_accepted z itz Hitz).
  destruct (decide (S i = j)) as [<-|Hne].
  - assert (z = y) as -> by congruence. by rewrite Hacc.
  - rewrite (Hbet (S i) z) by (done || lia).
    apply (IH (S i) j z y); try done; try lia.
    intros k w Hk. apply Hbet. lia.
Qed.

Lemma GetPrevLeaf_loop_flat_run : ∀ fuel i j x y,
  a !! i = Some x → a !! j = Some y → (i < j)%nat →
  accepted pl b_ena b_unplayed x = true → refused_between pl b_ena b_unplayed a i j →
  (j - i ≤ fuel)%nat →
  GetPrevLeaf_loop fuel pl r (Some y) b_ena b_unplayed = Ok (Some x).
Proof.
  induction fuel as [|fuel IH]; intros i j x y Hx Hy Hij Hacc Hbet Hf; [lia|].
  rewrite GetPrevLeaf_loop_S, (GetPrevItem_flat _ j y Hy), bind_ret.
  destruct j as [|k]; [lia|].
  destruct (lookup_lt_is_Some_2 a k) as [z Hz].
  { apply lookup_lt_Some in Hy. lia. }
  rewrite Hz.
  destruct (flat_child k z Hz) as (itz & Hitz & _ & _ & Hzr).
  rewrite decide_False by done.
  rewrite (deref_lookup _ _ _ Hitz), bind_ret.
  rewrite (leaf_test_accepted z itz Hitz).
  destruct (decide (k = i)) as [->|Hne].
  - assert (z = x) as -> by congruence. by rewrite Hacc.
  - rewrite (Hbet k z) by (done || lia).
    apply (IH i k x z); try done; try lia.
    intros k' w Hk. apply Hbet. lia.
Qed.

Lemma GetLeaf_flat_unfold cursor :
  (∀ fuel, playlist_GetNextLeaf fuel pl r cursor b_ena b_unplayed
           = GetNextLeaf_loop fuel pl r cursor b_ena b_unplayed) ∧
  (∀ fuel, playlist_GetPrevLeaf fuel pl r cursor b_ena b_unplayed
           = GetPrevLeaf_loop fuel pl r cursor b_ena b_unplayed).
Proof.
  destruct flat_root as (itr & Hr & _ & Hn).
  unfold playlist_GetNextLeaf, playlist_GetPrevLeaf.
  rewrite (deref_lookup _ _ _ Hr). simpl.
  destruct (Z.eqb_spec (i_children itr) (-1)) as [?|_]; [lia|]. done.
Qed.
End flat_walk.

(** X14: on a flat playlist (a container holding distinct leaves only) the
    two leaf walks are inverse to each other between acceptable leaves, under
    any filters and with the same fuel: if NextLeaf from an acceptable leaf
    [x] returns [y] then PrevLeaf from [y] returns [x], and if PrevLeaf from
    an acceptable leaf [y] returns [x] then NextLeaf from [x] returns [y]. *)
Theorem flat_leaf_walks_inverse pl r a b_ena b_unplayed fuel x y :
  flat pl r a →
  (x ∈ a → accepted pl b_ena b_unplayed x = true →
   playlist_GetNextLeaf fuel pl r (Some x) b_ena b_unplayed = Ok (Some y) →
   playlist_GetPrevLeaf fuel pl r (Some y) b_ena b_unplayed = Ok (Some x)) ∧
  (y ∈ a → accepted pl b_ena b_unplayed y = true →
   playlist_GetPrevLeaf fuel pl r (Some y) b_ena b_unplayed = Ok (Some x) →
   playlist_GetNextLeaf fuel pl r (Some x) b_ena b_unplayed = Ok (Some y)).
Proof.
  intros Hflat.
  pose proof (GetLeaf_flat_unfold pl r a Hflat b_ena b_unplayed) as Hun.
  split.
  - intros [i Hi]%list_elem_of_lookup Hacc.
    rewrite (proj1 (Hun _)), (proj2 (Hun _)). intros Hrun.
    destruct (GetNextLeaf_loop_flat_inv pl r a Hflat _ _ fuel i x y Hi Hrun)
      as (j & Hij & Hj & _ & Hbet & Hf).
    by apply (GetPrevLeaf_loop_flat_run pl r a Hflat _ _ fuel i j).
  - intros [j Hj]%list_elem_of_lookup Hacc.
    rewrite (proj1 (Hun _)), (proj2 (Hun _)). intros Hrun.
    destruct (GetPrevLeaf_loop_flat_inv pl r a Hflat _ _ fuel j y x Hj Hrun)
      as (i & Hij & Hi & _ & Hbet & Hf).
    by apply (GetNextLeaf_loop_flat_run pl r a Hflat _ _ fuel i j).
Qed.

Lemma flat_leaf_walks_inverse_witness :
  flat pl_flat 0%nat [1; 2; 3]%nat ∧
  playlist_GetNextLeaf 2 pl_flat 0%nat (Some 1%nat) true false
    = Ok (Some 3%nat) ∧
  playlist_GetPrevLeaf 2 pl_flat 0%nat (Some 3%nat) true false
    = Ok (Some 1%nat).
Proof.
  assert (Hflat : flat pl_flat 0%nat [1; 2; 3]%nat).
  { split; [refine (bool_decide_unpack _ _); vm_compute; exact I|].
    split; [eexists; split; vm_compute; reflexivity|].
    intros c Hc. apply list_elem_of_In in Hc. simpl in Hc.
    destruct Hc as [<-|[<-|[<-|[]]]];
      eexists; (split; [vm_compute; reflexivity|]); split; reflexivity. }
  split; [exact Hflat|].
  assert (Hnext : playlist_GetNextLeaf 2 pl_flat 0%nat (Some 1%nat) true false
                  = Ok (Some 3%nat)) by (vm_compute; reflexivity).
  split; [exact Hnext|].
  apply (proj1 (flat_leaf_walks_inverse pl_flat 0%nat [1; 2; 3]%nat
                  true false 2 1%nat 3%nat Hflat)).
  - apply list_elem_of_In. simpl. auto.
  - vm_compute. reflexivity.
  - exact Hnext.
Defined.

(** ** Counting the nodes below a container *)

Lemma length_preorder_pos s : (1 ≤ length (preorder s))%nat.
Proof. destruct s. simpl. lia. Qed.

Lemma length_preorder_list_ge ks : (length ks ≤ length (preorder_list ks))%nat.
Proof.
  induction ks as [|s ks IH]; simpl; [lia|].
  change (length ks ≤ length (preorder_list ks))%nat in IH.
  rewrite length_app. pose proof (length_preorder_pos s).
  change ((fix go (ks0 : list ptree) : list ptr :=
             match ks0 with
             | [] => []
             | k :: ks1 => preorder k ++ go ks1
             end) ks) with (preorder_list ks). lia.
Qed.

Lemma length_preorder_leaves ks :
  forallb is_leaf ks = true → length (preorder_list ks) = length ks.
Proof.
  induction ks as [|[p [?|]] ks IH]; simpl; try done.
  intros H. f_equal. by apply IH.
Qed.

(** X15: ChildrenCount never over-counts.  On a heap that holds the tree [t]
    (at most 2^31 nodes) it returns a number between 0 and the number of
    nodes below the root of [t]; it returns exactly that number when, in every
    child list of [t], no container follows a leaf. *)
Theorem NodeChildrenCount_at_most_descendants pl par t fuel :
  hangs pl par t = true → (height t ≤ fuel)%nat →
  Z.of_nat (length (preorder t)) ≤ 2 ^ 31 →
  ∃ n, playlist_NodeChildrenCount fuel pl (root_of t) = Ok n ∧
    0 ≤ n ≤ Z.of_nat (length (preorder t)) - 1 ∧
    (containers_first t = true → n = Z.of_nat (length (preorder t)) - 1).
Proof.
  revert par t.
  induction fuel as [|fuel IH]; intros par [p kids] Hhang Hfuel Hsize.
  { destruct kids; simpl in Hfuel; lia. }
  destruct (hangs_inv _ _ _ _ Hhang) as (it & Hit & _ & Hkids).
  simpl playlist_NodeChildrenCount. simpl root_of.
  rewrite (deref_lookup _ _ _ Hit), bind_ret.
  destruct kids as [ks|].
  2:{ unfold i_children. rewrite Hkids. simpl. exists 0. split; [done|lia]. }
  destruct Hkids as [Hc Hall].
  change (height (PNode p (Some ks))) with (S (height_list ks)) in Hfuel.
  change (preorder (PNode p (Some ks))) with (p :: preorder_list ks) in *.
  change (containers_first (PNode p (Some ks)))
    with (leaves_last ks && forallb containers_first ks).
  unfold i_children, pp_children. rewrite Hc, length_map.
  destruct (Z.eqb_spec (Z.of_nat (length ks)) (-1)) as [?|_]; [lia|].
  simpl length in *.
  assert (Hloop : ∀ ks acc,
    (∀ s, s ∈ ks → hangs pl (Some p) s = true ∧ (height s ≤ fuel)%nat) →
    0 ≤ acc →
    acc + Z.of_nat (length (preorder_list ks)) - Z.of_nat (length ks)
      < 2 ^ 31 →
    ∃ n, NodeChildrenCount_loop (playlist_NodeChildrenCount fuel pl) pl
           (map root_of ks) acc = Ok n ∧
      acc ≤ n ≤ acc + Z.of_nat (length (preorder_list ks))
                - Z.of_nat (length ks) ∧
      (leaves_last ks = true → forallb containers_first ks = true →
       n = acc + Z.of_nat (length (preorder_list ks))
           - Z.of_nat (length ks))).
  { clear Hall Hfuel Hsize Hc Hit Hhang ks.
    induction ks as [|s ks IHks]; intros acc Hall Hacc Hsize.
    { exists acc. simpl. split; [done|]. split; lia. }
    destruct (Hall s ltac:(left)) as [Hhs Hhei].
    pose proof (length_preorder_list_ge ks) as Hge.
    pose proof (length_preorder_pos s) as Hpos.
    change (preorder_list (s :: ks)) with (preorder s ++ preorder_list ks)
      in *.
    rewrite length_app in *. simpl length in *.
    simpl map. simpl NodeChildrenCount_loop.
    destruct (hangs_root _ _ _ Hhs) as (its & Hits & _).
    rewrite (deref_lookup _ _ _ Hits), bind_ret.
    destruct (IH (Some p) s Hhs Hhei ltac:(lia)) as (m & Hm & Hmb & Hmx).
    destruct s as [c [ks'|]].
    - destruct (hangs_inv _ _ _ _ Hhs) as (its' & Hits' & _ & Hcc & _).
      assert (its' = its) as -> by (simpl in Hits; congruence).
      unfold i_children at 1. rewrite Hcc.
      destruct (Z.eqb_spec (Z.of_nat (length (map root_of ks'))) (-1))
        as [?|_]; [lia|].
      simpl root_of in *. rewrite Hm, bind_ret.
      rewrite int_add_exact by lia.
      destruct (IHks (acc + m)) as (n & Hn & Hnb & Hnx).
      + intros s' Hs'. apply Hall. by right.
      + lia.
      + lia.
      + exists n. split; [done|]. split; [lia|].
        simpl leaves_last. simpl forallb.
        intros Hl [Hcf Hrest]%andb_true_iff.
        rewrite (Hnx Hl Hrest), (Hmx Hcf). lia.
    - destruct (hangs_inv _ _ _ _ Hhs) as (its' & Hits' & _ & Hcc).
      assert (its' = its) as -> by (simpl in Hits; congruence).
      rewrite (proj2 (i_children_leaf its) Hcc). simpl.
      exists acc. split; [done|]. split; [lia|].
      intros Hl%length_preorder_leaves _. lia. }
  destruct (Hloop ks (Z.of_nat (length ks))) as (n & Hn & Hnb & Hnx).
  - intros s Hs. split; [by apply Hall|].
    pose proof (height_in_list s ks Hs). lia.
  - lia.
  - lia.
  - exists n. split; [done|]. split; [lia|].
    intros [Hl Hcf]%andb_true_iff. rewrite (Hnx Hl Hcf). lia.
Qed.

Lemma NodeChildrenCount_at_most_descendants_witness :
  ∃ n, playlist_NodeChildrenCount 3 pl_example 0%nat = Ok n ∧
    0 ≤ n ≤ 5 - 1 ∧ (true = true → n = 5 - 1).
Proof.
  apply (NodeChildrenCount_at_most_descendants pl_example None
           (PNode 0 (Some [PNode 1 (Some [PNode 2 None; PNode 3 None]);
                           PNode 4 None]))%nat 3).
  - vm_compute. reflexivity.
  - simpl. lia.
  - simpl. lia.
Defined.

(** ** Creating and deleting a container *)

Lemma ARRAY_BSEARCH_last pl l p it :
  (∀ e, e ∈ l → ∃ ite, items pl !! e = Some ite ∧ i_id ite ≠ i_id it) →
  items pl !! p = Some it →
  ARRAY_BSEARCH pl (l ++ [p]) (i_id it) = Ok (Some (length l)).
Proof.
  intros Hl Hp. induction l as [|e l IH]; simpl.
  - rewrite (deref_lookup _ _ _ Hp). simpl. by rewrite Z.eqb_refl.
  - destruct (Hl e ltac:(left)) as (ite & Hite & Hid).
    rewrite (deref_lookup _ _ _ Hite). simpl.
    destruct (Z.eqb_spec (i_id ite) (i_id it)) as [?|_]; [done|].
    rewrite IH; [done|]. intros e' He'. apply Hl. by right.
Qed.

Lemma remove_first_snoc p a : p ∉ a → remove_first p (a ++ [p]) = a.
Proof.
  induction a as [|y a IH]; simpl; intros Hp.
  - by rewrite decide_True.
  - apply not_elem_of_cons in Hp as [Hne Hp].
    rewrite decide_False by done. by rewrite IH.
Qed.

Lemma delete_snoc (l : list ptr) p : delete (length l) (l ++ [p]) = l.
Proof. induction l as [|y l IH]; simpl; [done|]. by rewrite IH. Qed.

(** X16: Create followed by Delete of the new node is a round trip on the
    tree and on the registry.  On a playlist whose child arrays are
    consistent and whose registered nodes are live with ids other than the
    next one, creating a container under a live container and deleting it
    again (with any deleteItems and force) succeeds and restores the nodes and
    the registry exactly; what remains is the id counter, advanced by one,
    one add notification and one deletion notification carrying the new
    id. *)
Theorem NodeCreate_then_NodeDelete pl name q itq a flags input di force fuel :
  children_consistent pl →
  items pl !! q = Some itq → children itq = Some a →
  (∀ e, e ∈ all_items pl →
     ∃ ite, items pl !! e = Some ite ∧ i_id ite ≠ i_last_playlist_id pl + 1) →
  ∃ pl1 p pl2,
    playlist_NodeCreate true pl name (Some q) flags input = Ok (pl1, Some p) ∧
    playlist_NodeDelete (S fuel) pl1 p di force = Ok (pl2, VLC_SUCCESS) ∧
    items pl2 = items pl ∧ all_items pl2 = all_items pl ∧
    i_last_playlist_id pl2 = i_last_playlist_id pl + 1 ∧
    item_deleted pl2 = (i_last_playlist_id pl + 1) :: item_deleted pl ∧
    add_notify pl2 =
      (i_last_playlist_id pl + 1, i_id itq,
       negb (bool_decide (Z.land flags PLAYLIST_NO_REBUILD ≠ 0)))
      :: add_notify pl.
Proof.
  intros Hc Hq Ha Hreg.
  destruct (NodeCreate_run pl name q itq a flags input Hq Ha)
    as (pl1 & p & new & Hrun & _ & Hfresh & Hnew & Hitems & Hall & Hlast
        & Hnot & Hdel).
  pose proof (NodeCreate_consistent _ _ _ _ _ _ _ Hc Hrun) as Hc1.
  simpl in Hc1.
  assert (Hqp : q ≠ p) by congruence.
  assert (Hp1 : items pl1 !! p = Some new)
    by (rewrite Hitems; apply lookup_insert_eq).
  assert (Hq1 : items pl1 !! q = Some (with_children itq (Some (a ++ [p])))).
  { rewrite Hitems, lookup_insert_ne by done. apply lookup_insert_eq. }
  assert (Hpa : p ∉ a).
  { intros Hin. destruct (Hc q itq Hq) as [_ Hl].
    destruct (Hl p) as (? & ? & _); [|congruence].
    unfold pp_children. by rewrite Ha. }
  assert (Hid : i_id new = i_last_playlist_id pl + 1) by (by rewrite Hnew).
  assert (Hsearch : ARRAY_BSEARCH pl1 (all_items pl1) (i_id new)
                    = Ok (Some (length (all_items pl)))).
  { rewrite Hall. apply ARRAY_BSEARCH_last; [|done].
    intros e He. destruct (Hreg e He) as (ite & Hite & Hne).
    assert (Hep : e ≠ p) by congruence.
    rewrite Hitems, lookup_insert_ne by done.
    destruct (decide (e = q)) as [->|Heq].
    - rewrite lookup_insert_eq. eexists. split; [done|]. simpl.
      assert (ite = itq) as -> by congruence. by rewrite Hid.
    - rewrite lookup_insert_ne by done. exists ite. by rewrite Hid. }
  exists pl1, p. eexists. split; [exact Hrun|].
  simpl playlist_NodeDelete.
  rewrite (deref_lookup _ _ _ Hp1), bind_ret.
  assert (Hnc : i_children new = 0) by (by rewrite Hnew).
  assert (Hnf : i_flags new = 0) by (by rewrite Hnew).
  assert (Hnp : p_parent new = Some q) by (by rewrite Hnew).
  rewrite Hnc. simpl. rewrite (deref_lookup _ _ _ Hp1), bind_ret, Hnf. simpl.
  rewrite destroy_item_shape by done.
  rewrite Hsearch, bind_ret, Hnp, (deref_lookup _ _ _ Hq1), bind_ret. simpl.
  split; [reflexivity|]. simpl.
  split; [|split; [|split; [done|split; [by rewrite Hid, Hdel|done]]]].
  - unfold detach. simpl. rewrite remove_first_snoc by done.
    assert (Hback : with_children (with_children itq (Some (a ++ [p])))
                      (Some a) = itq).
    { destruct itq. unfold with_children. simpl in *. by rewrite Ha. }
    rewrite Hback, Hitems.
    apply map_eq. intros x. destruct (decide (x = p)) as [->|Hx].
    + by rewrite lookup_delete_eq.
    + rewrite lookup_delete_ne by done.
      destruct (decide (x = q)) as [->|Hxq].
      * by rewrite lookup_insert_eq.
      * by rewrite !(lookup_insert_ne _ q x), (lookup_insert_ne _ p x),
          (lookup_insert_ne _ q x) by done.
  - rewrite Hall. apply delete_snoc.
Qed.

Lemma NodeCreate_then_NodeDelete_witness :
  ∃ pl1 p pl2,
    playlist_NodeCreate true pl_example None (Some 1%nat) 0 None
      = Ok (pl1, Some p) ∧
    playlist_NodeDelete 1 pl1 p true false = Ok (pl2, VLC_SUCCESS) ∧
    items pl2 = items pl_example ∧ all_items pl2 = all_items pl_example ∧
    i_last_playlist_id pl2 = i_last_playlist_id pl_example + 1 ∧
    item_deleted pl2
      = (i_last_playlist_id pl_example + 1) :: item_deleted pl_example ∧
    add_notify pl2 =
      (i_last_playlist_id pl_example + 1, 2,
       negb (bool_decide (Z.land 0 PLAYLIST_NO_REBUILD ≠ 0)))
      :: add_notify pl_example.
Proof.
  apply (NodeCreate_then_NodeDelete pl_example None 1%nat
           (mk_node 2 (Some [2; 3]%nat) (Some 0%nat) 0) [2; 3]%nat 0 None
           true false 0).
  - apply (wf_children rank_tree). apply well_formed_tree.
  - vm_compute. reflexivity.
  - reflexivity.
  - intros e He. apply list_elem_of_In in He. simpl in He.
    destruct He as [<-|[<-|[<-|[<-|[<-|[]]]]]];
      eexists; (split; [vm_compute; reflexivity|]); vm_compute; discriminate.
Defined.
